(** * IDS_Evaluator: the metric and ROC/AUC engine of helper_functions.cpp

    A shallow embedding of the four evaluation functions of
    [helper/helper_functions.cpp]

      - [saveRocDataToCSV]          (ROC sweep, trapezoidal AUC, CSV artifact)
      - [calculateConfusionMatrix]  (strict [>] classification, four tallies)
      - [calculateMetrics]          (accuracy, precision, recall, specificity, F1)
      - [evaluateAlgorithm]         (validation, default threshold, orchestration)

    and the properties the specification states about them, followed by
    the other functions of that file and of its callers that can be embedded,

      - [printEvaluationResults]    (the summary printed on [cout])
      - [readCSV]                   (lines and cells of a text file)
      - [normalizeFeature]          (min-max scaling, in the LOF detectors)

    with further properties read off the code.

    Modelling choices, all written out below:

      - [double] keeps the IEEE-754 special values (the two infinities and
        NaN, with their comparison and division-by-zero rules) and carries
        its finite values as exact canonical rationals [Qc]: rounding,
        overflow to infinity and the sign of zero are outside the model.
      - [int] is a [Z] in the 32-bit range; an addition that leaves the range
        is undefined behaviour in C++ and yields [None], as does an index
        past the end of a vector ([labels[i]] with too few labels).
      - the counters of the ROC sweep are doubles that hold integers; they are
        exact below 2^53 samples, and exact here.
      - [std::sort] is an interface: any function that returns a permutation
        sorted for the comparator, whenever the comparator is a strict weak
        ordering on the input (no NaN score).  Every theorem about the ROC
        stage holds for all such functions, so for any order inside a tie
        group; insertion sort is the instance the examples run.
      - [map<string,double>] is a [gmap string double]; [cerr], [cout] and
        the CSV file are a trace of events returned next to the result; whether
        the output file can be opened is an input.
      - a file read is its text, a [string], and [std::getline] consumes it
        segment by segment; what [printEvaluationResults] and [readCSV] print
        is a list of items sent to the stream, a double being an item of its
        own: how its digits are formatted is outside the model. *)

From Stdlib Require Import ZArith QArith Qcanon Lia Lqa Permutation Ascii.
From stdpp Require Import base decidable option numbers list sorting strings gmap.

(** ** IEEE doubles with exact finite arithmetic *)

Inductive double : Type :=
| Fin (q : Qc)      (* a finite value *)
| PInf              (* +infinity *)
| NInf              (* -infinity *)
| NaN.

Definition Qc_ltb (a b : Qc) : bool :=
  match (a ?= b)%Qc with Lt => true | _ => false end.

Definition Qc_eqb (a b : Qc) : bool :=
  match (a ?= b)%Qc with Eq => true | _ => false end.

Definition d_zero : double := Fin 0%Qc.
Definition d_one : double := Fin 1%Qc.
Definition d_two : double := Fin (Qc_of_Z 2).

(** [static_cast<double>(n)] and the implicit conversion of an [int]. *)
Definition of_int (n : Z) : double := Fin (Qc_of_Z n).

(** [numeric_limits<double>::max()], (2 - 2^-52) * 2^1023. *)
Definition DBL_MAX : double := Fin (Qc_of_Z (2 ^ 1024 - 2 ^ 971)).

Definition is_nan (x : double) : bool :=
  match x with NaN => true | _ => false end.

Definition is_finite (x : double) : bool :=
  match x with Fin _ => true | _ => false end.

(** [x < y]: false as soon as one side is NaN. *)
Definition dlt (x y : double) : bool :=
  match x, y with
  | NaN, _ | _, NaN => false
  | Fin a, Fin b => Qc_ltb a b
  | NInf, NInf => false
  | NInf, _ => true
  | _, NInf => false
  | PInf, _ => false
  | Fin _, PInf => true
  end.

(** [x > y] *)
Definition dgt (x y : double) : bool := dlt y x.

(** [x == y]: NaN equals nothing, itself included. *)
Definition deq (x y : double) : bool :=
  match x, y with
  | Fin a, Fin b => Qc_eqb a b
  | PInf, PInf => true
  | NInf, NInf => true
  | _, _ => false
  end.

(** [x != y] *)
Definition dne (x y : double) : bool := negb (deq x y).

Definition dneg (x : double) : double :=
  match x with
  | Fin a => Fin (- a)%Qc
  | PInf => NInf
  | NInf => PInf
  | NaN => NaN
  end.

Definition dadd (x y : double) : double :=
  match x, y with
  | NaN, _ | _, NaN => NaN
  | Fin a, Fin b => Fin (a + b)%Qc
  | PInf, NInf | NInf, PInf => NaN
  | PInf, _ | _, PInf => PInf
  | NInf, _ | _, NInf => NInf
  end.

Definition dsub (x y : double) : double := dadd x (dneg y).

(** The infinity that has the sign of [a] (or the opposite one), NaN for
    [a = 0]. *)
Definition signed_inf (a : Qc) (same_sign : bool) : double :=
  if Qc_eqb a 0%Qc then NaN
  else if Bool.eqb (Qc_ltb 0%Qc a) same_sign then PInf else NInf.

Definition dmul (x y : double) : double :=
  match x, y with
  | NaN, _ | _, NaN => NaN
  | Fin a, Fin b => Fin (a * b)%Qc
  | Fin a, PInf | PInf, Fin a => signed_inf a true
  | Fin a, NInf | NInf, Fin a => signed_inf a false
  | PInf, PInf | NInf, NInf => PInf
  | PInf, NInf | NInf, PInf => NInf
  end.

(** Division: a finite nonzero value over zero is an infinity, zero over
    zero and infinity over infinity are NaN, a finite value over an
    infinity is zero. *)
Definition ddiv (x y : double) : double :=
  match x, y with
  | NaN, _ | _, NaN => NaN
  | Fin a, Fin b =>
      if Qc_eqb b 0%Qc then signed_inf a true else Fin (a / b)%Qc
  | Fin _, (PInf | NInf) => d_zero
  | PInf, Fin b => if Qc_ltb b 0%Qc then NInf else PInf
  | NInf, Fin b => if Qc_ltb b 0%Qc then PInf else NInf
  | (PInf | NInf), (PInf | NInf) => NaN
  end.

(** [x <= y] *)
Definition dle (x y : double) : bool := dlt x y || deq x y.

Declare Scope double_scope.
Delimit Scope double_scope with D.
Bind Scope double_scope with double.
Infix "+" := dadd : double_scope.
Infix "-" := dsub : double_scope.
Infix "*" := dmul : double_scope.
Infix "/" := ddiv : double_scope.

Global Instance double_eq_dec : EqDecision double.
Proof. solve_decision. Defined.

Global Instance double_inhabited : Inhabited double := populate d_zero.

(** ** [int] arithmetic and indexed loops *)

Definition INT_MAX : Z := 2147483647.
Definition INT_MIN : Z := -2147483648.

(** [a + b] on [int]: defined when the sum is representable. *)
Definition int_add (a b : Z) : option Z :=
  let r := (a + b)%Z in
  if bool_decide (INT_MIN ≤ r ≤ INT_MAX)%Z then Some r else None.

(** [for (size_t i = lo; i < lo + n; i++) acc = body(i, acc)] *)
Fixpoint for_range {A : Type} (lo n : nat) (body : nat → A → option A)
    (acc : A) : option A :=
  match n with
  | O => Some acc
  | S n' => acc' ← body lo acc; for_range (S lo) n' body acc'
  end.

(** ** Output: console lines and the CSV artifact *)

(** One row [threshold,fpr,tpr] of the ROC table. *)
Record roc_point : Type := RocPoint {
  threshold : double;
  fpr : double;
  tpr : double
}.

Global Instance roc_point_eq_dec : EqDecision roc_point.
Proof. solve_decision. Defined.

Inductive event : Type :=
| Cerr (line : string)                                 (* cerr << line << endl *)
| CsvFile (filename : string) (rows : list roc_point)  (* header and rows *)
| CoutRocSaved (filename : string)                     (* "ROC data saved to " *)
| CoutAuc (auc : double)                               (* "AUC: " << auc *)
| CoutResults (results : gmap string double) (showPercentages : bool).

Global Instance event_eq_dec : EqDecision event.
Proof. solve_decision. Defined.

Definition invalid_input_msg : string :=
  "Error: Invalid input data (scores and labels must be same length and non-empty)".

Definition degenerate_msg : string :=
  "Error: Data must contain both positive and negative samples".

Definition cannot_open_msg (filename : string) : string :=
  "Error: Could not open file " +:+ filename.

(** ** std::sort with the comparator [a.first > b.first] *)

Definition by_score_desc (a b : double * bool) : bool := dgt a.1 b.1.

(** The comparator is a strict weak ordering on a range without NaN scores;
    NaN is incomparable to everything, so with it "neither compares before
    the other" is no longer transitive and [std::sort] has no contract. *)
Definition no_nan (l : list (double * bool)) : Prop :=
  Forall (λ p, is_nan p.1 = false) l.

(** What [std::sort] guarantees: the elements are kept, and no later
    element compares before an earlier one. *)
Class StdSort : Type := {
  std_sort : list (double * bool) → list (double * bool);
  std_sort_perm : ∀ l, no_nan l → std_sort l ≡ₚ l;
  std_sort_sorted : ∀ l, no_nan l →
    StronglySorted (λ a b, by_score_desc b a = false) (std_sort l)
}.

(** ** saveRocDataToCSV *)

(** The loop that fills [score_label_pairs] from [scores[i]], [labels[i]]. *)
Definition make_pairs (scores : list double) (labels : list bool)
    : option (list (double * bool)) :=
  for_range 0 (length scores)
    (λ i pairs, s ← scores !! i; l ← labels !! i; Some (pairs ++ [(s, l)])) [].

(** The loop that counts [total_positives] and [total_negatives], both
    doubles. *)
Definition count_totals (pairs : list (double * bool)) : double * double :=
  foldl (λ '(total_positives, total_negatives) (pair : double * bool),
           if pair.2 then (total_positives + d_one, total_negatives)%D
           else (total_positives, total_negatives + d_one)%D)
        (d_zero, d_zero) pairs.

(** The variables the sweep loop updates. *)
Record roc_state : Type := RocState {
  true_positives : double;
  false_positives : double;
  prev_score : double;
  fpr_vec : list double;
  tpr_vec : list double;
  thresholds_vec : list double
}.

(** State before the loop: the counts at zero, [prev_score] at the largest
    double, and the point (0,0) pushed. *)
Definition roc_init : roc_state :=
  {| true_positives := d_zero; false_positives := d_zero;
     prev_score := DBL_MAX;
     fpr_vec := [d_zero]; tpr_vec := [d_zero]; thresholds_vec := [DBL_MAX] |}.

(** The three [push_back]s, with the counts and [prev_score] of the state. *)
Definition roc_emit (total_positives total_negatives : double)
    (st : roc_state) : roc_state :=
  {| true_positives := true_positives st;
     false_positives := false_positives st;
     prev_score := prev_score st;
     fpr_vec := fpr_vec st ++ [(false_positives st / total_negatives)%D];
     tpr_vec := tpr_vec st ++ [(true_positives st / total_positives)%D];
     thresholds_vec := thresholds_vec st ++ [prev_score st] |}.

(** One iteration of [for (const auto& [score, label] : score_label_pairs)]. *)
Definition roc_step (total_positives total_negatives : double)
    (st : roc_state) (pair : double * bool) : roc_state :=
  let '(score, label) := pair in
  let st :=
    if dne score (prev_score st) then
      let st' := roc_emit total_positives total_negatives st in
      {| true_positives := true_positives st';
         false_positives := false_positives st';
         prev_score := score;
         fpr_vec := fpr_vec st'; tpr_vec := tpr_vec st';
         thresholds_vec := thresholds_vec st' |}
    else st in
  if label then
    {| true_positives := (true_positives st + d_one)%D;
       false_positives := false_positives st;
       prev_score := prev_score st;
       fpr_vec := fpr_vec st; tpr_vec := tpr_vec st;
       thresholds_vec := thresholds_vec st |}
  else
    {| true_positives := true_positives st;
       false_positives := (false_positives st + d_one)%D;
       prev_score := prev_score st;
       fpr_vec := fpr_vec st; tpr_vec := tpr_vec st;
       thresholds_vec := thresholds_vec st |}.

(** The sweep and the final point pushed after it. *)
Definition roc_sweep (total_positives total_negatives : double)
    (sorted : list (double * bool)) : roc_state :=
  roc_emit total_positives total_negatives
    (foldl (roc_step total_positives total_negatives) roc_init sorted).

(** [auc += (fpr[i] - fpr[i-1]) * (tpr[i] + tpr[i-1]) / 2.0] for
    [i = 1 .. fpr.size() - 1]. *)
Definition trapezoid_auc (fprs tprs : list double) : option double :=
  for_range 1 (length fprs - 1)
    (λ i auc,
       fi ← fprs !! i; fj ← fprs !! (i - 1)%nat;
       ti ← tprs !! i; tj ← tprs !! (i - 1)%nat;
       Some (auc + (fi - fj) * (ti + tj) / d_two)%D)
    d_zero.

(** The rows written to the file: one per index of [fpr] that is also an
    index of [thresholds]. *)
Definition csv_rows (st : roc_state) : option (list roc_point) :=
  for_range 0 (length (fpr_vec st))
    (λ i rows,
       if bool_decide (i < length (thresholds_vec st))%nat then
         t ← thresholds_vec st !! i; f ← fpr_vec st !! i; r ← tpr_vec st !! i;
         Some (rows ++ [RocPoint t f r])
       else Some rows)
    [].

Definition roc_filename (algorithm_name dataset_name : string) : string :=
  "ROC_CSV/" +:+ algorithm_name +:+ "_" +:+ dataset_name +:+ "_roc.csv".

(** ** calculateConfusionMatrix *)

(** The tuple (TP, FP, TN, FN). *)
Definition confusion : Type := Z * Z * Z * Z.

(** The if-chain of the loop body: cross the prediction with the label and
    bump one counter. *)
Definition confusion_tally (threshold score : double) (isAnomaly : bool)
    (counts : confusion) : option confusion :=
  let '(truePositives, falsePositives, trueNegatives, falseNegatives) := counts in
  let predictedAnomaly := dgt score threshold in
  if isAnomaly && predictedAnomaly then
    n ← int_add truePositives 1;
    Some (n, falsePositives, trueNegatives, falseNegatives)
  else if negb isAnomaly && predictedAnomaly then
    n ← int_add falsePositives 1;
    Some (truePositives, n, trueNegatives, falseNegatives)
  else if negb isAnomaly && negb predictedAnomaly then
    n ← int_add trueNegatives 1;
    Some (truePositives, falsePositives, n, falseNegatives)
  else if isAnomaly && negb predictedAnomaly then
    n ← int_add falseNegatives 1;
    Some (truePositives, falsePositives, trueNegatives, n)
  else Some counts.

(** The body of the loop: read [scores[i]] and [labels[i]], then tally. *)
Definition confusion_step (scores : list double) (labels : list bool)
    (threshold : double) (i : nat) (counts : confusion) : option confusion :=
  score ← scores !! i;
  isAnomaly ← labels !! i;
  confusion_tally threshold score isAnomaly counts.

Definition calculateConfusionMatrix (scores : list double)
    (labels : list bool) (threshold : double) : option confusion :=
  for_range 0 (length scores) (confusion_step scores labels threshold)
    (0, 0, 0, 0)%Z.

(** ** calculateMetrics *)

(** [metrics[key]] read: the stored value, or a value-initialised 0.0. *)
Definition map_at (metrics : gmap string double) (key : string) : double :=
  default d_zero (metrics !! key).

Definition calculateMetrics (confusionMatrix : confusion)
    : option (gmap string double) :=
  let '(tp, fp, tn, fn) := confusionMatrix in
  let metrics : gmap string double := ∅ in
  let metrics := <["true_positives" := of_int tp]> metrics in
  let metrics := <["false_positives" := of_int fp]> metrics in
  let metrics := <["true_negatives" := of_int tn]> metrics in
  let metrics := <["false_negatives" := of_int fn]> metrics in
  tp_fp ← int_add tp fp;
  tp_fp_tn ← int_add tp_fp tn;
  sum ← int_add tp_fp_tn fn;
  let total := of_int sum in
  accuracy ← (if dgt total d_zero
              then tp_tn ← int_add tp tn; Some (of_int tp_tn / total)%D
              else Some d_zero);
  let metrics := <["accuracy" := accuracy]> metrics in
  let metrics :=
    <["precision" :=
        if bool_decide (0 < tp_fp)%Z then (of_int tp / of_int tp_fp)%D
        else d_zero]> metrics in
  tp_fn ← int_add tp fn;
  let metrics :=
    <["recall" :=
        if bool_decide (0 < tp_fn)%Z then (of_int tp / of_int tp_fn)%D
        else d_zero]> metrics in
  tn_fp ← int_add tn fp;
  let metrics :=
    <["specificity" :=
        if bool_decide (0 < tn_fp)%Z then (of_int tn / of_int tn_fp)%D
        else d_zero]> metrics in
  let metrics :=
    <["f1_score" :=
        if dgt (map_at metrics "precision" + map_at metrics "recall")%D d_zero
        then (d_two * map_at metrics "precision" * map_at metrics "recall"
              / (map_at metrics "precision" + map_at metrics "recall"))%D
        else d_zero]> metrics in
  Some metrics.

(** ** evaluateAlgorithm: the default threshold *)

(** The accumulators of the loop that derives a threshold. *)
Definition threshold_step (scores : list double) (labels : list bool)
    (i : nat) (acc : double * double * Z * Z)
    : option (double * double * Z * Z) :=
  let '(avgPositiveScore, avgNegativeScore, posCount, negCount) := acc in
  label ← labels !! i;
  score ← scores !! i;
  if label : bool then
    n ← int_add posCount 1;
    Some ((avgPositiveScore + score)%D, avgNegativeScore, n, negCount)
  else
    n ← int_add negCount 1;
    Some (avgPositiveScore, (avgNegativeScore + score)%D, posCount, n).

(** The block run when [threshold < 0]. *)
Definition default_threshold (scores : list double) (labels : list bool)
    : option double :=
  '(avgPositiveScore, avgNegativeScore, posCount, negCount) ←
    for_range 0 (length scores) (threshold_step scores labels)
      (d_zero, d_zero, 0%Z, 0%Z);
  let avgPositiveScore :=
    if bool_decide (0 < posCount)%Z
    then (avgPositiveScore / of_int posCount)%D else avgPositiveScore in
  let avgNegativeScore :=
    if bool_decide (0 < negCount)%Z
    then (avgNegativeScore / of_int negCount)%D else avgNegativeScore in
  Some ((avgPositiveScore + avgNegativeScore) / d_two)%D.

Section Evaluation.
Context `{Sort : StdSort}.

(** [file_ok] tells whether the output stream could be opened.  The result
    is the returned double together with what was printed and written. *)
Definition saveRocDataToCSV (file_ok : bool)
    (scores : list double) (labels : list bool)
    (algorithm_name dataset_name : string) : option (double * list event) :=
  if bool_decide (length scores ≠ length labels)
     || bool_decide (length scores = 0%nat) then
    Some (d_zero, [Cerr invalid_input_msg])
  else
    score_label_pairs ← make_pairs scores labels;
    let sorted := std_sort score_label_pairs in
    let '(total_positives, total_negatives) := count_totals sorted in
    if deq total_positives d_zero || deq total_negatives d_zero then
      Some (d_zero, [Cerr degenerate_msg])
    else
      let st := roc_sweep total_positives total_negatives sorted in
      auc ← trapezoid_auc (fpr_vec st) (tpr_vec st);
      let filename := roc_filename algorithm_name dataset_name in
      if negb file_ok then
        Some (auc, [Cerr (cannot_open_msg filename)])
      else
        rows ← csv_rows st;
        Some (auc, [CsvFile filename rows; CoutRocSaved filename; CoutAuc auc]).

(** ** evaluateAlgorithm *)

Definition evaluateAlgorithm (file_ok : bool)
    (scores : list double) (labels : list bool)
    (algorithm_name dataset_name : string) (threshold : double)
    : option (gmap string double * list event) :=
  if bool_decide (length scores ≠ length labels)
     || bool_decide (length scores = 0%nat) then
    Some ({["error" := d_one]}, [Cerr invalid_input_msg])
  else
    threshold ← (if dlt threshold d_zero
                 then default_threshold scores labels
                 else Some threshold);
    confMat ← calculateConfusionMatrix scores labels threshold;
    results ← calculateMetrics confMat;
    let results := <["threshold" := threshold]> results in
    '(auc, roc_events) ←
      saveRocDataToCSV file_ok scores labels algorithm_name dataset_name;
    let results := <["auc" := auc]> results in
    Some (results, roc_events ++ [CoutResults results true]).

End Evaluation.

(** ** An instance of the sort interface: insertion sort *)

(** Put [x] before the first element it compares before. *)
Fixpoint insert_desc (x : double * bool) (l : list (double * bool))
    : list (double * bool) :=
  match l with
  | [] => [x]
  | y :: l' => if by_score_desc x y then x :: y :: l' else y :: insert_desc x l'
  end.

Definition insertion_sort (l : list (double * bool)) : list (double * bool) :=
  foldr insert_desc [] l.

(** ** What the specification counts *)

(** A structural loop with a fallible body, the counterpart of [for_range]
    over the elements themselves. *)
Fixpoint fold_opt {A B : Type} (step : B → A → option A) (l : list B)
    (acc : A) : option A :=
  match l with
  | [] => Some acc
  | x :: l' => acc' ← step x acc; fold_opt step l' acc'
  end.

(** The number of samples [(score, label)] that satisfy [P]. *)
Definition tally (P : double → bool → bool) (scores : list double)
    (labels : list bool) : Z :=
  Z.of_nat (length (filter (λ p, P p.1 p.2 = true) (zip scores labels))).

(** Section 4.2: a ratio [num/den], 0 by convention when the denominator is
    not positive. *)
Definition ratio (num den : Z) : Qc :=
  if bool_decide (0 < den)%Z then (Qc_of_Z num / Qc_of_Z den)%Qc else 0%Qc.

(** Section 4.2: [2·precision·recall/(precision+recall)], 0 when the sum is
    not positive. *)
Definition f1_of (precision recall : Qc) : Qc :=
  if bool_decide (0 < precision + recall)%Qc
  then (2 * precision * recall / (precision + recall))%Qc else 0%Qc.

(** Section 4.2: the record of metrics of the counts (TP, FP, TN, FN). *)
Definition metrics_record (tp fp tn fn : Z) : gmap string double :=
  let precision := ratio tp (tp + fp) in
  let recall := ratio tp (tp + fn) in
  <["f1_score" := Fin (f1_of precision recall)]> $
  <["specificity" := Fin (ratio tn (tn + fp))]> $
  <["recall" := Fin recall]> $
  <["precision" := Fin precision]> $
  <["accuracy" := Fin (ratio (tp + tn) (tp + fp + tn + fn))]> $
  <["false_negatives" := of_int fn]> $
  <["true_negatives" := of_int tn]> $
  <["false_positives" := of_int fp]> $
  <["true_positives" := of_int tp]> ∅.

(** The keys of the derived ratios. *)
Definition ratio_keys : list string :=
  ["accuracy"; "precision"; "recall"; "specificity"; "f1_score"].

(** ** The ROC curve, point by point *)

(** The points the sweep pushes while it walks [l], as (threshold, negatives
    seen, positives seen), when [tp] positives and [fp] negatives were seen
    before [l] and the previous score is [prev]: one point each time the
    score changes, taken before the sample is counted, and the point pushed
    after the loop. *)
Fixpoint walk (prev : double) (tp fp : Z) (l : list (double * bool))
    : list (double * Z * Z) :=
  match l with
  | [] => [(prev, fp, tp)]
  | (score, label) :: l' =>
      let tp' := if label then (tp + 1)%Z else tp in
      let fp' := if label then fp else (fp + 1)%Z in
      if dne score prev then (prev, fp, tp) :: walk score tp' fp' l'
      else walk prev tp' fp' l'
  end.

(** [count / total] for a non-zero total. *)
Definition rate (count total : Z) : double :=
  Fin (Qc_of_Z count / Qc_of_Z total).

Definition to_point (P N : Z) (c : double * Z * Z) : roc_point :=
  RocPoint c.1.1 (rate c.1.2 N) (rate c.2 P).

(** The number of samples with the given label. *)
Definition count_label (label : bool) (pairs : list (double * bool)) : Z :=
  Z.of_nat (length (filter (λ p, p.2 = label) pairs)).

(** Section 4.3, steps 3 and 4: the curve of a sorted list of samples. *)
Definition curve (sorted : list (double * bool)) : list roc_point :=
  RocPoint DBL_MAX d_zero d_zero
  :: map (to_point (count_label true sorted) (count_label false sorted))
         (walk DBL_MAX 0 0 sorted).

(** Section 4.3, step 5: the sum of the trapezoids between consecutive
    points. *)
Fixpoint trapezoid_sum (points : list roc_point) : double :=
  match points with
  | p :: (q :: _) as rest =>
      ((fpr q - fpr p) * (tpr q + tpr p) / d_two + trapezoid_sum rest)%D
  | _ => d_zero
  end.

(** A point whose two rates are finite. *)
Definition finite_point (c : double * Qc * Qc) : roc_point :=
  RocPoint c.1.1 (Fin c.1.2) (Fin c.2).

(** The trapezoid sum of points (fpr, tpr) over the rationals. *)
Fixpoint trapezoid_Qc (points : list (Qc * Qc)) : Qc :=
  match points with
  | p :: (q :: _) as rest =>
      ((q.1 - p.1) * (q.2 + p.2) / 2 + trapezoid_Qc rest)%Qc
  | _ => 0%Qc
  end.

(** The curve with its rates as rationals. *)
Definition curve_Qc (sorted : list (double * bool)) : list (double * Qc * Qc) :=
  (DBL_MAX, 0%Qc, 0%Qc)
  :: map (λ c : double * Z * Z,
            (c.1.1,
             (Qc_of_Z c.1.2 / Qc_of_Z (count_label false sorted))%Qc,
             (Qc_of_Z c.2 / Qc_of_Z (count_label true sorted))%Qc))
         (walk DBL_MAX 0 0 sorted).

(** Section 4.4: the scores of the samples of one class, in input order. *)
Definition class_scores (label : bool) (scores : list double)
    (labels : list bool) : list double :=
  (filter (λ p, p.2 = label) (zip scores labels)).*1.

(** Section 4.4: the mean score of a class; an empty class contributes 0.0. *)
Definition class_mean (label : bool) (scores : list double)
    (labels : list bool) : double :=
  let class := class_scores label scores labels in
  if bool_decide (class = []) then d_zero
  else (foldl dadd d_zero class / of_int (Z.of_nat (length class)))%D.

(** Section 4.4: the midpoint of the two class means. *)
Definition midpoint_threshold (scores : list double) (labels : list bool)
    : double :=
  ((class_mean true scores labels + class_mean false scores labels)
   / d_two)%D.

(** The threshold the orchestrator classifies with: the given one, or the
    midpoint when the given one is negative. *)
Definition resolved_threshold (scores : list double) (labels : list bool)
    (threshold : double) : double :=
  if dlt threshold d_zero then midpoint_threshold scores labels else threshold.

(** ** Auxiliary notions for the curve *)

(** The points of the curve as counts: the point pushed before the loop,
    then those of the walk. *)
Definition counts (sorted : list (double * bool)) : list (double * Z * Z) :=
  (DBL_MAX, 0%Z, 0%Z) :: walk DBL_MAX 0 0 sorted.

(** The counts of a point do not exceed those of the next one. *)
Definition count_up (c c' : double * Z * Z) : Prop :=
  (c.1.2 ≤ c'.1.2)%Z ∧ (c.2 ≤ c'.2)%Z.

(** The score the sweep holds in [prev_score] after [l]. *)
Definition last_prev (prev : double) (l : list (double * bool)) : double :=
  foldl (λ prev p, if dne p.1 prev then p.1 else prev) prev l.

(** The two rates of a point given as counts. *)
Definition rates (P N : Z) (c : double * Z * Z) : Qc * Qc :=
  ((Qc_of_Z c.1.2 / Qc_of_Z N)%Qc, (Qc_of_Z c.2 / Qc_of_Z P)%Qc).

(** Both coordinates do not decrease from one point to the next. *)
Definition step_up (p q : Qc * Qc) : Prop := (p.1 ≤ q.1)%Qc ∧ (p.2 ≤ q.2)%Qc.

Definition in_unit_square (p : Qc * Qc) : Prop :=
  ((0 ≤ p.1)%Qc ∧ (p.1 ≤ 1)%Qc) ∧ ((0 ≤ p.2)%Qc ∧ (p.2 ≤ 1)%Qc).

(** ** The inputs of the examples *)

(** The scores and labels of the usage example in the source. *)
Definition example1_scores : list double :=
  map (λ q, Fin (Q2Qc q))
    [9 # 10; 8 # 10; 7 # 10; 6 # 10; 55 # 100; 54 # 100; 53 # 100; 52 # 100;
     51 # 100; 4 # 10]%Q.

Definition example1_labels : list bool :=
  [true; true; false; true; true; false; false; false; true; false].

(** Three samples with the score 1.0, and the threshold 0.5. *)
Definition example2_scores : list double := [d_one; d_one; d_one].
Definition example2_labels : list bool := [true; false; true].
Definition half : double := Fin (Q2Qc (1 # 2)).

(** The same scores with a single class, and what the orchestrator returns
    for them. *)
Definition example4_labels : list bool := [true; true; true].

Definition example4_results : gmap string double :=
  <["auc" := d_zero]> (<["threshold" := half]> (metrics_record 3 0 0 0)).

(** The rows written for the second example. *)
Definition example2_roc_rows : list roc_point :=
  [RocPoint DBL_MAX d_zero d_zero; RocPoint DBL_MAX d_zero d_zero;
   RocPoint d_one d_one d_one].

(** ** Console output, item by item *)

(** What is sent to a stream with [<<]: a string, an integer, a double
    (how its digits are formatted is not modelled) or [endl]. *)
Inductive item : Type :=
| Str (s : string)
| Num (n : Z)
| Dbl (d : double)
| Endl.

Global Instance item_eq_dec : EqDecision item.
Proof. solve_decision. Defined.

Inductive channel : Type := StdErr | StdOut.

Global Instance channel_eq_dec : EqDecision channel.
Proof. solve_decision. Defined.

(** ** readCSV *)

Definition newline : ascii := "010"%char.
Definition comma : ascii := ","%char.

(** What [std::getline(stream, x, delim)] extracts from the unread text:
    the characters before the first [delim], and the text left after that
    [delim], which is dropped. *)
Fixpoint extract_until (delim : ascii) (unread : string) : string * string :=
  match unread with
  | EmptyString => (EmptyString, EmptyString)
  | String c rest =>
      if Ascii.eqb c delim then (EmptyString, rest)
      else let '(x, rest') := extract_until delim rest in (String c x, rest')
  end.

(** [std::getline]: it fails when nothing is left to read, and succeeds
    otherwise, also on an empty segment and on a last segment that no
    [delim] closes. *)
Definition getline (delim : ascii) (unread : string)
    : option (string * string) :=
  match unread with
  | EmptyString => None
  | String _ _ => Some (extract_until delim unread)
  end.

(** [while (getline(stream, x, delim)) acc = body(x, acc)].  Each
    successful read consumes at least one character, so the length of the
    unread text bounds the number of iterations; [fuel] is that bound. *)
Fixpoint while_getline {A : Type} (fuel : nat) (delim : ascii)
    (unread : string) (body : string → A → A) (acc : A) : A :=
  match fuel with
  | O => acc
  | S fuel' =>
      match getline delim unread with
      | None => acc
      | Some (x, rest) => while_getline fuel' delim rest body (body x acc)
      end
  end.

(** The inner loop of readCSV: the cells of one line. *)
Definition parse_line (line : string) : list string :=
  while_getline (String.length line) comma line (λ cell row, row ++ [cell]) [].

(** The body of the outer loop: parse the line, keep the row unless it is
    empty. *)
Definition push_line (line : string) (data : list (list string))
    : list (list string) :=
  match parse_line line with
  | [] => data
  | row => data ++ [row]
  end.

(** The part of readCSV between opening and closing the file, on the text
    of the file. *)
Definition read_table (headerRow : bool) (file : string) : list (list string) :=
  let file :=
    if headerRow then
      match getline newline file with
      | Some (_, rest) => rest
      | None => file
      end
    else file in
  while_getline (String.length file) newline file push_line [].

(** [fs filename] is the text of the file, [None] when it cannot be opened.
    The result is the table together with the line printed. *)
Definition readCSV (fs : string → option string) (headerRow : bool)
    (filename : string) : list (list string) * list (channel * list item) :=
  match fs filename with
  | None =>
      ([], [(StdErr, [Str "Error: Could not open file "; Str filename; Endl])])
  | Some file =>
      let data := read_table headerRow file in
      match data with
      | [] =>
          (data, [(StdErr, [Str "Warning: No data found in file ";
                            Str filename; Endl])])
      | _ =>
          (data, [(StdOut, [Str "Successfully read ";
                            Num (Z.of_nat (length data));
                            Str " samples from "; Str filename; Endl])])
      end
  end.

(** The segments of a text cut at each [delim]; a last segment that is
    empty is no segment. *)
Fixpoint split_on (delim : ascii) (text : string) : list string :=
  match text with
  | EmptyString => []
  | String c rest =>
      if Ascii.eqb c delim then EmptyString :: split_on delim rest
      else match split_on delim rest with
           | [] => [String c EmptyString]
           | x :: segments => String c x :: segments
           end
  end.

(** The segments written one after the other with [sep] between them. *)
Fixpoint join (sep : ascii) (segments : list string) : string :=
  match segments with
  | [] => EmptyString
  | [x] => x
  | x :: rest => x +:+ String sep (join sep rest)
  end.

(** [c] occurs in [s]. *)
Fixpoint occurs (c : ascii) (s : string) : bool :=
  match s with
  | EmptyString => false
  | String c' s' => Ascii.eqb c' c || occurs c s'
  end.

(** The rows of a list of lines: the cells of each line, the lines without
    cells left out. *)
Definition nonempty_rows (lines : list string) : list (list string) :=
  filter (λ row, row ≠ []) (split_on comma <$> lines).

(** A row that a CSV text can hold as it is: no cell contains a comma or
    a newline, the row is not empty and does not end with an empty cell. *)
Definition plain_row (row : list string) : bool :=
  forallb (λ cell, negb (occurs comma cell) && negb (occurs newline cell)) row
  && match last row with
     | Some cell => negb (String.eqb cell EmptyString)
     | None => false
     end.

(** The CSV text of a table: cells joined by commas, rows by newlines. *)
Definition csv_text (table : list (list string)) : string :=
  join newline (map (join comma) table).

(** ** printEvaluationResults *)

(** [static_cast<int>(x)]: the fractional part is discarded; there is no
    defined result when [x] is not finite or the truncated value is not
    representable. *)
Definition to_int (x : double) : option Z :=
  match x with
  | Fin q =>
      let z := Z.quot (Qnum (this q)) (Zpos (Qden (this q))) in
      if bool_decide (INT_MIN ≤ z ≤ INT_MAX)%Z then Some z else None
  | _ => None
  end.

Definition nl : string := String newline EmptyString.
Definition tab : string := String "009"%char EmptyString.

Definition results_header : string :=
  nl +:+ "===== Algorithm Evaluation Results =====" +:+ nl.
Definition confusion_header : string := nl +:+ "Confusion Matrix:" +:+ nl.
Definition metrics_header : string := nl +:+ "Metrics:" +:+ nl.
Definition results_footer : string :=
  "=======================================" +:+ nl.

Definition metricsToShow : list string :=
  ["accuracy"; "precision"; "recall"; "specificity"; "f1_score"].

(** [results.count(key)] as a condition. *)
Definition count_key (results : gmap string double) (key : string) : bool :=
  bool_decide (is_Some (results !! key)).

(** The body of the loop over [metricsToShow].  [results.at(metric)] is
    [results !! metric]: [None] is the exception it throws on a missing
    key. *)
Definition print_metric (results : gmap string double)
    (showPercentages : bool) (metric : string) (out : list item)
    : option (list item) :=
  if count_key results metric then
    let out := out ++ [Str metric; Str ": "] in
    out ← (if showPercentages && bool_decide (metric ≠ "auc") then
             value ← results !! metric;
             Some (out ++ [Dbl (value * of_int 100)%D; Str "%"])
           else
             value ← results !! metric;
             Some (out ++ [Dbl value]));
    Some (out ++ [Endl])
  else Some out.

(** What printEvaluationResults sends to [cout]; [None] when a
    [static_cast<int>] has no defined result. *)
Definition printEvaluationResults (results : gmap string double)
    (showPercentages : bool) : option (list item) :=
  let out := [Str results_header] in
  out ← (if count_key results "threshold" then
           threshold ← results !! "threshold";
           Some (out ++ [Str "Threshold: "; Dbl threshold; Endl])
         else Some out);
  out ← (if count_key results "true_positives"
            && count_key results "false_positives"
            && count_key results "true_negatives"
            && count_key results "false_negatives" then
           let out := out ++ [Str confusion_header] in
           tp ← results !! "true_positives" ≫= to_int;
           let out := out ++ [Str "TP: "; Num tp; Str tab] in
           fp ← results !! "false_positives" ≫= to_int;
           let out := out ++ [Str "FP: "; Num fp; Str nl] in
           fn ← results !! "false_negatives" ≫= to_int;
           let out := out ++ [Str "FN: "; Num fn; Str tab] in
           tn ← results !! "true_negatives" ≫= to_int;
           Some (out ++ [Str "TN: "; Num tn; Str nl])
         else Some out);
  let out := out ++ [Str metrics_header] in
  out ← foldl (λ out metric,
                 out ← out; print_metric results showPercentages metric out)
          (Some out) metricsToShow;
  Some (out ++ [Str results_footer]).

(** The keys printEvaluationResults looks up. *)
Definition printed_keys : list string :=
  ["threshold"; "true_positives"; "false_positives"; "true_negatives";
   "false_negatives"] ++ metricsToShow.

(** ** normalizeFeature, of the LOF detectors in [src/algorithms] *)

(** [*min_element(v.begin(), v.end())]: the first smallest element under
    [<]; dereferencing the result on an empty vector has no defined
    behaviour. *)
Definition min_element (v : list double) : option double :=
  match v with
  | [] => None
  | first :: rest =>
      Some (foldl (λ smallest val, if dlt val smallest then val else smallest)
              first rest)
  end.

(** [*max_element(v.begin(), v.end())]: the first largest element. *)
Definition max_element (v : list double) : option double :=
  match v with
  | [] => None
  | first :: rest =>
      Some (foldl (λ largest val, if dlt largest val then val else largest)
              first rest)
  end.

Definition normalizeFeature (feature : list double) : option (list double) :=
  minVal ← min_element feature;
  maxVal ← max_element feature;
  Some (foldl (λ normalized val,
                 normalized ++
                 [if dgt (maxVal - minVal)%D d_zero
                  then ((val - minVal) / (maxVal - minVal))%D
                  else d_zero])
          [] feature).

(** The value normalizeFeature stores for [v], from the extremes [m] and
    [M]. *)
Definition scaled (m M v : Qc) : Qc :=
  if bool_decide (m < M)%Qc then ((v - m) / (M - m))%Qc else 0%Qc.

(** ** What a row of the ROC table counts *)

(** The number of samples of class [label] whose score is at least [t]. *)
Definition count_at_least (label : bool) (t : double)
    (pairs : list (double * bool)) : Z :=
  Z.of_nat (length (filter (λ p, p.2 = label ∧ dle t p.1 = true) pairs)).

(** Every positive sample has a greater score than every negative one. *)
Definition separated (pairs : list (double * bool)) : Prop :=
  Forall (λ p, Forall (λ q, p.2 = true → q.2 = false → dlt q.1 p.1 = true)
                 pairs) pairs.

(** A sample with its label changed to the other class. *)
Definition flip_label (p : double * bool) : double * bool := (p.1, negb p.2).

(** A sample with its score changed by [f]. *)
Definition rescale (f : double → double) (p : double * bool) : double * bool :=
  (f p.1, p.2).

(** A file with a header line, two rows and a closing newline. *)
Definition example_table : list (list string) := [["1"; "0.5"]; ["2"; "0.25"]].
Definition example_csv : string :=
  "id,score" +:+ String newline (csv_text example_table +:+ String newline EmptyString).
Definition example_fs (text : string) : string → option string :=
  λ filename, if String.eqb filename "data.csv" then Some text else None.

(** The scores of the usage example, normalized. *)
Definition example_normalized : list double :=
  default [] (normalizeFeature example1_scores).

(** Three samples ranked without a fault. *)
Definition example5_scores : list double :=
  map (λ q, Fin (Q2Qc q)) [9 # 10; 8 # 10; 4 # 10]%Q.
Definition example5_labels : list bool := [true; true; false].

(** The rescaling of the usage example's scores from [0.4, 0.9] to [0, 1]. *)
Definition example_rescale (s : double) : double :=
  ((s - Fin (Q2Qc (4 # 10))) / Fin (Q2Qc (5 # 10)))%D.

(** * Properties *)

(** ** Rational comparisons *)

Lemma Qc_ltb_lt (a b : Qc) : Qc_ltb a b = true ↔ (a < b)%Qc.
Proof.
  unfold Qc_ltb. rewrite Qclt_alt. destruct (a ?= b)%Qc; split; congruence.
Qed.

Lemma Qc_eqb_eq (a b : Qc) : Qc_eqb a b = true ↔ a = b.
Proof.
  unfold Qc_eqb. rewrite Qceq_alt. destruct (a ?= b)%Qc; split; congruence.
Qed.

Lemma Qc_ltb_irrefl (a : Qc) : Qc_ltb a a = false.
Proof.
  apply not_true_is_false. rewrite Qc_ltb_lt. apply (irreflexivity Qclt).
Qed.

Lemma Qc_eqb_refl (a : Qc) : Qc_eqb a a = true.
Proof. by apply Qc_eqb_eq. Qed.

Lemma Qc_of_Z_pos (n : Z) : (0 < n)%Z → (0 < Qc_of_Z n)%Qc.
Proof. intros H%Z2Qc_inj_lt. by rewrite Z2Qc_inj_0 in H. Qed.

Lemma Qc_of_Z_nonneg (n : Z) : (0 ≤ n)%Z → (0 ≤ Qc_of_Z n)%Qc.
Proof. intros H%Z2Qc_inj_le. by rewrite Z2Qc_inj_0 in H. Qed.

Lemma Qc_of_Z_eqb_0 (n : Z) : Qc_eqb (Qc_of_Z n) 0 = bool_decide (n = 0%Z).
Proof.
  case_bool_decide as Hn.
  - subst. by rewrite Z2Qc_inj_0, Qc_eqb_refl.
  - apply not_true_is_false. rewrite Qc_eqb_eq, <- Z2Qc_inj_0.
    by rewrite Z2Qc_inj_iff.
Qed.

Lemma Qc_of_Z_ltb_0 (n : Z) : Qc_ltb 0 (Qc_of_Z n) = bool_decide (0 < n)%Z.
Proof.
  case_bool_decide as Hn.
  - apply Qc_ltb_lt. by apply Qc_of_Z_pos.
  - apply not_true_is_false. rewrite Qc_ltb_lt, <- Z2Qc_inj_0.
    by rewrite <- Z2Qc_inj_lt.
Qed.

(** ** Doubles *)

Lemma dgt_irrefl (x : double) : dgt x x = false.
Proof. destruct x; try done. apply Qc_ltb_irrefl. Qed.

Lemma deq_not_dgt (x y : double) : deq x y = true → dgt x y = false.
Proof.
  destruct x, y; try done. simpl. intros ->%Qc_eqb_eq. apply Qc_ltb_irrefl.
Qed.

Lemma of_int_succ (n : Z) : (of_int n + d_one)%D = of_int (n + 1).
Proof. unfold of_int, d_one. simpl. by rewrite Z2Qc_inj_add, Z2Qc_inj_1. Qed.

Lemma of_int_0 : of_int 0 = d_zero.
Proof. unfold of_int, d_zero. by rewrite Z2Qc_inj_0. Qed.

Lemma dgt_of_int_0 (n : Z) : dgt (of_int n) d_zero = bool_decide (0 < n)%Z.
Proof. apply Qc_of_Z_ltb_0. Qed.

Lemma deq_of_int_0 (n : Z) : deq (of_int n) d_zero = bool_decide (n = 0%Z).
Proof. apply Qc_of_Z_eqb_0. Qed.

(** ** Loops *)

(** Split an equation between tuples into its components. *)
Ltac tuple_eq :=
  repeat match goal with
         | |- Some _ = Some _ => f_equal
         | |- [_] = [_] => f_equal
         | |- (_, _) = (_, _) => f_equal
         end.

Lemma int_add_Some (a b : Z) :
  (INT_MIN ≤ a + b ≤ INT_MAX)%Z → int_add a b = Some (a + b)%Z.
Proof. intros. unfold int_add. by rewrite bool_decide_eq_true_2. Qed.

(** An indexed loop whose body only reads element [i] of a list is the
    structural loop over that list. *)
Lemma for_range_fold_opt {A B : Type} (body : nat → A → option A)
    (step : B → A → option A) (l : list B) (lo : nat) (acc : A) :
  (∀ k x a, l !! k = Some x → body (lo + k)%nat a = step x a) →
  for_range lo (length l) body acc = fold_opt step l acc.
Proof.
  revert lo acc. induction l as [|x l IH]; intros lo acc Hbody; [done|].
  simpl. rewrite <- (Hbody 0%nat x acc eq_refl), Nat.add_0_r.
  destruct (body lo acc) as [acc'|]; [simpl|done].
  apply IH. intros k y a Hk.
  rewrite <- (Hbody (S k) y a Hk). f_equal. lia.
Qed.

Lemma for_range_ext {A : Type} (f g : nat → A → option A) (lo n : nat) (acc : A) :
  (∀ i a, (lo ≤ i < lo + n)%nat → f i a = g i a) →
  for_range lo n f acc = for_range lo n g acc.
Proof.
  revert lo acc. induction n as [|n IH]; intros lo acc Hfg; [done|].
  simpl. rewrite Hfg by lia. destruct (g lo acc); [simpl|done].
  apply IH. intros. apply Hfg. lia.
Qed.

(** ** The confusion matrix *)

Lemma zip_lookup_Some {A B : Type} (l : list A) (k : list B) (i : nat) x y :
  zip l k !! i = Some (x, y) ↔ l !! i = Some x ∧ k !! i = Some y.
Proof.
  rewrite lookup_zip_with_Some. split.
  - intros (x' & y' & [= -> ->] & ? & ?). done.
  - intros [? ?]. eauto.
Qed.

Lemma indexed_body_zip {A B C : Type} (l : list A) (k : list B)
    (f : A → B → C → option C) (i : nat) (x : A) (y : B) (c : C) :
  zip l k !! i = Some (x, y) →
  (a ← l !! i; b ← k !! i; f a b c) = f x y c.
Proof. intros [-> ->]%zip_lookup_Some. done. Qed.

Lemma calculateConfusionMatrix_fold (scores : list double) (labels : list bool)
    (threshold : double) :
  length scores = length labels →
  calculateConfusionMatrix scores labels threshold =
  fold_opt (λ p, confusion_tally threshold p.1 p.2) (zip scores labels)
    (0, 0, 0, 0)%Z.
Proof.
  intros Hlen. unfold calculateConfusionMatrix.
  replace (length scores) with (length (zip scores labels))
    by (by rewrite length_zip_with_l_eq).
  apply for_range_fold_opt. intros k [s b] c Hk. simpl.
  unfold confusion_step. by apply (indexed_body_zip scores labels).
Qed.

(** The number of elements of [l] that satisfy [P]. *)
Local Abbreviation cnt P l := (Z.of_nat (length (filter P l))).

Lemma cnt_cons {A : Type} (P : A → Prop) `{∀ x, Decision (P x)} (x : A) (l : list A) :
  cnt P (x :: l) = ((if decide (P x) then 1 else 0) + cnt P l)%Z.
Proof. rewrite filter_cons. destruct (decide (P x)); simpl; lia. Qed.

Lemma confusion_fold_counts (threshold : double) (l : list (double * bool))
    (tp fp tn fn : Z) :
  (0 ≤ tp)%Z → (0 ≤ fp)%Z → (0 ≤ tn)%Z → (0 ≤ fn)%Z →
  (tp + fp + tn + fn + Z.of_nat (length l) ≤ INT_MAX)%Z →
  fold_opt (λ p, confusion_tally threshold p.1 p.2) l (tp, fp, tn, fn) =
  Some ((tp + cnt (λ p, p.2 && dgt p.1 threshold = true) l)%Z,
        (fp + cnt (λ p, negb p.2 && dgt p.1 threshold = true) l)%Z,
        (tn + cnt (λ p, negb p.2 && negb (dgt p.1 threshold) = true) l)%Z,
        (fn + cnt (λ p, p.2 && negb (dgt p.1 threshold) = true) l)%Z).
Proof.
  revert tp fp tn fn. induction l as [|[s b] l IH]; intros tp fp tn fn ? ? ? ? Hsum.
  - simpl. by rewrite !Z.add_0_r.
  - rewrite !cnt_cons. cbn [fold_opt fst snd confusion_tally].
    cbn [fst snd].
    rewrite length_cons in Hsum. unfold INT_MAX in Hsum.
    destruct b, (dgt s threshold); cbn [andb negb];
      (rewrite int_add_Some by (unfold INT_MIN, INT_MAX; lia));
      cbn [mbind option_bind]; rewrite IH by (unfold INT_MAX; lia);
      repeat case_decide; try done;
      tuple_eq; lia.
Qed.

Lemma cnt_partition (threshold : double) (l : list (double * bool)) :
  (cnt (λ p, p.2 && dgt p.1 threshold = true) l
   + cnt (λ p, negb p.2 && dgt p.1 threshold = true) l
   + cnt (λ p, negb p.2 && negb (dgt p.1 threshold) = true) l
   + cnt (λ p, p.2 && negb (dgt p.1 threshold) = true) l)%Z
  = Z.of_nat (length l).
Proof.
  induction l as [|[s b] l IH]; [done|].
  rewrite !cnt_cons, length_cons. cbn [fst snd].
  destruct b, (dgt s threshold); cbn [andb negb];
    repeat case_decide; try done; lia.
Qed.

Lemma calculateConfusionMatrix_counts (scores : list double)
    (labels : list bool) (threshold : double) :
  length scores = length labels →
  (Z.of_nat (length scores) ≤ INT_MAX)%Z →
  calculateConfusionMatrix scores labels threshold =
  Some (tally (λ s l, l && dgt s threshold) scores labels,
        tally (λ s l, negb l && dgt s threshold) scores labels,
        tally (λ s l, negb l && negb (dgt s threshold)) scores labels,
        tally (λ s l, l && negb (dgt s threshold)) scores labels).
Proof.
  intros Hlen Hmax. rewrite calculateConfusionMatrix_fold by done.
  rewrite confusion_fold_counts; [done|done..|].
  rewrite length_zip_with_l_eq by done. lia.
Qed.

(** C5: for scores and labels of equal length (no more than INT_MAX of
    them, so that the int counters are defined), the four counts are the
    numbers of samples with label true and score > threshold (TP), label
    false and score > threshold (FP), label false and not score > threshold
    (TN), label true and not score > threshold (FN): a sample is predicted
    positive exactly when its score is strictly above the threshold.  In
    particular a sample whose score equals the threshold is tallied as a
    true negative or a false negative. *)
Theorem confusion_matrix_strict_threshold (scores : list double)
    (labels : list bool) (threshold : double) :
  length scores = length labels →
  (Z.of_nat (length scores) ≤ INT_MAX)%Z →
  calculateConfusionMatrix scores labels threshold =
    Some (tally (λ s l, l && dgt s threshold) scores labels,
          tally (λ s l, negb l && dgt s threshold) scores labels,
          tally (λ s l, negb l && negb (dgt s threshold)) scores labels,
          tally (λ s l, l && negb (dgt s threshold)) scores labels)
  ∧ (∀ s l, (s, l) ∈ zip scores labels → deq s threshold = true →
       dgt s threshold = false
       ∧ calculateConfusionMatrix [s] [l] threshold =
           Some (0, 0, if l then 0 else 1, if l then 1 else 0)%Z).
Proof.
  intros Hlen Hmax. split; [by apply calculateConfusionMatrix_counts|].
  intros s l _ Heq. pose proof (deq_not_dgt _ _ Heq) as Hgt.
  split; [done|].
  unfold calculateConfusionMatrix. simpl. unfold confusion_step. simpl.
  rewrite Hgt. by destruct l.
Qed.

Lemma confusion_matrix_counts_total (scores : list double)
    (labels : list bool) (threshold : double) :
  length scores = length labels →
  (Z.of_nat (length scores) ≤ INT_MAX)%Z →
  ∃ tp fp tn fn : Z,
    calculateConfusionMatrix scores labels threshold = Some (tp, fp, tn, fn)
    ∧ (0 ≤ tp)%Z ∧ (0 ≤ fp)%Z ∧ (0 ≤ tn)%Z ∧ (0 ≤ fn)%Z
    ∧ (tp + fp + tn + fn)%Z = Z.of_nat (length scores).
Proof.
  intros Hlen Hmax. eexists _, _, _, _.
  split; [by apply calculateConfusionMatrix_counts|].
  unfold tally. repeat split; try lia.
  rewrite cnt_partition. by rewrite length_zip_with_l_eq.
Qed.

(** C6: for scores and labels of equal length n (at most INT_MAX), the four
    counts are non-negative and add up to n. *)
Theorem confusion_matrix_total (scores : list double) (labels : list bool)
    (threshold : double) :
  length scores = length labels →
  (Z.of_nat (length scores) ≤ INT_MAX)%Z →
  ∃ tp fp tn fn : Z,
    calculateConfusionMatrix scores labels threshold = Some (tp, fp, tn, fn)
    ∧ (0 ≤ tp)%Z ∧ (0 ≤ fp)%Z ∧ (0 ≤ tn)%Z ∧ (0 ≤ fn)%Z
    ∧ (tp + fp + tn + fn)%Z = Z.of_nat (length scores).
Proof.
  intros Hlen Hmax. by apply confusion_matrix_counts_total.
Qed.

(** ** The metrics *)

Lemma Qc_div_unit (a b : Qc) : (0 ≤ a)%Qc → (a ≤ b)%Qc → (0 < b)%Qc →
  (0 ≤ a / b)%Qc ∧ (a / b ≤ 1)%Qc.
Proof.
  intros Ha Hab Hb. pose proof (Qcinv_pos b Hb) as Hinv.
  assert (b ≠ 0%Qc) as Hb0 by (intros ->; by apply (irreflexivity Qclt 0%Qc)).
  unfold Qcdiv. split.
  - apply Qcmult_nonneg_nonneg; [done|by apply Qclt_le_weak].
  - rewrite <- (Qcmult_inv_r b Hb0).
    apply Qcmult_le_mono_nonneg_r; [by apply Qclt_le_weak|done].
Qed.

Lemma ratio_unit (num den : Z) : (0 ≤ num ≤ den)%Z →
  (0 ≤ ratio num den)%Qc ∧ (ratio num den ≤ 1)%Qc.
Proof.
  intros [Hn Hd]. unfold ratio. case_bool_decide as Hpos.
  - apply Qc_div_unit.
    + by apply Qc_of_Z_nonneg.
    + by rewrite <- Z2Qc_inj_le.
    + by apply Qc_of_Z_pos.
  - split; [done|]. by apply Qclt_le_weak.
Qed.

Lemma f1_of_unit (p r : Qc) :
  (0 ≤ p)%Qc → (p ≤ 1)%Qc → (0 ≤ r)%Qc → (r ≤ 1)%Qc →
  (0 ≤ f1_of p r)%Qc ∧ (f1_of p r ≤ 1)%Qc.
Proof.
  intros Hp0 Hp1 Hr0 Hr1. unfold f1_of. case_bool_decide as Hpos.
  - apply Qc_div_unit; [| |done].
    + repeat apply Qcmult_nonneg_nonneg; try done.
    + assert (p * r ≤ p)%Qc as H1.
      { rewrite <- (Qcmult_1_r p) at 2. by apply Qcmult_le_mono_nonneg_l. }
      assert (p * r ≤ r)%Qc as H2.
      { rewrite <- (Qcmult_1_l r) at 2. by apply Qcmult_le_mono_nonneg_r. }
      replace (2 * p * r)%Qc with (p * r + p * r)%Qc by ring.
      by apply Qcplus_le_compat.
  - split; [done|]. by apply Qclt_le_weak.
Qed.

Lemma ddiv_of_int_ratio (num den : Z) :
  (if bool_decide (0 < den)%Z then (of_int num / of_int den)%D else d_zero)
  = Fin (ratio num den).
Proof.
  unfold ratio. case_bool_decide as Hpos; [|done].
  unfold of_int. simpl. rewrite Qc_of_Z_eqb_0.
  by rewrite bool_decide_eq_false_2 by lia.
Qed.

Lemma f1_code_spec (p r : Qc) :
  (if dgt (Fin p + Fin r)%D d_zero
   then (d_two * Fin p * Fin r / (Fin p + Fin r))%D else d_zero)
  = Fin (f1_of p r).
Proof.
  unfold f1_of, d_two, d_zero, dgt. simpl.
  destruct (Qc_ltb 0 (p + r)) eqn:Hlt.
  - apply Qc_ltb_lt in Hlt. rewrite bool_decide_eq_true_2 by done.
    destruct (Qc_eqb (p + r) 0) eqn:Heq.
    + apply Qc_eqb_eq in Heq. rewrite Heq in Hlt.
      by apply (irreflexivity Qclt) in Hlt.
    + by rewrite Z2Qc_inj_2.
  - rewrite bool_decide_eq_false_2; [done|].
    intros H%Qc_ltb_lt. congruence.
Qed.

Lemma map_at_insert (m : gmap string double) (k : string) (v : double) :
  map_at (<[k:=v]> m) k = v.
Proof. unfold map_at. by rewrite lookup_insert_eq. Qed.

Lemma map_at_insert_ne (m : gmap string double) (k k' : string) (v : double) :
  k ≠ k' → map_at (<[k:=v]> m) k' = map_at m k'.
Proof. intros. unfold map_at. by rewrite lookup_insert_ne. Qed.

Lemma calculateMetrics_record (tp fp tn fn : Z) :
  (0 ≤ tp)%Z → (0 ≤ fp)%Z → (0 ≤ tn)%Z → (0 ≤ fn)%Z →
  (tp + fp + tn + fn ≤ INT_MAX)%Z →
  calculateMetrics (tp, fp, tn, fn) = Some (metrics_record tp fp tn fn).
Proof.
  intros ? ? ? ? Hsum. unfold INT_MAX in Hsum.
  assert (∀ a b, (0 ≤ a)%Z → (0 ≤ b)%Z → (a + b ≤ tp + fp + tn + fn)%Z →
            int_add a b = Some (a + b)%Z) as Hadd.
  { intros. apply int_add_Some. unfold INT_MIN, INT_MAX. lia. }
  unfold calculateMetrics, metrics_record.
  rewrite (Hadd tp fp) by lia. cbn [mbind option_bind].
  rewrite (Hadd (tp + fp)%Z tn) by lia. cbn [mbind option_bind].
  rewrite (Hadd (tp + fp + tn)%Z fn) by lia. cbn [mbind option_bind].
  rewrite (Hadd tp tn), (Hadd tp fn), (Hadd tn fp) by lia.
  rewrite dgt_of_int_0.
  replace (if bool_decide (0 < tp + fp + tn + fn)%Z
           then tp_tn ← Some (tp + tn)%Z;
                Some (of_int tp_tn / of_int (tp + fp + tn + fn))%D
           else Some d_zero)
    with (Some (Fin (ratio (tp + tn) (tp + fp + tn + fn))))
    by (rewrite <- ddiv_of_int_ratio; by case_bool_decide).
  cbn [mbind option_bind].
  rewrite !ddiv_of_int_ratio.
  rewrite (map_at_insert_ne _ "specificity" "precision") by done.
  rewrite (map_at_insert_ne _ "recall" "precision") by done.
  rewrite (map_at_insert_ne _ "specificity" "recall") by done.
  rewrite !map_at_insert.
  by rewrite f1_code_spec.
Qed.

Lemma metrics_record_finite (tp fp tn fn : Z) :
  map_Forall (λ _ v, is_finite v = true) (metrics_record tp fp tn fn).
Proof.
  unfold metrics_record.
  repeat (apply map_Forall_insert_2; [done|]). apply map_Forall_empty.
Qed.

(** C4: for non-negative counts (TP, FP, TN, FN) whose total fits an int,
    calculateMetrics returns a map that holds the four counts and
    accuracy = (TP+TN)/total, precision = TP/(TP+FP), recall = TP/(TP+FN),
    specificity = TN/(TN+FP), each 0 when its denominator is not positive,
    and f1_score = 2·precision·recall/(precision+recall), 0 when that sum is
    not positive; every derived ratio is a finite value in [0,1], and every
    entry of the map is finite (neither NaN nor an infinity). *)
Theorem calculateMetrics_spec (tp fp tn fn : Z) :
  (0 ≤ tp)%Z → (0 ≤ fp)%Z → (0 ≤ tn)%Z → (0 ≤ fn)%Z →
  (tp + fp + tn + fn ≤ INT_MAX)%Z →
  ∃ m : gmap string double,
    calculateMetrics (tp, fp, tn, fn) = Some m
    ∧ m !! "true_positives" = Some (of_int tp)
    ∧ m !! "false_positives" = Some (of_int fp)
    ∧ m !! "true_negatives" = Some (of_int tn)
    ∧ m !! "false_negatives" = Some (of_int fn)
    ∧ m !! "accuracy" = Some (Fin (ratio (tp + tn) (tp + fp + tn + fn)))
    ∧ m !! "precision" = Some (Fin (ratio tp (tp + fp)))
    ∧ m !! "recall" = Some (Fin (ratio tp (tp + fn)))
    ∧ m !! "specificity" = Some (Fin (ratio tn (tn + fp)))
    ∧ m !! "f1_score" =
        Some (Fin (f1_of (ratio tp (tp + fp)) (ratio tp (tp + fn))))
    ∧ (∀ k, k ∈ ratio_keys →
         ∃ q : Qc, m !! k = Some (Fin q) ∧ (0 ≤ q)%Qc ∧ (q ≤ 1)%Qc)
    ∧ map_Forall (λ _ v, is_finite v = true) m.
Proof.
  intros Htp Hfp Htn Hfn Hsum.
  exists (metrics_record tp fp tn fn).
  split; [by apply calculateMetrics_record|].
  pose proof (ratio_unit (tp + tn) (tp + fp + tn + fn) ltac:(lia)) as Hacc.
  pose proof (ratio_unit tp (tp + fp) ltac:(lia)) as Hprec.
  pose proof (ratio_unit tp (tp + fn) ltac:(lia)) as Hrec.
  pose proof (ratio_unit tn (tn + fp) ltac:(lia)) as Hspec.
  pose proof (f1_of_unit _ _ (proj1 Hprec) (proj2 Hprec) (proj1 Hrec) (proj2 Hrec))
    as Hf1.
  repeat split; try done; [|apply metrics_record_finite].
  intros k Hk. unfold ratio_keys in Hk.
  repeat (apply elem_of_cons in Hk as [->|Hk]); [..|by apply elem_of_nil in Hk];
    eexists; (split; [done|done]).
Qed.

(** ** The ROC stage: the loops *)

Lemma fold_opt_snoc {A B : Type} (f : B → A) (l : list B) (acc : list A) :
  fold_opt (λ x acc, Some (acc ++ [f x])) l acc = Some (acc ++ map f l).
Proof.
  revert acc. induction l as [|x l IH]; intros acc; simpl.
  - by rewrite app_nil_r.
  - rewrite IH. by rewrite <- app_assoc.
Qed.

Lemma make_pairs_zip (scores : list double) (labels : list bool) :
  length scores = length labels →
  make_pairs scores labels = Some (zip scores labels).
Proof.
  intros Hlen. unfold make_pairs.
  replace (length scores) with (length (zip scores labels))
    by (by rewrite length_zip_with_l_eq).
  rewrite (for_range_fold_opt _ (λ p acc, Some (acc ++ [(p.1, p.2)]))).
  - rewrite (fold_opt_snoc (λ p, (p.1, p.2))). simpl. f_equal.
    rewrite <- (map_id (zip scores labels)) at 2.
    apply map_ext. by intros [].
  - intros k [x y] acc Hk. simpl.
    by apply (indexed_body_zip scores labels (λ a b c, Some (c ++ [(a, b)]))).
Qed.

Lemma count_totals_spec (pairs : list (double * bool)) :
  count_totals pairs =
  (of_int (count_label true pairs), of_int (count_label false pairs)).
Proof.
  unfold count_totals, count_label.
  assert (∀ a b : Z,
    foldl (λ '(total_positives, total_negatives) (pair : double * bool),
             if pair.2 then (total_positives + d_one, total_negatives)%D
             else (total_positives, total_negatives + d_one)%D)
          (of_int a, of_int b) pairs
    = (of_int (a + cnt (λ p, p.2 = true) pairs),
       of_int (b + cnt (λ p, p.2 = false) pairs))) as Hgen.
  { induction pairs as [|[s l] pairs IH]; intros a b.
    - simpl. by rewrite !Z.add_0_r.
    - rewrite !cnt_cons. cbn [foldl snd].
      destruct l; rewrite of_int_succ, IH;
        repeat case_decide; try done; do 2 f_equal; lia. }
  rewrite <- of_int_0. apply Hgen.
Qed.

Lemma ddiv_of_int (count total : Z) :
  total ≠ 0%Z → (of_int count / of_int total)%D = rate count total.
Proof.
  intros Hne. unfold of_int, rate. simpl.
  by rewrite Qc_of_Z_eqb_0, bool_decide_eq_false_2.
Qed.

(** The vectors after the sweep from a state whose counters hold the
    integers [tp] and [fp]: the vectors of that state, then the points of
    [walk]. *)
Lemma roc_emit_foldl_walk (P N : Z) (l : list (double * bool))
    (st : roc_state) (tp fp : Z) :
  P ≠ 0%Z → N ≠ 0%Z →
  true_positives st = of_int tp → false_positives st = of_int fp →
  let st' := roc_emit (of_int P) (of_int N)
               (foldl (roc_step (of_int P) (of_int N)) st l) in
  let points := map (to_point P N) (walk (prev_score st) tp fp l) in
  thresholds_vec st' = thresholds_vec st ++ map threshold points
  ∧ fpr_vec st' = fpr_vec st ++ map fpr points
  ∧ tpr_vec st' = tpr_vec st ++ map tpr points.
Proof.
  intros HP HN. revert st tp fp.
  induction l as [|[s b] l IH]; intros st tp fp Htp Hfp.
  - simpl. rewrite Htp, Hfp, !ddiv_of_int by done. done.
  - cbn [foldl walk].
    set (st1 := roc_step (of_int P) (of_int N) st (s, b)).
    set (tp1 := if b then (tp + 1)%Z else tp).
    set (fp1 := if b then fp else (fp + 1)%Z).
    assert (true_positives st1 = of_int tp1) as Htp1.
    { subst st1 tp1. unfold roc_step.
      destruct (dne s (prev_score st)), b; simpl;
        by rewrite ?Htp, ?of_int_succ. }
    assert (false_positives st1 = of_int fp1) as Hfp1.
    { subst st1 fp1. unfold roc_step.
      destruct (dne s (prev_score st)), b; simpl;
        by rewrite ?Hfp, ?of_int_succ. }
    destruct (IH st1 tp1 fp1 Htp1 Hfp1) as (Ht & Hf & Hr).
    rewrite Ht, Hf, Hr. clear Ht Hf Hr IH.
    subst st1. unfold roc_step.
    destruct (dne s (prev_score st)) eqn:Hne.
    + destruct b; simpl; rewrite Htp, Hfp, !ddiv_of_int by done;
        rewrite <- !app_assoc; done.
    + destruct b; simpl; done.
Qed.

Lemma csv_rows_points (st : roc_state) (points : list roc_point) :
  thresholds_vec st = map threshold points →
  fpr_vec st = map fpr points →
  tpr_vec st = map tpr points →
  csv_rows st = Some points.
Proof.
  intros Ht Hf Hr. unfold csv_rows. rewrite Ht, Hf, Hr, !length_map.
  rewrite (for_range_fold_opt _ (λ p acc, Some (acc ++ [p]))).
  - rewrite (fold_opt_snoc (λ p, p)). by rewrite map_id.
  - intros k p acc Hk. simpl.
    rewrite bool_decide_eq_true_2 by (by eapply lookup_lt_Some).
    rewrite !list_lookup_fmap, Hk. by destruct p.
Qed.

Lemma trapezoid_auc_fold (points : list roc_point) :
  trapezoid_auc (map fpr points) (map tpr points) =
  fold_opt (λ pq auc,
              Some (auc + (fpr pq.2 - fpr pq.1) * (tpr pq.2 + tpr pq.1)
                          / d_two)%D)
           (zip points (drop 1 points)) d_zero.
Proof.
  unfold trapezoid_auc. rewrite length_map.
  replace (length points - 1)%nat with (length (zip points (drop 1 points))).
  2:{ rewrite length_zip_with, length_drop. lia. }
  apply for_range_fold_opt. intros k [p q] auc Hk.
  apply zip_lookup_Some in Hk as [Hp Hq]. rewrite lookup_drop in Hq.
  replace (1 + k - 1)%nat with k by lia.
  rewrite !list_lookup_fmap, Hp, Hq. done.
Qed.

Lemma dsub_Fin (a b : Qc) : (Fin a - Fin b)%D = Fin (a - b)%Qc.
Proof. done. Qed.

Lemma trapezoid_term_Fin (x y x' y' : Qc) :
  ((Fin x' - Fin x) * (Fin y' + Fin y) / d_two)%D
  = Fin ((x' - x) * (y' + y) / 2)%Qc.
Proof.
  cbv [dsub dadd dneg dmul ddiv d_two]. rewrite Qc_of_Z_eqb_0.
  rewrite bool_decide_eq_false_2 by done. by rewrite Z2Qc_inj_2.
Qed.

Lemma trapezoid_fold_finite (c : double * Qc * Qc)
    (cs : list (double * Qc * Qc)) (acc : Qc) :
  fold_opt (λ pq auc,
              Some (auc + (fpr pq.2 - fpr pq.1) * (tpr pq.2 + tpr pq.1)
                          / d_two)%D)
           (zip (map finite_point (c :: cs)) (map finite_point cs)) (Fin acc)
  = Some (Fin (acc + trapezoid_Qc (map (λ c, (c.1.2, c.2)) (c :: cs)))).
Proof.
  revert c acc. induction cs as [|c' cs IH]; intros c acc.
  - simpl. by rewrite Qcplus_0_r.
  - change (zip (map finite_point (c :: c' :: cs)) (map finite_point (c' :: cs)))
      with ((finite_point c, finite_point c')
            :: zip (map finite_point (c' :: cs)) (map finite_point cs)).
    cbn [fold_opt mbind option_bind fst snd finite_point fpr tpr].
    rewrite trapezoid_term_Fin. cbn [dadd].
    rewrite (IH c'). cbn [trapezoid_Qc map fst snd].
    by rewrite Qcplus_assoc.
Qed.

Lemma trapezoid_auc_finite (cs : list (double * Qc * Qc)) :
  trapezoid_auc (map fpr (map finite_point cs)) (map tpr (map finite_point cs))
  = Some (Fin (trapezoid_Qc (map (λ c, (c.1.2, c.2)) cs))).
Proof.
  rewrite trapezoid_auc_fold. destruct cs as [|c cs]; [done|].
  change (drop 1 (map finite_point (c :: cs))) with (map finite_point cs).
  rewrite <- (Qcplus_0_l (trapezoid_Qc _)). apply trapezoid_fold_finite.
Qed.

Lemma trapezoid_sum_finite (cs : list (double * Qc * Qc)) :
  trapezoid_sum (map finite_point cs)
  = Fin (trapezoid_Qc (map (λ c, (c.1.2, c.2)) cs)).
Proof.
  induction cs as [|c cs IH]; [done|].
  destruct cs as [|c' cs]; [done|].
  cbn [map trapezoid_sum] in IH |- *. rewrite IH.
  cbn [finite_point fpr tpr fst snd]. rewrite trapezoid_term_Fin. done.
Qed.

(** ** The ROC stage: what is returned and written *)

Lemma curve_finite (sorted : list (double * bool)) :
  curve sorted = map finite_point (curve_Qc sorted).
Proof.
  unfold curve, curve_Qc. cbn [map]. f_equal. by rewrite map_map.
Qed.

Lemma roc_sweep_curve (sorted : list (double * bool)) :
  count_label true sorted ≠ 0%Z → count_label false sorted ≠ 0%Z →
  let st := roc_sweep (of_int (count_label true sorted))
              (of_int (count_label false sorted)) sorted in
  thresholds_vec st = map threshold (curve sorted)
  ∧ fpr_vec st = map fpr (curve sorted)
  ∧ tpr_vec st = map tpr (curve sorted).
Proof.
  intros HP HN. unfold roc_sweep.
  destruct (roc_emit_foldl_walk _ _ sorted roc_init 0 0 HP HN)
    as (Ht & Hf & Hr); [by rewrite of_int_0..|].
  cbv zeta in Ht, Hf, Hr. rewrite Ht, Hf, Hr. done.
Qed.

Lemma count_label_perm (label : bool) (l k : list (double * bool)) :
  l ≡ₚ k → count_label label l = count_label label k.
Proof. intros Hperm. unfold count_label. by rewrite Hperm. Qed.

Lemma count_label_nonneg (label : bool) (l : list (double * bool)) :
  (0 ≤ count_label label l)%Z.
Proof. unfold count_label. lia. Qed.

Lemma count_label_zip (label : bool) (scores : list double)
    (labels : list bool) :
  length scores = length labels →
  (0 < count_label label (zip scores labels))%Z ↔ label ∈ labels.
Proof.
  revert labels. induction scores as [|s scores IH]; intros [|b labels] Hlen;
    try done.
  - split; [done|]. by intros ?%elem_of_nil.
  - injection Hlen as Hlen. specialize (IH labels Hlen).
    unfold count_label in *. cbn [zip zip_with]. rewrite cnt_cons. cbn [snd].
    rewrite elem_of_cons, <- IH. case_decide as Hb.
    + split; [by left|lia].
    + split; [intros; right; lia|intros [?|?]; [done|lia]].
Qed.

Section RocStage.
Context `{Sort : StdSort}.

(** The outcome of the ROC stage on an input with both classes. *)
Lemma saveRocDataToCSV_mixed (file_ok : bool) (scores : list double)
    (labels : list bool) (algorithm_name dataset_name : string) :
  length scores = length labels →
  no_nan (zip scores labels) →
  true ∈ labels → false ∈ labels →
  let sorted := std_sort (zip scores labels) in
  let filename := roc_filename algorithm_name dataset_name in
  let auc := trapezoid_sum (curve sorted) in
  saveRocDataToCSV file_ok scores labels algorithm_name dataset_name =
  Some (auc,
        if file_ok
        then [CsvFile filename (curve sorted); CoutRocSaved filename; CoutAuc auc]
        else [Cerr (cannot_open_msg filename)]).
Proof.
  intros Hlen Hnan Hpos Hneg sorted filename auc.
  pose proof (std_sort_perm _ Hnan) as Hperm. fold sorted in Hperm.
  apply (count_label_zip true scores) in Hpos; [|done].
  apply (count_label_zip false scores) in Hneg; [|done].
  assert (length scores ≠ 0%nat) as Hne.
  { intros Hz. destruct scores; [|done]. by vm_compute in Hpos. }
  rewrite <- (count_label_perm _ _ _ Hperm) in Hpos.
  rewrite <- (count_label_perm _ _ _ Hperm) in Hneg.
  unfold saveRocDataToCSV.
  rewrite bool_decide_eq_false_2 by (by intros ?).
  rewrite bool_decide_eq_false_2 by done.
  cbn [orb]. rewrite make_pairs_zip by done. cbn [mbind option_bind].
  fold sorted. rewrite count_totals_spec, !deq_of_int_0.
  rewrite !bool_decide_eq_false_2 by lia. cbn [orb].
  destruct (roc_sweep_curve sorted) as (Ht & Hf & Hr); [lia..|].
  rewrite Hf, Hr, (csv_rows_points _ (curve sorted)) by done.
  rewrite curve_finite, trapezoid_auc_finite. cbn [mbind option_bind].
  subst auc. rewrite curve_finite, trapezoid_sum_finite.
  by destruct file_ok.
Qed.

End RocStage.

(** ** The area under a monotone curve *)

Lemma trapezoid_term_bounds (d y y' : Qc) :
  (0 ≤ d)%Qc → (0 ≤ y)%Qc → (y ≤ 1)%Qc → (0 ≤ y')%Qc → (y' ≤ 1)%Qc →
  (0 ≤ d * (y' + y) / 2)%Qc ∧ (d * (y' + y) / 2 ≤ d)%Qc.
Proof.
  intros Hd Hy0 Hy1 Hy0' Hy1'.
  assert (0 ≤ (y' + y) / 2 ∧ (y' + y) / 2 ≤ 1)%Qc as [Ht0 Ht1].
  { apply Qc_div_unit.
    - by apply Qcplus_nonneg_nonneg.
    - by apply Qcplus_le_compat.
    - done. }
  replace (d * (y' + y) / 2)%Qc with (d * ((y' + y) / 2))%Qc
    by (unfold Qcdiv; ring).
  split.
  - by apply Qcmult_nonneg_nonneg.
  - rewrite <- (Qcmult_1_r d) at 2. by apply Qcmult_le_mono_nonneg_l.
Qed.

Lemma trapezoid_Qc_bounds (p : Qc * Qc) (points : list (Qc * Qc)) :
  Sorted step_up (p :: points) →
  Forall in_unit_square (p :: points) →
  ∃ q, last (p :: points) = Some q
       ∧ (0 ≤ trapezoid_Qc (p :: points))%Qc
       ∧ (trapezoid_Qc (p :: points) ≤ q.1 - p.1)%Qc.
Proof.
  revert p. induction points as [|p' points IH]; intros p Hsorted Hunit.
  - exists p. split; [done|]. simpl. replace (p.1 - p.1)%Qc with 0%Qc by ring.
    done.
  - apply Sorted_inv in Hsorted as [Hsorted Hhd].
    apply HdRel_inv in Hhd as [Hx _].
    apply Forall_cons in Hunit as [(_ & Hy0 & Hy1) Hunit].
    destruct (IH p' Hsorted Hunit) as (q & Hlast & Hlo & Hhi).
    apply Forall_cons in Hunit as [(_ & Hy0' & Hy1') _].
    exists q. split; [by rewrite last_cons_cons|].
    assert (0 ≤ p'.1 - p.1)%Qc as Hd by (by apply Qcle_minus_iff in Hx).
    destruct (trapezoid_term_bounds _ _ _ Hd Hy0 Hy1 Hy0' Hy1') as [Ht0 Ht1].
    change (trapezoid_Qc (p :: p' :: points))
      with ((p'.1 - p.1) * (p'.2 + p.2) / 2 + trapezoid_Qc (p' :: points))%Qc.
    split.
    + by apply Qcplus_nonneg_nonneg.
    + replace (q.1 - p.1)%Qc with ((p'.1 - p.1) + (q.1 - p'.1))%Qc by ring.
      by apply Qcplus_le_compat.
Qed.

(** ** Order of the doubles that are not NaN *)

Lemma deq_true_eq (x y : double) : deq x y = true → x = y.
Proof. destruct x, y; try done. simpl. by intros ->%Qc_eqb_eq. Qed.

Lemma deq_refl (x : double) : is_nan x = false → deq x x = true.
Proof. destruct x; try done. intros _. apply Qc_eqb_refl. Qed.

Lemma dne_false_eq (x y : double) : dne x y = false → x = y.
Proof. unfold dne. intros H%negb_false_iff. by apply deq_true_eq. Qed.

Lemma dne_true_iff (x y : double) :
  is_nan x = false → dne x y = true ↔ x ≠ y.
Proof.
  intros Hx. unfold dne. rewrite negb_true_iff. split.
  - intros Hne ->. by rewrite deq_refl in Hne.
  - intros Hne. apply not_true_is_false. by intros ?%deq_true_eq.
Qed.

Lemma dlt_irrefl (x : double) : dlt x x = false.
Proof. apply dgt_irrefl. Qed.

Lemma Qc_ltb_total (a b : Qc) : Qc_ltb a b = false → Qc_ltb b a = false → a = b.
Proof.
  intros Hab Hba. destruct (Qc_dec a b) as [[Hlt|Hlt]|Heq]; [| |done].
  - apply Qc_ltb_lt in Hlt. congruence.
  - apply Qc_ltb_lt in Hlt. congruence.
Qed.

Lemma dlt_total (x y : double) :
  is_nan x = false → is_nan y = false →
  dlt x y = false → dlt y x = false → x = y.
Proof.
  destruct x, y; try done. simpl. intros _ _ Hab Hba.
  f_equal. by apply Qc_ltb_total.
Qed.

Lemma dlt_asymm (x y : double) : dlt x y = true → dlt y x = false.
Proof.
  destruct x as [a| | |], y as [b| | |]; try done. simpl. intros Hab%Qc_ltb_lt.
  apply not_true_is_false. intros Hba%Qc_ltb_lt.
  by apply (irreflexivity Qclt a), (Qclt_trans _ b).
Qed.

Lemma dlt_false_trans (x y z : double) :
  is_nan y = false → dlt x y = false → dlt y z = false → dlt x z = false.
Proof.
  destruct x as [a| | |], y as [b| | |], z as [c| | |]; try done.
  simpl. intros _ Hxy Hyz.
  apply not_true_is_false. intros Hxz%Qc_ltb_lt.
  destruct (Qclt_le_dec a b) as [Hlt|Hle].
  - apply Qc_ltb_lt in Hlt. congruence.
  - assert (b < c)%Qc as Hbc by (by apply (Qcle_lt_trans _ a)).
    apply Qc_ltb_lt in Hbc. congruence.
Qed.

Lemma dle_of_not_dlt (x y : double) :
  is_nan x = false → is_nan y = false → dlt y x = false → dle x y = true.
Proof.
  intros Hx Hy Hyx. unfold dle. destruct (dlt x y) eqn:Hxy; [done|].
  rewrite (dlt_total x y) by done. by rewrite deq_refl.
Qed.

Lemma dle_Fin (a b : Qc) : dle (Fin a) (Fin b) = true ↔ (a ≤ b)%Qc.
Proof.
  unfold dle. simpl. rewrite orb_true_iff, Qc_ltb_lt, Qc_eqb_eq. split.
  - intros [?| ->]; [by apply Qclt_le_weak|done].
  - intros [?|?]%Qcle_lt_or_eq; auto.
Qed.

(** ** The walk over the sorted samples *)

Lemma count_label_cons (label : bool) (p : double * bool)
    (l : list (double * bool)) :
  count_label label (p :: l) =
  ((if decide (p.2 = label) then 1 else 0) + count_label label l)%Z.
Proof.
  unfold count_label. rewrite filter_cons.
  destruct (decide (p.2 = label)); simpl; lia.
Qed.

Lemma walk_range (prev : double) (tp fp : Z) (l : list (double * bool)) :
  Forall (λ c : double * Z * Z,
            (fp ≤ c.1.2 ≤ fp + count_label false l)%Z
            ∧ (tp ≤ c.2 ≤ tp + count_label true l)%Z)
         (walk prev tp fp l).
Proof.
  revert prev tp fp. induction l as [|[s b] l IH]; intros prev tp fp.
  - simpl. apply Forall_singleton. unfold count_label. simpl. lia.
  - pose proof (count_label_nonneg true l).
    pose proof (count_label_nonneg false l).
    cbn [walk]. rewrite !count_label_cons. cbn [snd].
    destruct (dne s prev); [apply Forall_cons; split|];
      try (eapply Forall_impl; [apply IH|]); cbn [fst snd];
      destruct b; repeat case_decide; try done; intros; lia.
Qed.

Lemma walk_sorted (prev : double) (tp fp : Z) (l : list (double * bool)) :
  Sorted count_up (walk prev tp fp l).
Proof.
  revert prev tp fp. induction l as [|[s b] l IH]; intros prev tp fp.
  - simpl. by repeat constructor.
  - cbn [walk]. destruct (dne s prev); [|apply IH].
    constructor; [apply IH|].
    match goal with |- HdRel _ _ (walk ?p ?a ?c l) =>
      pose proof (walk_range p a c l) as Hr; destruct (walk p a c l) end;
      constructor.
    apply Forall_cons in Hr as [Hr _]. unfold count_up. cbn [fst snd].
    destruct b; lia.
Qed.

Lemma walk_last (prev : double) (tp fp : Z) (l : list (double * bool)) :
  last (walk prev tp fp l) =
  Some (last_prev prev l,
        (fp + count_label false l)%Z, (tp + count_label true l)%Z).
Proof.
  revert prev tp fp. induction l as [|[s b] l IH]; intros prev tp fp.
  - simpl. unfold count_label. simpl. by rewrite !Z.add_0_r.
  - cbn [walk last_prev foldl fst]. rewrite !count_label_cons. cbn [snd].
    destruct (dne s prev).
    + match goal with |- last (_ :: walk ?p ?a ?c l) = _ =>
        pose proof (IH p a c) as Hl; destruct (walk p a c l) eqn:Hw end;
        [done|].
      rewrite last_cons_cons, Hl. unfold last_prev.
      destruct b; repeat case_decide; try done; tuple_eq; lia.
    + rewrite IH. unfold last_prev.
      destruct b; repeat case_decide; try done; tuple_eq; lia.
Qed.

Lemma last_prev_last (prev : double) (l : list (double * bool)) :
  last_prev prev l = default prev (last l.*1).
Proof.
  revert prev. induction l as [|[s b] l IH]; intros prev; [done|].
  cbn [last_prev foldl fst]. fold (last_prev (if dne s prev then s else prev) l).
  rewrite IH.
  replace (if dne s prev then s else prev) with s.
  2:{ destruct (dne s prev) eqn:Hne; [done|]. by apply dne_false_eq. }
  rewrite fmap_cons. cbn [fst]. destruct (l.*1) as [|d ds]; [done|].
  rewrite last_cons_cons.
  by destruct (proj2 (last_is_Some (d :: ds)) ltac:(done)) as [x ->].
Qed.

(** Samples that all carry the score the sweep already holds add no point. *)
Lemma walk_constant (s : double) (tp fp : Z) (l : list (double * bool)) :
  is_nan s = false → Forall (λ p, p.1 = s) l →
  walk s tp fp l =
  [(s, (fp + count_label false l)%Z, (tp + count_label true l)%Z)].
Proof.
  intros Hs. revert tp fp. induction l as [|[s' b] l IH]; intros tp fp Hall.
  - simpl. unfold count_label. simpl. by rewrite !Z.add_0_r.
  - apply Forall_cons in Hall as [Heq Hall]. simpl in Heq. subst s'.
    cbn [walk]. unfold dne. rewrite deq_refl by done. cbn [negb].
    rewrite IH by done. rewrite !count_label_cons. cbn [snd].
    destruct b; repeat case_decide; try done; tuple_eq; lia.
Qed.

(** On a sorted list without NaN, the sweep pushes one point per distinct
    score (none for a first score equal to [prev]), and the final point. *)
Lemma walk_length_sorted (prev : double) (tp fp : Z)
    (l : list (double * bool)) :
  no_nan l → is_nan prev = false →
  StronglySorted (λ a b, by_score_desc b a = false) l →
  Forall (λ p, dlt prev p.1 = false) l →
  length (walk prev tp fp l) =
  (length (remove_dups l.*1) + (if decide (prev ∈ l.*1) then 0 else 1))%nat.
Proof.
  revert prev tp fp.
  induction l as [|[s b] l IH]; intros prev tp fp Hnan Hprev Hsorted Hge.
  - cbn [walk length fmap list_fmap remove_dups].
    by rewrite (decide_False (P := prev ∈ [])) by apply not_elem_of_nil.
  - apply Forall_cons in Hnan as [Hs Hnan]. cbn [fst] in Hs.
    apply StronglySorted_inv in Hsorted as [Hsorted Hhd].
    apply Forall_cons in Hge as [Hps Hge]. cbn [fst] in Hps.
    assert (Forall (λ p, dlt s p.1 = false) l) as Hsl.
    { eapply Forall_impl; [exact Hhd|]. by intros []. }
    cbn [walk]. rewrite fmap_cons. cbn [fst remove_dups].
    destruct (dne s prev) eqn:Hne.
    + apply dne_true_iff in Hne; [|done]. cbn [length].
      rewrite (IH s) by done.
      assert (prev ∉ s :: l.*1) as Hnotin.
      { rewrite not_elem_of_cons. split; [done|].
        intros ((s' & b') & -> & Hin)%list_elem_of_fmap. cbn [fst] in *.
        rewrite Forall_forall in Hsl, Hge.
        specialize (Hsl _ Hin). specialize (Hge _ Hin). cbn [fst] in *.
        apply Hne. symmetry. by apply dlt_total. }
      rewrite (decide_False (P := prev ∈ s :: l.*1)) by done.
      unfold decide_rel, decide.
      destruct (list_elem_of_dec s l.*1); simpl; lia.
    + apply dne_false_eq in Hne. subst prev.
      rewrite (IH s) by done.
      rewrite (decide_True (P := s ∈ s :: l.*1)) by (by left).
      unfold decide_rel, decide.
      destruct (list_elem_of_dec s l.*1); simpl; lia.
Qed.

(** ** What sorting gives *)

Lemma sorted_last_least (l : list (double * bool)) (m : double * bool) :
  StronglySorted (λ a b, by_score_desc b a = false) l →
  last l = Some m →
  Forall (λ p, dlt p.1 m.1 = false) l.
Proof.
  induction l as [|p l IH]; intros Hsorted Hlast; [done|].
  apply StronglySorted_inv in Hsorted as [Hsorted Hhd].
  destruct l as [|p' l].
  - simplify_eq/=. apply Forall_singleton. apply dlt_irrefl.
  - rewrite last_cons_cons in Hlast. apply Forall_cons. split; [|by apply IH].
    rewrite Forall_forall in Hhd. apply (Hhd m).
    apply last_Some_elem_of in Hlast. done.
Qed.

Lemma remove_dups_length_perm (l k : list double) :
  l ≡ₚ k → length (remove_dups l) = length (remove_dups k).
Proof.
  intros Hperm. apply Permutation_length, NoDup_Permutation.
  - apply NoDup_remove_dups.
  - apply NoDup_remove_dups.
  - intros x. by rewrite !elem_of_remove_dups, Hperm.
Qed.

Lemma no_nan_zip (scores : list double) (labels : list bool) :
  Forall (λ s, is_nan s = false) scores → no_nan (zip scores labels).
Proof.
  intros Hall. apply Forall_forall. intros [s b] Hin.
  apply elem_of_zip_l in Hin. rewrite Forall_forall in Hall. by apply Hall.
Qed.

(** ** The curve *)

Lemma rate_0 (total : Z) : rate 0 total = d_zero.
Proof.
  unfold rate, d_zero. f_equal. rewrite Z2Qc_inj_0. unfold Qcdiv. ring.
Qed.

Lemma rate_self (total : Z) : total ≠ 0%Z → rate total total = d_one.
Proof.
  intros Hne. unfold rate, d_one. f_equal. unfold Qcdiv.
  apply Qcmult_inv_r. rewrite <- Z2Qc_inj_0. by intros ?%Z2Qc_inj.
Qed.

Lemma rate_unit (count total : Z) :
  (0 ≤ count ≤ total)%Z → (0 < total)%Z →
  dle d_zero (rate count total) = true ∧ dle (rate count total) d_one = true.
Proof.
  intros [H0 H1] Hpos. unfold rate, d_zero, d_one. rewrite !dle_Fin.
  apply Qc_div_unit.
  - by apply Qc_of_Z_nonneg.
  - by rewrite <- Z2Qc_inj_le.
  - by apply Qc_of_Z_pos.
Qed.

Lemma rate_mono (a b total : Z) :
  (a ≤ b)%Z → (0 < total)%Z → dle (rate a total) (rate b total) = true.
Proof.
  intros Hab Hpos. unfold rate. rewrite dle_Fin. unfold Qcdiv.
  apply Qcmult_le_mono_nonneg_r.
  - apply Qclt_le_weak, Qcinv_pos. by apply Qc_of_Z_pos.
  - by rewrite <- Z2Qc_inj_le.
Qed.

Lemma curve_counts (sorted : list (double * bool)) :
  curve sorted =
  map (to_point (count_label true sorted) (count_label false sorted))
      (counts sorted).
Proof.
  unfold curve, counts. cbn [map]. f_equal.
  unfold to_point. cbn [fst snd]. by rewrite !rate_0.
Qed.

Lemma counts_range (sorted : list (double * bool)) :
  Forall (λ c : double * Z * Z,
            (0 ≤ c.1.2 ≤ count_label false sorted)%Z
            ∧ (0 ≤ c.2 ≤ count_label true sorted)%Z)
         (counts sorted).
Proof.
  pose proof (count_label_nonneg true sorted).
  pose proof (count_label_nonneg false sorted).
  apply Forall_cons. split; [simpl; lia|].
  eapply Forall_impl; [apply walk_range|]. simpl. intros. lia.
Qed.

Lemma counts_sorted (sorted : list (double * bool)) :
  Sorted count_up (counts sorted).
Proof.
  constructor; [apply walk_sorted|].
  pose proof (walk_range DBL_MAX 0 0 sorted) as Hr.
  destruct (walk DBL_MAX 0 0 sorted); constructor.
  apply Forall_cons in Hr as [Hr _]. unfold count_up. simpl. lia.
Qed.

Lemma counts_last (sorted : list (double * bool)) :
  last (counts sorted) =
  Some (default DBL_MAX (last sorted.*1),
        count_label false sorted, count_label true sorted).
Proof.
  unfold counts. rewrite last_cons, walk_last, last_prev_last.
  by rewrite !Z.add_0_l.
Qed.

Lemma Sorted_lookup_succ {A : Type} (R : relation A) (l : list A) (i : nat)
    (x y : A) :
  Sorted R l → l !! i = Some x → l !! S i = Some y → R x y.
Proof.
  intros Hsorted. revert i. induction Hsorted as [|a l Hs IH Hhd]; [done|].
  intros [|i] Hx Hy.
  - simplify_eq/=. destruct Hhd; by simplify_eq/=.
  - by eapply IH.
Qed.

Lemma Qc_of_Z_div_0 (total : Z) : (Qc_of_Z 0 / Qc_of_Z total)%Qc = 0%Qc.
Proof. rewrite Z2Qc_inj_0. unfold Qcdiv. ring. Qed.

Lemma Qc_of_Z_div_self (total : Z) :
  total ≠ 0%Z → (Qc_of_Z total / Qc_of_Z total)%Qc = 1%Qc.
Proof.
  intros Hne. unfold Qcdiv. apply Qcmult_inv_r.
  rewrite <- Z2Qc_inj_0. by intros ?%Z2Qc_inj.
Qed.

Lemma Qc_of_Z_div_mono (a b total : Z) :
  (a ≤ b)%Z → (0 < total)%Z →
  (Qc_of_Z a / Qc_of_Z total ≤ Qc_of_Z b / Qc_of_Z total)%Qc.
Proof.
  intros Hab Hpos. unfold Qcdiv. apply Qcmult_le_mono_nonneg_r.
  - apply Qclt_le_weak, Qcinv_pos. by apply Qc_of_Z_pos.
  - by rewrite <- Z2Qc_inj_le.
Qed.

Lemma curve_Qc_counts (sorted : list (double * bool)) :
  map (λ c : double * Qc * Qc, (c.1.2, c.2)) (curve_Qc sorted) =
  map (rates (count_label true sorted) (count_label false sorted))
      (counts sorted).
Proof.
  unfold curve_Qc, counts. cbn [map]. rewrite map_map. f_equal.
  unfold rates. cbn [fst snd]. by rewrite !Qc_of_Z_div_0.
Qed.

(** The area under the curve of a list with both labels lies in [0,1]. *)
Lemma curve_area_unit (sorted : list (double * bool)) :
  (0 < count_label true sorted)%Z → (0 < count_label false sorted)%Z →
  ∃ area : Qc,
    trapezoid_sum (curve sorted) = Fin area ∧ (0 ≤ area)%Qc ∧ (area ≤ 1)%Qc.
Proof.
  intros HP HN. rewrite curve_finite, trapezoid_sum_finite, curve_Qc_counts.
  eexists. split; [done|].
  set (g := rates (count_label true sorted) (count_label false sorted)).
  destruct (trapezoid_Qc_bounds (g (DBL_MAX, 0%Z, 0%Z))
              (map g (walk DBL_MAX 0 0 sorted))) as (q & Hlast & Hlo & Hhi).
  - change (Sorted step_up (g <$> counts sorted)).
    apply (Sorted_fmap g count_up step_up _); [|apply counts_sorted].
    intros c c' [Hf Ht]. split; by apply Qc_of_Z_div_mono.
  - change (Forall in_unit_square (g <$> counts sorted)).
    apply Forall_fmap. eapply Forall_impl; [apply counts_range|].
    intros c [Hf Ht]. split;
      (apply Qc_div_unit;
       [apply Qc_of_Z_nonneg; lia | rewrite <- Z2Qc_inj_le; lia
       |by apply Qc_of_Z_pos]).
  - change (g (DBL_MAX, 0%Z, 0%Z) :: map g (walk DBL_MAX 0 0 sorted))
      with (g <$> counts sorted) in *.
    split; [done|].
    rewrite fmap_last, counts_last in Hlast. simplify_eq/=.
    rewrite Qc_of_Z_div_self, Qc_of_Z_div_0 in Hhi by lia.
    by replace (1 - 0)%Qc with 1%Qc in Hhi by ring.
Qed.

Section RocCurve.
Context `{Sort : StdSort}.

(** What the sweep is run on, for a valid input with both classes. *)
Lemma sorted_input (scores : list double) (labels : list bool) :
  length scores = length labels →
  Forall (λ s, is_nan s = false) scores →
  true ∈ labels → false ∈ labels →
  let sorted := std_sort (zip scores labels) in
  (0 < count_label true sorted)%Z ∧ (0 < count_label false sorted)%Z
  ∧ sorted.*1 ≡ₚ scores ∧ no_nan sorted
  ∧ StronglySorted (λ a b, by_score_desc b a = false) sorted.
Proof.
  intros Hlen Hnan Hpos Hneg sorted.
  pose proof (no_nan_zip scores labels Hnan) as Hnz.
  pose proof (std_sort_perm _ Hnz) as Hperm. fold sorted in Hperm.
  rewrite !(count_label_perm _ _ _ Hperm), !count_label_zip by done.
  repeat split; try done.
  - rewrite Hperm. rewrite fst_zip; [done|lia].
  - unfold no_nan. by rewrite Hperm.
  - by apply std_sort_sorted.
Qed.

(** C2: for scores (none of them NaN) and labels of equal length with at
    least one positive and one negative label, the curve written by
    saveRocDataToCSV starts with (DBL_MAX, fpr 0, tpr 0) and ends with
    (m, fpr 1, tpr 1) where m is the least score of the input; from each
    row to the next neither fpr nor tpr decreases; every fpr and tpr lies in
    [0,1]. *)
Theorem roc_curve_invariants (scores : list double) (labels : list bool)
    (algorithm_name dataset_name : string) :
  length scores = length labels →
  Forall (λ s, is_nan s = false) scores →
  true ∈ labels → false ∈ labels →
  ∃ (rows : list roc_point) (auc : double),
    saveRocDataToCSV true scores labels algorithm_name dataset_name =
      Some (auc, [CsvFile (roc_filename algorithm_name dataset_name) rows;
                  CoutRocSaved (roc_filename algorithm_name dataset_name);
                  CoutAuc auc])
    ∧ head rows = Some (RocPoint DBL_MAX d_zero d_zero)
    ∧ (∃ m : double,
         last rows = Some (RocPoint m d_one d_one)
         ∧ m ∈ scores ∧ ∀ s, s ∈ scores → dle m s = true)
    ∧ (∀ i p q, rows !! i = Some p → rows !! S i = Some q →
         dle (fpr p) (fpr q) = true ∧ dle (tpr p) (tpr q) = true)
    ∧ (∀ p, p ∈ rows →
         dle d_zero (fpr p) = true ∧ dle (fpr p) d_one = true
         ∧ dle d_zero (tpr p) = true ∧ dle (tpr p) d_one = true).
Proof.
  intros Hlen Hnan Hpos Hneg.
  destruct (sorted_input scores labels Hlen Hnan Hpos Hneg)
    as (HP & HN & Hperm & Hnans & Hsorted).
  set (sorted := std_sort (zip scores labels)) in *.
  exists (curve sorted), (trapezoid_sum (curve sorted)).
  split; [apply (saveRocDataToCSV_mixed true); auto using no_nan_zip|].
  split; [done|].
  rewrite curve_counts. split; [|split].
  - (* the last point *)
    destruct (last sorted) as [m|] eqn:Hlast.
    2:{ apply last_None in Hlast. rewrite Hlast in HP. by vm_compute in HP. }
    exists m.1. rewrite fmap_last, counts_last, fmap_last, Hlast.
    split; [|split].
    + simpl. unfold to_point. cbn [fst snd]. by rewrite !rate_self by lia.
    + rewrite <- Hperm. apply list_elem_of_fmap_2.
      by apply last_Some_elem_of.
    + intros s Hs. rewrite <- Hperm in Hs.
      apply list_elem_of_fmap in Hs as (p & -> & Hp).
      pose proof (sorted_last_least _ _ Hsorted Hlast) as Hleast.
      unfold no_nan in Hnans. rewrite Forall_forall in Hleast.
      rewrite Forall_forall in Hnans.
      apply dle_of_not_dlt; [apply Hnans|apply Hnans|by apply Hleast];
        [by apply last_Some_elem_of|done].
  - (* monotone *)
    intros i p q Hp Hq. rewrite list_lookup_fmap in Hp, Hq.
    destruct (counts sorted !! i) as [c|] eqn:Hc; [|done].
    destruct (counts sorted !! S i) as [c'|] eqn:Hc'; [|done].
    simplify_eq/=.
    destruct (Sorted_lookup_succ _ _ _ _ _ (counts_sorted sorted) Hc Hc').
    split; by apply rate_mono.
  - (* in the unit interval *)
    intros p (c & -> & Hc)%list_elem_of_fmap.
    pose proof (counts_range sorted) as Hr. rewrite Forall_forall in Hr.
    destruct (Hr c Hc) as [Hf Ht].
    destruct (rate_unit _ _ Hf HN), (rate_unit _ _ Ht HP). done.
Qed.

(** C3: for scores (none of them NaN) and labels of equal length with at
    least one positive and one negative label, the value saveRocDataToCSV
    returns (whether or not the file could be opened) is the sum of
    (fpr[i]-fpr[i-1])·(tpr[i]+tpr[i-1])/2 over the consecutive rows of the
    written curve, and it lies in [0,1]. *)
Theorem auc_trapezoid_unit (scores : list double) (labels : list bool)
    (algorithm_name dataset_name : string) :
  length scores = length labels →
  Forall (λ s, is_nan s = false) scores →
  true ∈ labels → false ∈ labels →
  ∃ (rows : list roc_point) (auc : double),
    saveRocDataToCSV true scores labels algorithm_name dataset_name =
      Some (auc, [CsvFile (roc_filename algorithm_name dataset_name) rows;
                  CoutRocSaved (roc_filename algorithm_name dataset_name);
                  CoutAuc auc])
    ∧ (∀ file_ok, ∃ events,
         saveRocDataToCSV file_ok scores labels algorithm_name dataset_name =
           Some (auc, events))
    ∧ auc = trapezoid_sum rows
    ∧ dle d_zero auc = true ∧ dle auc d_one = true.
Proof.
  intros Hlen Hnan Hpos Hneg.
  destruct (sorted_input scores labels Hlen Hnan Hpos Hneg)
    as (HP & HN & _).
  set (sorted := std_sort (zip scores labels)) in *.
  exists (curve sorted), (trapezoid_sum (curve sorted)).
  split; [apply (saveRocDataToCSV_mixed true); auto using no_nan_zip|].
  split.
  { intros file_ok. eexists.
    apply (saveRocDataToCSV_mixed file_ok); auto using no_nan_zip. }
  split; [done|].
  destruct (curve_area_unit sorted HP HN) as (area & -> & Hlo & Hhi).
  unfold d_zero, d_one. by rewrite !dle_Fin.
Qed.

End RocCurve.

(** ** The shape of the curve *)

Lemma dlt_true_not_nan (x y : double) :
  dlt x y = true → is_nan x = false ∧ is_nan y = false.
Proof. by destruct x, y. Qed.

Lemma dlt_true_ne (x y : double) : dlt x y = true → x ≠ y.
Proof. intros Hlt ->. by rewrite dlt_irrefl in Hlt. Qed.

Section RocShape.
Context `{Sort : StdSort}.

(** C10: for scores all strictly below DBL_MAX and labels of equal length
    with both classes present, the written curve starts with two equal rows
    (DBL_MAX, fpr 0, tpr 0) and has as many rows as there are distinct
    scores, plus two. *)
Theorem roc_curve_leading_pair_and_size (scores : list double)
    (labels : list bool) (algorithm_name dataset_name : string) :
  length scores = length labels →
  Forall (λ s, dlt s DBL_MAX = true) scores →
  true ∈ labels → false ∈ labels →
  ∃ (rows : list roc_point) (auc : double),
    saveRocDataToCSV true scores labels algorithm_name dataset_name =
      Some (auc, [CsvFile (roc_filename algorithm_name dataset_name) rows;
                  CoutRocSaved (roc_filename algorithm_name dataset_name);
                  CoutAuc auc])
    ∧ rows !! 0%nat = Some (RocPoint DBL_MAX d_zero d_zero)
    ∧ rows !! 1%nat = Some (RocPoint DBL_MAX d_zero d_zero)
    ∧ length rows = (length (remove_dups scores) + 2)%nat.
Proof.
  intros Hlen Hbelow Hpos Hneg.
  assert (Forall (λ s, is_nan s = false) scores) as Hnan.
  { eapply Forall_impl; [exact Hbelow|]. by intros s [? _]%dlt_true_not_nan. }
  destruct (sorted_input scores labels Hlen Hnan Hpos Hneg)
    as (HP & HN & Hperm & Hnans & Hsorted).
  set (sorted := std_sort (zip scores labels)) in *.
  assert (Forall (λ p : double * bool, dlt p.1 DBL_MAX = true) sorted)
    as Hbelow'.
  { apply (Forall_fmap fst (λ s, dlt s DBL_MAX = true)). by rewrite Hperm. }
  exists (curve sorted), (trapezoid_sum (curve sorted)).
  split; [apply (saveRocDataToCSV_mixed true); auto using no_nan_zip|].
  split; [done|]. split.
  - destruct sorted as [|[s b] l] eqn:Hs; [by vm_compute in HP|].
    apply Forall_cons in Hbelow' as [Hlt _]. cbn [fst] in Hlt.
    unfold curve. cbn [lookup list_lookup map walk].
    destruct (dlt_true_not_nan _ _ Hlt) as [Hsn _].
    rewrite (proj2 (dne_true_iff s DBL_MAX Hsn)) by (by apply dlt_true_ne).
    cbn [map lookup list_lookup]. unfold to_point. cbn [fst snd].
    by rewrite !rate_0.
  - unfold curve. cbn [length]. rewrite length_map.
    rewrite walk_length_sorted; [|done|done|done|].
    + rewrite (remove_dups_length_perm _ _ Hperm).
      rewrite decide_False; [lia|].
      intros (p & Heq & Hin)%list_elem_of_fmap.
      rewrite Forall_forall in Hbelow'. specialize (Hbelow' p Hin).
      rewrite <- Heq in Hbelow'. by rewrite dlt_irrefl in Hbelow'.
    + eapply Forall_impl; [exact Hbelow'|]. intros p Hp. by apply dlt_asymm.
Qed.

(** C9, as the code has it: when every sample carries the same score s (not
    NaN) and both classes are present, the written curve is
    (DBL_MAX,0,0), (DBL_MAX,0,0), (s,1,1) if s differs from DBL_MAX, and
    (DBL_MAX,0,0), (DBL_MAX,1,1) if s is DBL_MAX: the point pushed at the
    first sample carries the previous score, which is the sentinel. Every
    rate is finite: no division by zero took place. *)
Theorem constant_score_curve (s : double) (scores : list double)
    (labels : list bool) (algorithm_name dataset_name : string) :
  length scores = length labels →
  is_nan s = false →
  Forall (λ x, x = s) scores →
  true ∈ labels → false ∈ labels →
  ∃ (rows : list roc_point) (auc : double),
    saveRocDataToCSV true scores labels algorithm_name dataset_name =
      Some (auc, [CsvFile (roc_filename algorithm_name dataset_name) rows;
                  CoutRocSaved (roc_filename algorithm_name dataset_name);
                  CoutAuc auc])
    ∧ rows =
        (if decide (s = DBL_MAX)
         then [RocPoint DBL_MAX d_zero d_zero; RocPoint DBL_MAX d_one d_one]
         else [RocPoint DBL_MAX d_zero d_zero; RocPoint DBL_MAX d_zero d_zero;
               RocPoint s d_one d_one])
    ∧ Forall (λ p, is_finite (fpr p) = true ∧ is_finite (tpr p) = true) rows.
Proof.
  intros Hlen Hs Hall Hpos Hneg.
  assert (Forall (λ x, is_nan x = false) scores) as Hnan.
  { eapply Forall_impl; [exact Hall|]. by intros x ->. }
  destruct (sorted_input scores labels Hlen Hnan Hpos Hneg)
    as (HP & HN & Hperm & Hnans & Hsorted).
  set (sorted := std_sort (zip scores labels)) in *.
  assert (Forall (λ p : double * bool, p.1 = s) sorted) as Hall'.
  { apply (Forall_fmap fst (λ x, x = s)). by rewrite Hperm. }
  exists (curve sorted), (trapezoid_sum (curve sorted)).
  split; [apply (saveRocDataToCSV_mixed true); auto using no_nan_zip|].
  assert (curve sorted =
          if decide (s = DBL_MAX)
          then [RocPoint DBL_MAX d_zero d_zero; RocPoint DBL_MAX d_one d_one]
          else [RocPoint DBL_MAX d_zero d_zero; RocPoint DBL_MAX d_zero d_zero;
                RocPoint s d_one d_one]) as ->.
  { unfold curve. case_decide as Hmax.
    - subst s. rewrite walk_constant by done. cbn [map].
      unfold to_point. cbn [fst snd]. rewrite !Z.add_0_l.
      by rewrite !rate_self by lia.
    - set (P := count_label true sorted) in *.
      set (N := count_label false sorted) in *.
      assert (walk DBL_MAX 0 0 sorted = [(DBL_MAX, 0%Z, 0%Z); (s, N, P)]) as ->.
      { subst P N. destruct sorted as [|[s' b] l]; [by vm_compute in HP|].
        apply Forall_cons in Hall' as [Hs' Hall']. cbn [fst] in Hs'. subst s'.
        cbn [walk]. rewrite (proj2 (dne_true_iff s DBL_MAX Hs)) by done.
        rewrite walk_constant by done. rewrite !count_label_cons. cbn [snd].
        destruct b; repeat case_decide; try done; tuple_eq; lia. }
      cbn [map]. unfold to_point. cbn [fst snd].
      by rewrite !rate_0, !rate_self by lia. }
  split; [done|]. case_decide; repeat constructor.
Qed.

End RocShape.

(** ** The default threshold *)

Lemma threshold_fold (l : list (double * bool)) (a b : double) (pc nc : Z) :
  (0 ≤ pc)%Z → (0 ≤ nc)%Z → (pc + nc + Z.of_nat (length l) ≤ INT_MAX)%Z →
  fold_opt (λ (p : double * bool) '(avgPositiveScore, avgNegativeScore,
                                    posCount, negCount),
              if p.2 then
                n ← int_add posCount 1;
                Some ((avgPositiveScore + p.1)%D, avgNegativeScore, n, negCount)
              else
                n ← int_add negCount 1;
                Some (avgPositiveScore, (avgNegativeScore + p.1)%D, posCount, n))
           l (a, b, pc, nc)
  = Some (foldl dadd a (filter (λ p, p.2 = true) l).*1,
          foldl dadd b (filter (λ p, p.2 = false) l).*1,
          (pc + Z.of_nat (length (filter (λ p, p.2 = true) l)))%Z,
          (nc + Z.of_nat (length (filter (λ p, p.2 = false) l)))%Z).
Proof.
  revert a b pc nc. induction l as [|[s c] l IH]; intros a b pc nc Hpc Hnc Hsum.
  - simpl. by rewrite !Z.add_0_r.
  - rewrite length_cons in Hsum. unfold INT_MAX in Hsum.
    cbn [fold_opt snd fst]. rewrite !filter_cons. cbn [snd].
    destruct c; rewrite int_add_Some by (unfold INT_MIN, INT_MAX; lia);
      cbn [mbind option_bind]; rewrite IH by (unfold INT_MAX; lia);
      repeat case_decide; try done; cbn [fmap list_fmap foldl length fst];
      tuple_eq; lia.
Qed.

Lemma default_threshold_midpoint (scores : list double) (labels : list bool) :
  length scores = length labels →
  (Z.of_nat (length scores) ≤ INT_MAX)%Z →
  default_threshold scores labels = Some (midpoint_threshold scores labels).
Proof.
  intros Hlen Hmax. unfold default_threshold.
  replace (length scores) with (length (zip scores labels))
    by (by rewrite length_zip_with_l_eq).
  rewrite (for_range_fold_opt _
    (λ (p : double * bool) '(avgPositiveScore, avgNegativeScore,
                             posCount, negCount),
       if p.2 then
         n ← int_add posCount 1;
         Some ((avgPositiveScore + p.1)%D, avgNegativeScore, n, negCount)
       else
         n ← int_add negCount 1;
         Some (avgPositiveScore, (avgNegativeScore + p.1)%D, posCount, n))).
  2:{ intros k [x y] [[[a b] pc] nc] Hk.
      apply zip_lookup_Some in Hk as [Hx Hy]. unfold threshold_step.
      simpl. by rewrite Hx, Hy. }
  rewrite threshold_fold; [|done|done|].
  2:{ rewrite length_zip_with_l_eq by done. lia. }
  cbn [mbind option_bind]. rewrite !Z.add_0_l.
  unfold midpoint_threshold, class_mean, class_scores. rewrite !length_fmap.
  do 3 f_equal.
  - destruct (filter (λ p, p.2 = true) (zip scores labels)) as [|p l] eqn:Hf.
    + done.
    + rewrite bool_decide_eq_true_2 by (simpl; lia).
      by rewrite bool_decide_eq_false_2.
  - destruct (filter (λ p, p.2 = false) (zip scores labels)) as [|p l] eqn:Hf.
    + done.
    + rewrite bool_decide_eq_true_2 by (simpl; lia).
      by rewrite bool_decide_eq_false_2.
Qed.

(** ** The orchestrator *)

Lemma count_label_all (b : bool) (l : list (double * bool)) :
  Forall (λ p, p.2 = b) l → count_label (negb b) l = 0%Z.
Proof.
  intros Hall. induction Hall as [|p l Hp Hall IH]; [done|].
  rewrite count_label_cons, IH. rewrite decide_False; [done|].
  rewrite Hp. by destruct b.
Qed.

Section Orchestrator.
Context `{Sort : StdSort}.

(** The ROC stage on labels that are all equal: a line on the error stream,
    no file, and 0.0 returned. *)
Lemma saveRocDataToCSV_degenerate (file_ok : bool) (scores : list double)
    (labels : list bool) (algorithm_name dataset_name : string) (b : bool) :
  length scores = length labels → scores ≠ [] →
  Forall (λ s, is_nan s = false) scores →
  Forall (λ l, l = b) labels →
  saveRocDataToCSV file_ok scores labels algorithm_name dataset_name =
  Some (d_zero, [Cerr degenerate_msg]).
Proof.
  intros Hlen Hne Hnan Hall.
  pose proof (std_sort_perm _ (no_nan_zip scores labels Hnan)) as Hperm.
  unfold saveRocDataToCSV.
  rewrite bool_decide_eq_false_2 by (by intros ?).
  rewrite bool_decide_eq_false_2 by (by destruct scores).
  cbn [orb]. rewrite make_pairs_zip by done. cbn [mbind option_bind].
  rewrite count_totals_spec, !deq_of_int_0.
  assert (count_label (negb b) (std_sort (zip scores labels)) = 0%Z) as Hzero.
  { apply count_label_all. rewrite Hperm. apply Forall_forall.
    intros [s l] Hin%elem_of_zip_r. rewrite Forall_forall in Hall.
    by apply Hall. }
  destruct b; cbn [negb] in Hzero; rewrite Hzero;
    rewrite (bool_decide_eq_true_2 (0 = 0)%Z) by done;
    by rewrite ?orb_true_r.
Qed.

(** The ROC stage returns, whatever the labels. *)
Lemma saveRocDataToCSV_total (file_ok : bool) (scores : list double)
    (labels : list bool) (algorithm_name dataset_name : string) :
  length scores = length labels →
  ∃ auc events,
    saveRocDataToCSV file_ok scores labels algorithm_name dataset_name =
    Some (auc, events).
Proof.
  intros Hlen. unfold saveRocDataToCSV.
  rewrite bool_decide_eq_false_2 by (by intros ?). cbn [orb].
  case_bool_decide; [by eexists _, _|].
  rewrite make_pairs_zip by done. cbn [mbind option_bind].
  set (sorted := std_sort (zip scores labels)).
  rewrite count_totals_spec, !deq_of_int_0.
  case_bool_decide as HP; [by eexists _, _|].
  case_bool_decide as HN; [by eexists _, _|]. cbn [orb].
  destruct (roc_sweep_curve sorted HP HN) as (Ht & Hf & Hr).
  rewrite Hf, Hr, (csv_rows_points _ (curve sorted)) by done.
  rewrite curve_finite, trapezoid_auc_finite. cbn [mbind option_bind].
  destruct file_ok; by eexists _, _.
Qed.

(** The orchestrator on a valid input: the metrics of the confusion matrix
    at the resolved threshold, then the threshold and the value of the ROC
    stage, whose output is followed by the printed summary. *)
Lemma evaluateAlgorithm_valid (file_ok : bool) (scores : list double)
    (labels : list bool) (algorithm_name dataset_name : string)
    (threshold : double) :
  length scores = length labels → scores ≠ [] →
  (Z.of_nat (length scores) ≤ INT_MAX)%Z →
  ∃ (tp fp tn fn : Z) (auc : double) (roc_events : list event),
    let used := resolved_threshold scores labels threshold in
    let results :=
      <["auc" := auc]> (<["threshold" := used]> (metrics_record tp fp tn fn)) in
    calculateConfusionMatrix scores labels used = Some (tp, fp, tn, fn)
    ∧ saveRocDataToCSV file_ok scores labels algorithm_name dataset_name =
        Some (auc, roc_events)
    ∧ evaluateAlgorithm file_ok scores labels algorithm_name dataset_name
        threshold =
        Some (results, roc_events ++ [CoutResults results true]).
Proof.
  intros Hlen Hne Hmax.
  destruct (confusion_matrix_counts_total scores labels
              (resolved_threshold scores labels threshold) Hlen Hmax)
    as (tp & fp & tn & fn & Hcm & Htp & Hfp & Htn & Hfn & Hsum).
  destruct (saveRocDataToCSV_total file_ok scores labels algorithm_name
              dataset_name Hlen) as (auc & roc_events & Hroc).
  exists tp, fp, tn, fn, auc, roc_events. cbv zeta.
  split; [done|]. split; [done|].
  unfold evaluateAlgorithm.
  rewrite bool_decide_eq_false_2 by (by intros ?).
  rewrite bool_decide_eq_false_2 by (by destruct scores).
  cbn [orb].
  replace (if dlt threshold d_zero then default_threshold scores labels
           else Some threshold)
    with (Some (resolved_threshold scores labels threshold)).
  2:{ unfold resolved_threshold. destruct (dlt threshold d_zero); [|done].
      by rewrite default_threshold_midpoint. }
  cbn [mbind option_bind]. rewrite Hcm. cbn [mbind option_bind].
  rewrite calculateMetrics_record by lia. cbn [mbind option_bind].
  rewrite Hroc. done.
Qed.

End Orchestrator.

Section Evaluate.
Context `{Sort : StdSort}.

(** C1, as the code has it: when all labels are equal (scores without NaN,
    equal positive length, at most INT_MAX samples), the ROC stage prints
    "Error: Data must contain both positive and negative samples" on the
    error stream, writes no file and returns 0.0; the orchestrator does not
    turn this into an error: it returns the metrics of the confusion matrix
    at the resolved threshold together with that threshold and auc = 0.0,
    a map without the key "error", and prints it. *)
Theorem degenerate_labels_not_propagated (file_ok : bool)
    (scores : list double) (labels : list bool)
    (algorithm_name dataset_name : string) (threshold : double) (b : bool) :
  length scores = length labels → scores ≠ [] →
  (Z.of_nat (length scores) ≤ INT_MAX)%Z →
  Forall (λ s, is_nan s = false) scores →
  Forall (λ l, l = b) labels →
  saveRocDataToCSV file_ok scores labels algorithm_name dataset_name =
    Some (d_zero, [Cerr degenerate_msg])
  ∧ ∃ tp fp tn fn : Z,
      let used := resolved_threshold scores labels threshold in
      let results :=
        <["auc" := d_zero]>
          (<["threshold" := used]> (metrics_record tp fp tn fn)) in
      calculateConfusionMatrix scores labels used = Some (tp, fp, tn, fn)
      ∧ evaluateAlgorithm file_ok scores labels algorithm_name dataset_name
          threshold =
          Some (results, [Cerr degenerate_msg; CoutResults results true])
      ∧ results !! "error" = None
      ∧ results !! "auc" = Some d_zero.
Proof.
  intros Hlen Hne Hmax Hnan Hall.
  pose proof (saveRocDataToCSV_degenerate file_ok scores labels algorithm_name
                dataset_name b Hlen Hne Hnan Hall) as Hroc.
  split; [done|].
  destruct (evaluateAlgorithm_valid file_ok scores labels algorithm_name
              dataset_name threshold Hlen Hne Hmax)
    as (tp & fp & tn & fn & auc & roc_events & Hcm & Hroc' & Heval).
  rewrite Hroc in Hroc'. simplify_eq.
  exists tp, fp, tn, fn. cbv zeta. by repeat split.
Qed.


(** C8: when the lengths of scores and labels differ, or scores is empty,
    evaluateAlgorithm prints the invalid-input line and returns the map
    that holds only "error" = 1.0: nothing is classified, no metric is
    computed, no curve is written. *)
Theorem invalid_input_rejected (file_ok : bool)
    (scores : list double) (labels : list bool)
    (algorithm_name dataset_name : string) (threshold : double) :
  length scores ≠ length labels ∨ scores = [] →
  evaluateAlgorithm file_ok scores labels algorithm_name dataset_name
    threshold =
  Some ({["error" := d_one]}, [Cerr invalid_input_msg]).
Proof.
  intros Hbad. unfold evaluateAlgorithm.
  destruct Hbad as [Hlen| ->].
  - by rewrite bool_decide_eq_true_2.
  - by rewrite orb_true_r.
Qed.

End Evaluate.

(** ** Insertion sort meets the interface *)

Lemma insert_desc_perm (x : double * bool) (l : list (double * bool)) :
  insert_desc x l ≡ₚ x :: l.
Proof.
  induction l as [|y l IH]; [done|]. simpl.
  destruct (by_score_desc x y); [done|]. rewrite IH. apply Permutation_swap.
Qed.

Lemma insertion_sort_perm (l : list (double * bool)) : insertion_sort l ≡ₚ l.
Proof.
  induction l as [|x l IH]; [done|]. simpl.
  by rewrite insert_desc_perm, IH.
Qed.

Lemma insert_desc_sorted (x : double * bool) (l : list (double * bool)) :
  is_nan x.1 = false → no_nan l →
  StronglySorted (λ a b, by_score_desc b a = false) l →
  StronglySorted (λ a b, by_score_desc b a = false) (insert_desc x l).
Proof.
  intros Hx Hnan Hsorted. induction Hsorted as [|y l Hsorted IH Hhd].
  - by repeat constructor.
  - apply Forall_cons in Hnan as [Hy Hnan]. simpl.
    destruct (by_score_desc x y) eqn:Hxy.
    + constructor; [by constructor|].
      unfold by_score_desc, dgt in *. apply Forall_cons. split.
      * by apply dlt_asymm.
      * eapply Forall_impl; [exact Hhd|]. intros z Hz. cbn beta in Hz.
        apply (dlt_false_trans _ y.1); [done| |done]. by apply dlt_asymm.
    + constructor; [by apply IH|].
      rewrite insert_desc_perm. by apply Forall_cons.
Qed.

Lemma insertion_sort_sorted (l : list (double * bool)) :
  no_nan l →
  StronglySorted (λ a b, by_score_desc b a = false) (insertion_sort l).
Proof.
  induction l as [|x l IH]; intros Hnan; [constructor|].
  apply Forall_cons in Hnan as [Hx Hnan]. simpl.
  apply insert_desc_sorted; [done| |by apply IH].
  unfold no_nan. by rewrite insertion_sort_perm.
Qed.

Global Instance insertion_sort_std : StdSort := {|
  std_sort := insertion_sort;
  std_sort_perm l _ := insertion_sort_perm l;
  std_sort_sorted := insertion_sort_sorted
|}.

(** * The examples of the specification, run *)

Example example2_confusion :
  calculateConfusionMatrix example2_scores example2_labels half
  = Some (2, 1, 0, 0)%Z.
Proof. reflexivity. Qed.

Example example2_metrics :
  ∃ m, calculateMetrics (2, 1, 0, 0)%Z = Some m
       ∧ m !! "precision" = Some (Fin (Q2Qc (2 # 3)))
       ∧ m !! "recall" = Some d_one
       ∧ m !! "specificity" = Some d_zero.
Proof. eexists. split; [reflexivity|]. repeat split; compute_done. Qed.

Example example1_auc :
  fst <$> saveRocDataToCSV true example1_scores example1_labels "MyAlgorithm"
            "TestDataset"
  = Some (Fin (Q2Qc (19 # 25))).
Proof. compute_done. Qed.

(** C1, counterexample: with the labels all true, the ROC stage reports
    the degenerate label set, yet evaluateAlgorithm returns the full map of
    metrics with auc = 0.0 and no error marker. *)
Lemma degenerate_labels_counterexample :
  evaluateAlgorithm true example2_scores example4_labels "alg" "data" half
  = Some (example4_results,
          [Cerr degenerate_msg; CoutResults example4_results true])
  ∧ example4_results !! "error" = None
  ∧ example4_results !! "accuracy" = Some d_one
  ∧ example4_results !! "auc" = Some d_zero
  ∧ ¬ (∃ events,
         evaluateAlgorithm true example2_scores example4_labels "alg" "data"
           half = Some ({["error" := d_one]}, events)).
Proof.
  assert (evaluateAlgorithm true example2_scores example4_labels "alg" "data"
            half
          = Some (example4_results,
                  [Cerr degenerate_msg; CoutResults example4_results true]))
    as Heval by compute_done.
  repeat split; try compute_done.
  intros [events Herr].
  assert (example4_results = {["error" := d_one]}) as Hmap by congruence.
  apply (f_equal (λ m : gmap string double, m !! "auc")) in Hmap.
  by vm_compute in Hmap.
Qed.

(** C9, counterexample: three samples with the score 1.0 and both classes
    give the rows (DBL_MAX,0,0), (DBL_MAX,0,0), (1,1,1); the second row
    carries DBL_MAX, not the score. *)
Lemma constant_score_counterexample :
  saveRocDataToCSV true example2_scores example2_labels "alg" "data"
  = Some (half,
          [CsvFile "ROC_CSV/alg_data_roc.csv" example2_roc_rows;
           CoutRocSaved "ROC_CSV/alg_data_roc.csv"; CoutAuc half])
  ∧ example2_roc_rows !! 1%nat = Some (RocPoint DBL_MAX d_zero d_zero)
  ∧ example2_roc_rows ≠
      [RocPoint DBL_MAX d_zero d_zero; RocPoint d_one d_zero d_zero;
       RocPoint d_one d_one d_one].
Proof. repeat split; compute_done. Qed.

(** * The theorems at concrete inputs *)

(** C1, amended, at three samples that are all positive. *)
Lemma degenerate_labels_not_propagated_witness :
  saveRocDataToCSV true example2_scores example4_labels "alg" "data" =
    Some (d_zero, [Cerr degenerate_msg])
  ∧ ∃ tp fp tn fn : Z,
      let used := resolved_threshold example2_scores example4_labels half in
      let results :=
        <["auc" := d_zero]>
          (<["threshold" := used]> (metrics_record tp fp tn fn)) in
      calculateConfusionMatrix example2_scores example4_labels used
        = Some (tp, fp, tn, fn)
      ∧ evaluateAlgorithm true example2_scores example4_labels "alg" "data"
          half =
          Some (results, [Cerr degenerate_msg; CoutResults results true])
      ∧ results !! "error" = None
      ∧ results !! "auc" = Some d_zero.
Proof.
  apply (degenerate_labels_not_propagated true example2_scores
           example4_labels "alg" "data" half true); compute_done.
Defined.

(** C2 at the usage example of the source. *)
Lemma roc_curve_invariants_witness :
  ∃ (rows : list roc_point) (auc : double),
    saveRocDataToCSV true example1_scores example1_labels "MyAlgorithm"
      "TestDataset" =
      Some (auc, [CsvFile (roc_filename "MyAlgorithm" "TestDataset") rows;
                  CoutRocSaved (roc_filename "MyAlgorithm" "TestDataset");
                  CoutAuc auc])
    ∧ head rows = Some (RocPoint DBL_MAX d_zero d_zero)
    ∧ (∃ m : double,
         last rows = Some (RocPoint m d_one d_one)
         ∧ m ∈ example1_scores ∧ ∀ s, s ∈ example1_scores → dle m s = true)
    ∧ (∀ i p q, rows !! i = Some p → rows !! S i = Some q →
         dle (fpr p) (fpr q) = true ∧ dle (tpr p) (tpr q) = true)
    ∧ (∀ p, p ∈ rows →
         dle d_zero (fpr p) = true ∧ dle (fpr p) d_one = true
         ∧ dle d_zero (tpr p) = true ∧ dle (tpr p) d_one = true).
Proof.
  apply (roc_curve_invariants example1_scores example1_labels); compute_done.
Defined.

(** C3 at the usage example of the source. *)
Lemma auc_trapezoid_unit_witness :
  ∃ (rows : list roc_point) (auc : double),
    saveRocDataToCSV true example1_scores example1_labels "MyAlgorithm"
      "TestDataset" =
      Some (auc, [CsvFile (roc_filename "MyAlgorithm" "TestDataset") rows;
                  CoutRocSaved (roc_filename "MyAlgorithm" "TestDataset");
                  CoutAuc auc])
    ∧ (∀ file_ok, ∃ events,
         saveRocDataToCSV file_ok example1_scores example1_labels
           "MyAlgorithm" "TestDataset" = Some (auc, events))
    ∧ auc = trapezoid_sum rows
    ∧ dle d_zero auc = true ∧ dle auc d_one = true.
Proof.
  apply (auc_trapezoid_unit example1_scores example1_labels); compute_done.
Defined.

(** C4 at the counts TP=2, FP=1, TN=0, FN=0. *)
Lemma calculateMetrics_spec_witness :
  ∃ m : gmap string double,
    calculateMetrics (2, 1, 0, 0)%Z = Some m
    ∧ m !! "true_positives" = Some (of_int 2)
    ∧ m !! "false_positives" = Some (of_int 1)
    ∧ m !! "true_negatives" = Some (of_int 0)
    ∧ m !! "false_negatives" = Some (of_int 0)
    ∧ m !! "accuracy" = Some (Fin (ratio (2 + 0) (2 + 1 + 0 + 0)))
    ∧ m !! "precision" = Some (Fin (ratio 2 (2 + 1)))
    ∧ m !! "recall" = Some (Fin (ratio 2 (2 + 0)))
    ∧ m !! "specificity" = Some (Fin (ratio 0 (0 + 1)))
    ∧ m !! "f1_score" = Some (Fin (f1_of (ratio 2 (2 + 1)) (ratio 2 (2 + 0))))
    ∧ (∀ k, k ∈ ratio_keys →
         ∃ q : Qc, m !! k = Some (Fin q) ∧ (0 ≤ q)%Qc ∧ (q ≤ 1)%Qc)
    ∧ map_Forall (λ _ v, is_finite v = true) m.
Proof. apply (calculateMetrics_spec 2 1 0 0); unfold INT_MAX; lia. Defined.

(** C5 at three samples whose score is the threshold. *)
Lemma confusion_matrix_strict_threshold_witness :
  calculateConfusionMatrix example2_scores example2_labels d_one =
    Some (tally (λ s l, l && dgt s d_one) example2_scores example2_labels,
          tally (λ s l, negb l && dgt s d_one) example2_scores example2_labels,
          tally (λ s l, negb l && negb (dgt s d_one)) example2_scores
            example2_labels,
          tally (λ s l, l && negb (dgt s d_one)) example2_scores
            example2_labels)
  ∧ (∀ s l, (s, l) ∈ zip example2_scores example2_labels →
       deq s d_one = true →
       dgt s d_one = false
       ∧ calculateConfusionMatrix [s] [l] d_one =
           Some (0, 0, if l then 0 else 1, if l then 1 else 0)%Z).
Proof.
  apply (confusion_matrix_strict_threshold example2_scores example2_labels
           d_one); [reflexivity|unfold INT_MAX; simpl; lia].
Defined.

(** C6 at three samples and the threshold 0.5. *)
Lemma confusion_matrix_total_witness :
  ∃ tp fp tn fn : Z,
    calculateConfusionMatrix example2_scores example2_labels half
      = Some (tp, fp, tn, fn)
    ∧ (0 ≤ tp)%Z ∧ (0 ≤ fp)%Z ∧ (0 ≤ tn)%Z ∧ (0 ≤ fn)%Z
    ∧ (tp + fp + tn + fn)%Z = Z.of_nat (length example2_scores).
Proof.
  apply (confusion_matrix_total example2_scores example2_labels half);
    [reflexivity|unfold INT_MAX; simpl; lia].
Defined.


(** C8 at three scores and two labels. *)
Lemma invalid_input_rejected_witness :
  evaluateAlgorithm true example2_scores [true; false] "alg" "data" half =
  Some ({["error" := d_one]}, [Cerr invalid_input_msg]).
Proof.
  apply (invalid_input_rejected true example2_scores [true; false]).
  left. compute_done.
Defined.

(** C9, amended, at three samples with the score 1.0. *)
Lemma constant_score_curve_witness :
  ∃ (rows : list roc_point) (auc : double),
    saveRocDataToCSV true example2_scores example2_labels "alg" "data" =
      Some (auc, [CsvFile (roc_filename "alg" "data") rows;
                  CoutRocSaved (roc_filename "alg" "data");
                  CoutAuc auc])
    ∧ rows =
        (if decide (d_one = DBL_MAX)
         then [RocPoint DBL_MAX d_zero d_zero; RocPoint DBL_MAX d_one d_one]
         else [RocPoint DBL_MAX d_zero d_zero; RocPoint DBL_MAX d_zero d_zero;
               RocPoint d_one d_one d_one])
    ∧ Forall (λ p, is_finite (fpr p) = true ∧ is_finite (tpr p) = true) rows.
Proof.
  apply (constant_score_curve d_one example2_scores example2_labels);
    compute_done.
Defined.

(** C10 at the usage example of the source. *)
Lemma roc_curve_leading_pair_and_size_witness :
  ∃ (rows : list roc_point) (auc : double),
    saveRocDataToCSV true example1_scores example1_labels "MyAlgorithm"
      "TestDataset" =
      Some (auc, [CsvFile (roc_filename "MyAlgorithm" "TestDataset") rows;
                  CoutRocSaved (roc_filename "MyAlgorithm" "TestDataset");
                  CoutAuc auc])
    ∧ rows !! 0%nat = Some (RocPoint DBL_MAX d_zero d_zero)
    ∧ rows !! 1%nat = Some (RocPoint DBL_MAX d_zero d_zero)
    ∧ length rows = (length (remove_dups example1_scores) + 2)%nat.
Proof.
  apply (roc_curve_leading_pair_and_size example1_scores example1_labels);
    compute_done.
Defined.

(** * Further properties of the code *)

(** ** readCSV: reading the segments of a text *)

Lemma string_app_assoc (a b c : string) : (a +:+ b) +:+ c = a +:+ (b +:+ c).
Proof.
  induction a as [|ch a IH]; [done|].
  change (String ch ((a +:+ b) +:+ c) = String ch (a +:+ (b +:+ c))).
  by f_equal.
Qed.

Lemma string_app_nil_r (a : string) : a +:+ EmptyString = a.
Proof.
  induction a as [|ch a IH]; [done|].
  change (String ch (a +:+ EmptyString) = String ch a). by f_equal.
Qed.

Lemma extract_until_length (delim : ascii) (unread : string) :
  (String.length (extract_until delim unread).2 ≤ String.length unread)%nat.
Proof.
  induction unread as [|c rest IH]; [done|]. simpl.
  destruct (Ascii.eqb c delim); [simpl; lia|].
  destruct (extract_until delim rest) as [x rest']. simpl in *. lia.
Qed.

Lemma extract_until_consumes (delim : ascii) (c : ascii) (rest : string) :
  (String.length (extract_until delim (String c rest)).2 ≤ String.length rest)%nat.
Proof.
  pose proof (extract_until_length delim rest). simpl.
  destruct (Ascii.eqb c delim); [done|].
  by destruct (extract_until delim rest).
Qed.

(** The segments, one [getline] after the other. *)
Lemma split_on_getline (delim : ascii) (c : ascii) (unread : string) :
  split_on delim (String c unread) =
  (extract_until delim (String c unread)).1
  :: split_on delim (extract_until delim (String c unread)).2.
Proof.
  revert c. induction unread as [|c' rest IH]; intros c.
  - simpl. by destruct (Ascii.eqb c delim).
  - change (split_on delim (String c (String c' rest)))
      with (if Ascii.eqb c delim
            then EmptyString :: split_on delim (String c' rest)
            else match split_on delim (String c' rest) with
                 | [] => [String c EmptyString]
                 | x :: segments => String c x :: segments
                 end).
    change (extract_until delim (String c (String c' rest)))
      with (if Ascii.eqb c delim then (EmptyString, String c' rest)
            else let '(x, rest') := extract_until delim (String c' rest) in
                 (String c x, rest')).
    destruct (Ascii.eqb c delim); [done|].
    rewrite (IH c').
    by destruct (extract_until delim (String c' rest)) as [x rest'].
Qed.

(** With enough fuel the loop runs its body on every segment, in order. *)
Lemma while_getline_split {A : Type} (fuel : nat) (delim : ascii)
    (unread : string) (body : string → A → A) (acc : A) :
  (String.length unread ≤ fuel)%nat →
  while_getline fuel delim unread body acc =
  foldl (λ acc x, body x acc) acc (split_on delim unread).
Proof.
  revert unread acc. induction fuel as [|fuel IH]; intros unread acc Hfuel.
  - destruct unread; [done|simpl in Hfuel; lia].
  - destruct unread as [|c rest]; [done|].
    rewrite split_on_getline. cbn [while_getline getline foldl].
    pose proof (extract_until_consumes delim c rest) as Hlen.
    destruct (extract_until delim (String c rest)) as [x rest'] eqn:Hx.
    cbn [fst snd] in *. apply IH. simpl in Hfuel. lia.
Qed.

Lemma foldl_snoc {A : Type} (acc l : list A) :
  foldl (λ acc x, acc ++ [x]) acc l = acc ++ l.
Proof.
  revert acc. induction l as [|x l IH]; intros acc; simpl.
  - by rewrite app_nil_r.
  - by rewrite IH, <- app_assoc.
Qed.

Lemma parse_line_split (line : string) : parse_line line = split_on comma line.
Proof.
  unfold parse_line. rewrite while_getline_split by done.
  apply (foldl_snoc []).
Qed.

Lemma push_line_fold (lines : list string) (data : list (list string)) :
  foldl (λ data line, push_line line data) data lines =
  data ++ nonempty_rows lines.
Proof.
  revert data. induction lines as [|line lines IH]; intros data.
  - by rewrite app_nil_r.
  - cbn [foldl]. rewrite IH. unfold nonempty_rows, push_line.
    rewrite fmap_cons, filter_cons, parse_line_split.
    destruct (split_on comma line) as [|cell row].
    + by rewrite decide_False by (by intros []).
    + rewrite decide_True by done. by rewrite <- app_assoc.
Qed.

Lemma read_table_lines (headerRow : bool) (file : string) :
  read_table headerRow file =
  nonempty_rows (if headerRow then tail (split_on newline file)
                 else split_on newline file).
Proof.
  unfold read_table. rewrite while_getline_split by done.
  rewrite (push_line_fold _ []). cbn [app]. f_equal.
  destruct headerRow; [|done].
  destruct file as [|c rest]; [done|].
  rewrite (split_on_getline newline c rest). cbn [getline tail].
  by destruct (extract_until newline (String c rest)).
Qed.

Lemma split_on_free (delim : ascii) (text : string) :
  Forall (λ x, occurs delim x = false) (split_on delim text).
Proof.
  induction text as [|c rest IH]; [constructor|]. simpl.
  destruct (Ascii.eqb c delim) eqn:Hc; [by constructor|].
  destruct (split_on delim rest) as [|x segments].
  - constructor; [|done]. simpl. by rewrite Hc.
  - inversion_clear IH. constructor; [|done]. simpl. by rewrite Hc.
Qed.

Lemma split_on_occurs (delim c : ascii) (text : string) :
  occurs c text = false →
  Forall (λ x, occurs c x = false) (split_on delim text).
Proof.
  induction text as [|c' rest IH]; [constructor|]. simpl.
  intros [Hc Hrest]%orb_false_elim. specialize (IH Hrest).
  destruct (Ascii.eqb c' delim); [by constructor|].
  destruct (split_on delim rest) as [|x segments].
  - constructor; [|done]. simpl. by rewrite Hc.
  - inversion_clear IH. constructor; [|done]. simpl. by rewrite Hc.
Qed.

Lemma split_on_app_delim (delim : ascii) (x rest : string) :
  occurs delim x = false →
  split_on delim (x +:+ String delim rest) = x :: split_on delim rest.
Proof.
  induction x as [|c x IH]; simpl.
  - intros _. by rewrite Ascii.eqb_refl.
  - intros [Hc Hx]%orb_false_elim. rewrite Hc, (IH Hx). done.
Qed.

Lemma split_on_single (delim : ascii) (x : string) :
  occurs delim x = false → x ≠ EmptyString → split_on delim x = [x].
Proof.
  induction x as [|c x IH]; [done|]. simpl.
  intros [Hc Hx]%orb_false_elim _. rewrite Hc.
  destruct x as [|c' x]; [done|]. by rewrite IH.
Qed.

Lemma split_on_join (delim : ascii) (segments : list string) (x : string) :
  Forall (λ x, occurs delim x = false) segments →
  last segments = Some x → x ≠ EmptyString →
  split_on delim (join delim segments) = segments.
Proof.
  induction segments as [|y [|z segments] IH]; intros Hfree Hlast Hx; [done| |].
  - simplify_eq/=. inversion_clear Hfree. by apply split_on_single.
  - inversion_clear Hfree.
    change (join delim (y :: z :: segments))
      with (y +:+ String delim (join delim (z :: segments))).
    rewrite split_on_app_delim by done. f_equal.
    apply IH; [done| |done]. by rewrite last_cons_cons in Hlast.
Qed.

Lemma split_on_join_closed (delim : ascii) (segments : list string) :
  Forall (λ x, occurs delim x = false) segments → segments ≠ [] →
  split_on delim (join delim segments +:+ String delim EmptyString) = segments.
Proof.
  induction segments as [|y [|z segments] IH]; intros Hfree Hne; [done| |].
  - inversion_clear Hfree. cbn [join]. by rewrite split_on_app_delim.
  - inversion_clear Hfree.
    change (join delim (y :: z :: segments))
      with (y +:+ String delim (join delim (z :: segments))).
    rewrite string_app_assoc.
    change (String delim (join delim (z :: segments)) +:+ String delim EmptyString)
      with (String delim (join delim (z :: segments) +:+ String delim EmptyString)).
    rewrite split_on_app_delim by done. f_equal. by apply IH.
Qed.

Lemma occurs_app (c : ascii) (x y : string) :
  occurs c (x +:+ y) = occurs c x || occurs c y.
Proof.
  induction x as [|c' x IH]; [done|]. simpl. by rewrite IH, orb_assoc.
Qed.

Lemma occurs_join (c sep : ascii) (segments : list string) :
  Ascii.eqb sep c = false →
  Forall (λ x, occurs c x = false) segments →
  occurs c (join sep segments) = false.
Proof.
  intros Hsep. induction segments as [|y [|z segments] IH]; intros Hfree.
  - done.
  - by inversion_clear Hfree.
  - inversion_clear Hfree.
    change (join sep (y :: z :: segments))
      with (y +:+ String sep (join sep (z :: segments))).
    rewrite occurs_app. cbn [occurs]. rewrite Hsep, IH by done.
    by rewrite orb_false_r.
Qed.

Lemma join_nonempty (sep : ascii) (segments : list string) (x : string) :
  last segments = Some x → x ≠ EmptyString →
  join sep segments ≠ EmptyString.
Proof.
  induction segments as [|y [|z segments] IH]; intros Hlast Hx; [done| |].
  - by simplify_eq/=.
  - change (join sep (y :: z :: segments))
      with (y +:+ String sep (join sep (z :: segments))).
    by destruct y.
Qed.

Lemma plain_row_elim (row : list string) :
  plain_row row = true →
  Forall (λ cell, occurs comma cell = false) row
  ∧ Forall (λ cell, occurs newline cell = false) row
  ∧ ∃ cell, last row = Some cell ∧ cell ≠ EmptyString.
Proof.
  unfold plain_row. intros [Hcells Hlast]%andb_true_iff.
  rewrite forallb_forall in Hcells. split_and!.
  - apply Forall_forall. intros cell Hin%list_elem_of_In.
    apply Hcells in Hin. by destruct (occurs comma cell).
  - apply Forall_forall. intros cell Hin%list_elem_of_In.
    apply Hcells in Hin. destruct (occurs newline cell); [|done].
    by rewrite andb_false_r in Hin.
  - destruct (last row) as [cell|]; [|done]. exists cell. split; [done|].
    intros ->. done.
Qed.

(** The rows of the lines of a plain table are the table. *)
Lemma nonempty_rows_plain (table : list (list string)) :
  forallb plain_row table = true →
  nonempty_rows (join comma <$> table) = table.
Proof.
  unfold nonempty_rows. induction table as [|row table IH]; [done|].
  cbn [forallb]. intros [Hrow Htable]%andb_true_iff.
  destruct (plain_row_elim row Hrow) as (Hfree & _ & cell & Hlast & Hcell).
  rewrite !fmap_cons, filter_cons.
  rewrite (split_on_join comma row cell) by done.
  rewrite decide_True by (by intros ->). by rewrite IH.
Qed.

Lemma plain_lines (table : list (list string)) :
  forallb plain_row table = true →
  Forall (λ x, occurs newline x = false) (join comma <$> table).
Proof.
  induction table as [|row table IH]; [constructor|].
  cbn [forallb]. intros [Hrow Htable]%andb_true_iff.
  destruct (plain_row_elim row Hrow) as (_ & Hfree & _).
  rewrite fmap_cons. constructor; [|by apply IH].
  by apply occurs_join.
Qed.

Lemma plain_lines_last (table : list (list string)) (row : list string) :
  forallb plain_row table = true → last table = Some row →
  join comma row ≠ EmptyString.
Proof.
  intros Htable Hlast.
  assert (plain_row row = true) as Hrow.
  { rewrite forallb_forall in Htable. apply Htable, list_elem_of_In.
    by apply last_Some_elem_of. }
  destruct (plain_row_elim row Hrow) as (_ & _ & cell & Hcell & Hne).
  by eapply join_nonempty.
Qed.

(** The lines of the text of a plain table, with or without a closing
    newline. *)
Lemma csv_text_lines (table : list (list string)) (closed : bool) :
  forallb plain_row table = true →
  nonempty_rows
    (split_on newline
       (csv_text table +:+ (if closed then String newline EmptyString
                            else EmptyString))) = table.
Proof.
  intros Htable. destruct table as [|row0 table0] eqn:Htab.
  { by destruct closed. }
  rewrite <- Htab in *. assert (table ≠ []) as Hne by (by rewrite Htab).
  clear Htab. unfold csv_text.
  destruct closed.
  - rewrite split_on_join_closed; [by apply nonempty_rows_plain|by apply plain_lines|].
    by destruct table.
  - rewrite string_app_nil_r. destruct (last table) as [row|] eqn:Hlast.
    + rewrite (split_on_join newline _ (join comma row)).
      * by apply nonempty_rows_plain.
      * by apply plain_lines.
      * by rewrite fmap_last, Hlast.
      * by eapply plain_lines_last.
    + by apply last_None in Hlast.
Qed.

(** X1: readCSV reads back the text of a table.  When the rows are not
    empty, no cell contains a comma or a newline and no row ends with an
    empty cell, the file that holds the rows joined by newlines and their
    cells by commas, with or without a header line (skipped when [headerRow]
    is set) and with or without a closing newline, is read as exactly this
    table, and the number of rows is reported on the standard output. *)
Theorem readCSV_round_trip (fs : string → option string)
    (filename header : string) (headerRow closed : bool)
    (table : list (list string)) :
  occurs newline header = false →
  forallb plain_row table = true →
  table ≠ [] →
  fs filename =
    Some ((if headerRow then header +:+ String newline EmptyString
           else EmptyString)
          +:+ csv_text table
          +:+ (if closed then String newline EmptyString else EmptyString)) →
  readCSV fs headerRow filename =
    (table, [(StdOut, [Str "Successfully read ";
                       Num (Z.of_nat (length table));
                       Str " samples from "; Str filename; Endl])]).
Proof.
  intros Hheader Htable Hne Hfile. unfold readCSV. rewrite Hfile.
  set (text := csv_text table +:+ _).
  assert (read_table headerRow
            ((if headerRow then header +:+ String newline EmptyString
              else EmptyString) +:+ text) = table) as ->.
  { rewrite read_table_lines. destruct headerRow.
    - rewrite string_app_assoc.
      change (String newline EmptyString +:+ text) with (String newline text).
      rewrite split_on_app_delim by done. cbn [tail].
      by apply csv_text_lines.
    - change (EmptyString +:+ text) with text. by apply csv_text_lines. }
  by destruct table.
Qed.

Lemma readCSV_data (fs : string → option string) (headerRow : bool)
    (filename : string) :
  (readCSV fs headerRow filename).1 =
  match fs filename with
  | None => []
  | Some file => read_table headerRow file
  end.
Proof.
  unfold readCSV. destruct (fs filename) as [file|]; [|done].
  by destruct (read_table headerRow file).
Qed.

(** X2: whatever the file holds, every row readCSV returns has at least one
    cell, and no cell of it contains a comma or a newline. *)
Theorem readCSV_rows_well_formed (fs : string → option string)
    (headerRow : bool) (filename : string) (row : list string) :
  row ∈ (readCSV fs headerRow filename).1 →
  row ≠ []
  ∧ Forall (λ cell, occurs comma cell = false ∧ occurs newline cell = false)
      row.
Proof.
  rewrite readCSV_data. destruct (fs filename) as [file|]; [|by intros ?%elem_of_nil].
  rewrite read_table_lines. unfold nonempty_rows.
  intros [Hne (line & -> & Hline)%list_elem_of_fmap]%list_elem_of_filter.
  split; [done|].
  assert (occurs newline line = false) as Hfree.
  { pose proof (split_on_free newline file) as Hall.
    rewrite Forall_forall in Hall. apply Hall.
    destruct headerRow; [|done].
    destruct (split_on newline file); [done|]. by apply list_elem_of_further. }
  pose proof (split_on_free comma line) as Hc.
  pose proof (split_on_occurs comma newline line Hfree) as Hn.
  rewrite Forall_forall in Hc, Hn. apply Forall_forall.
  intros cell Hcell. split; [by apply Hc|by apply Hn].
Qed.

(** X3: reading a file with [headerRow] set gives the same table and the
    same message as reading, without it, the file that lacks the first
    line. *)
Theorem readCSV_header_skipped (fs1 fs2 : string → option string)
    (filename header body : string) :
  occurs newline header = false →
  fs1 filename = Some (header +:+ String newline body) →
  fs2 filename = Some body →
  readCSV fs1 true filename = readCSV fs2 false filename.
Proof.
  intros Hheader H1 H2. unfold readCSV. rewrite H1, H2.
  assert (read_table true (header +:+ String newline body) =
          read_table false body) as ->; [|done].
  rewrite !read_table_lines. by rewrite split_on_app_delim.
Qed.

Lemma split_on_app (delim : ascii) (before : string) :
  ∃ segments, segments ≠ [] ∧
    ∀ rest, split_on delim (before +:+ String delim rest) =
            segments ++ split_on delim rest.
Proof.
  induction before as [|c before (segments & Hne & IH)].
  - exists [EmptyString]. split; [done|]. intros rest.
    change (EmptyString +:+ String delim rest) with (String delim rest).
    simpl. by rewrite Ascii.eqb_refl.
  - destruct (Ascii.eqb c delim) eqn:Hc.
    + exists (EmptyString :: segments). split; [done|]. intros rest.
      change (String c before +:+ String delim rest)
        with (String c (before +:+ String delim rest)).
      cbn [split_on]. by rewrite Hc, IH.
    + destruct segments as [|x segments]; [done|].
      exists (String c x :: segments). split; [done|]. intros rest.
      change (String c before +:+ String delim rest)
        with (String c (before +:+ String delim rest)).
      cbn [split_on]. by rewrite Hc, IH.
Qed.

Lemma nonempty_rows_blank (lines1 lines2 : list string) :
  nonempty_rows (lines1 ++ EmptyString :: lines2) =
  nonempty_rows (lines1 ++ lines2).
Proof.
  unfold nonempty_rows. rewrite !fmap_app, !filter_app, fmap_cons, filter_cons.
  by rewrite decide_False by (by intros []).
Qed.


Lemma join_snoc (sep : ascii) (segments : list string) (x : string) :
  segments ≠ [] →
  join sep (segments ++ [x]) = join sep segments +:+ String sep x.
Proof.
  induction segments as [|y [|z segments] IH]; intros Hne; [done|done|].
  change (join sep ((y :: z :: segments) ++ [x]))
    with (y +:+ String sep (join sep ((z :: segments) ++ [x]))).
  rewrite IH by done.
  change (join sep (y :: z :: segments))
    with (y +:+ String sep (join sep (z :: segments))).
  by rewrite string_app_assoc.
Qed.

(** X5: an empty cell at the end of a line is lost: the line of a row
    followed by an empty cell, which ends with a comma, is read as the row
    without that cell. *)
Theorem readCSV_trailing_empty_cell_dropped (fs : string → option string)
    (filename : string) (row : list string) :
  plain_row row = true →
  fs filename = Some (join comma (row ++ [EmptyString])) →
  (readCSV fs false filename).1 = [row].
Proof.
  intros Hrow Hfile. rewrite readCSV_data, Hfile, read_table_lines.
  destruct (plain_row_elim row Hrow) as (Hcomma & Hnl & cell & Hlast & Hcell).
  assert (row ≠ []) as Hne by (by intros ->).
  rewrite join_snoc by done.
  rewrite split_on_single.
  - unfold nonempty_rows. cbn [fmap list_fmap].
    rewrite split_on_join_closed by done.
    rewrite filter_cons, decide_True by done. done.
  - rewrite occurs_app, occurs_join by done. done.
  - pose proof (join_nonempty comma row cell Hlast Hcell).
    by destruct (join comma row).
Qed.

(** ** printEvaluationResults *)

Lemma print_metric_ext (results results' : gmap string double)
    (showPercentages : bool) (metric : string) (out : list item) :
  results' !! metric = results !! metric →
  print_metric results' showPercentages metric out =
  print_metric results showPercentages metric out.
Proof. intros Heq. unfold print_metric, count_key. by rewrite Heq. Qed.

Lemma printEvaluationResults_ext (results results' : gmap string double)
    (showPercentages : bool) :
  (∀ key, key ∈ printed_keys → results' !! key = results !! key) →
  printEvaluationResults results' showPercentages =
  printEvaluationResults results showPercentages.
Proof.
  intros Heq. unfold printEvaluationResults, count_key.
  rewrite !(Heq "threshold"), !(Heq "true_positives"),
    !(Heq "false_positives"), !(Heq "true_negatives"),
    !(Heq "false_negatives") by compute_done.
  apply option_bind_ext; [intros out1|done].
  apply option_bind_ext; [intros out2|done].
  apply option_bind_ext; [done|].
  unfold metricsToShow. cbn [foldl mbind option_bind].
  repeat (apply option_bind_ext;
          [intros ?; apply print_metric_ext, Heq; compute_done|]).
  apply print_metric_ext, Heq; compute_done.
Qed.

(** X6: printEvaluationResults prints the same for two maps that differ in
    a key other than the ten it looks up; in particular it never prints the
    AUC. *)
Theorem printEvaluationResults_ignores_other_keys
    (results : gmap string double) (showPercentages : bool)
    (key : string) (value : double) :
  key ∉ printed_keys →
  printEvaluationResults (<[key := value]> results) showPercentages =
  printEvaluationResults results showPercentages.
Proof.
  intros Hkey. apply printEvaluationResults_ext. intros k Hk.
  apply lookup_insert_ne. by intros ->.
Qed.

(** X8: for a map with none of the ten keys, such as the map
    evaluateAlgorithm returns for an invalid input, printEvaluationResults
    prints the two headers and the closing line and nothing else. *)
Theorem printEvaluationResults_no_known_key
    (results : gmap string double) (showPercentages : bool) :
  Forall (λ key, results !! key = None) printed_keys →
  printEvaluationResults results showPercentages =
  Some [Str results_header; Str metrics_header; Str results_footer].
Proof.
  intros Hnone.
  rewrite (printEvaluationResults_ext ∅ results); [by destruct showPercentages|].
  intros key Hkey. rewrite Forall_forall in Hnone.
  by rewrite Hnone, lookup_empty.
Qed.

Lemma to_int_of_int (z : Z) :
  (INT_MIN ≤ z ≤ INT_MAX)%Z → to_int (of_int z) = Some z.
Proof.
  intros Hz. unfold to_int, of_int, Qc_of_Z. cbn [this Q2Qc].
  cbn [Qnum Qden inject_Z]. rewrite Z.quot_1_r.
  by rewrite bool_decide_eq_true_2.
Qed.

Ltac lookup_inserted :=
  repeat (rewrite lookup_insert_ne by done); rewrite lookup_insert_eq.

(** The report of a result of evaluateAlgorithm. *)
Lemma printEvaluationResults_record (tp fp tn fn : Z) (used auc : double) :
  (INT_MIN ≤ tp ≤ INT_MAX)%Z → (INT_MIN ≤ fp ≤ INT_MAX)%Z →
  (INT_MIN ≤ tn ≤ INT_MAX)%Z → (INT_MIN ≤ fn ≤ INT_MAX)%Z →
  let results :=
    <["auc" := auc]> (<["threshold" := used]> (metrics_record tp fp tn fn)) in
  printEvaluationResults results true =
  Some ([Str results_header; Str "Threshold: "; Dbl used; Endl;
         Str confusion_header;
         Str "TP: "; Num tp; Str tab; Str "FP: "; Num fp; Str nl;
         Str "FN: "; Num fn; Str tab; Str "TN: "; Num tn; Str nl;
         Str metrics_header]
        ++ flat_map (λ metric,
                       [Str metric; Str ": ";
                        Dbl (map_at results metric * of_int 100)%D;
                        Str "%"; Endl]) metricsToShow
        ++ [Str results_footer]).
Proof.
  intros Htp Hfp Htn Hfn results.
  assert (results !! "threshold" = Some used) as Ht
    by (unfold results, metrics_record; lookup_inserted; done).
  assert (results !! "true_positives" = Some (of_int tp)) as H1
    by (unfold results, metrics_record; lookup_inserted; done).
  assert (results !! "false_positives" = Some (of_int fp)) as H2
    by (unfold results, metrics_record; lookup_inserted; done).
  assert (results !! "true_negatives" = Some (of_int tn)) as H3
    by (unfold results, metrics_record; lookup_inserted; done).
  assert (results !! "false_negatives" = Some (of_int fn)) as H4
    by (unfold results, metrics_record; lookup_inserted; done).
  assert (∀ metric, metric ∈ metricsToShow → ∃ value,
            results !! metric = Some value) as Hm.
  { intros metric Hin. unfold metricsToShow in Hin.
    repeat (apply elem_of_cons in Hin as [->|Hin]);
      [unfold results, metrics_record; lookup_inserted; by eexists..|].
    by apply elem_of_nil in Hin. }
  assert (∀ metric out, metric ∈ metricsToShow →
            print_metric results true metric out =
            Some (out ++ [Str metric; Str ": ";
                          Dbl (map_at results metric * of_int 100)%D;
                          Str "%"; Endl])) as Hprint.
  { intros metric out Hin. destruct (Hm metric Hin) as [value Hvalue].
    unfold print_metric, count_key, map_at. rewrite Hvalue.
    rewrite bool_decide_eq_true_2 by done.
    rewrite bool_decide_eq_true_2.
    - cbn. by rewrite <- !app_assoc.
    - intros ->. revert Hin. compute_done. }
  unfold printEvaluationResults, count_key.
  rewrite Ht, H1, H2, H3, H4. rewrite !bool_decide_eq_true_2 by done.
  cbn [andb mbind option_bind].
  rewrite !to_int_of_int by done. cbn [mbind option_bind].
  unfold metricsToShow. cbn [foldl mbind option_bind flat_map].
  rewrite !Hprint by compute_done. cbn [mbind option_bind].
  rewrite !Hprint by compute_done. cbn [mbind option_bind].
  by rewrite <- !app_assoc.
Qed.

Section Summary.
Context `{Sort : StdSort}.

(** X7: the summary evaluateAlgorithm prints on a valid input: the
    threshold used, the four counts of the confusion matrix as integers,
    the five ratios as percentages, and no AUC. *)
Theorem evaluateAlgorithm_summary_printed (file_ok : bool)
    (scores : list double) (labels : list bool)
    (algorithm_name dataset_name : string) (threshold : double) :
  length scores = length labels → scores ≠ [] →
  (Z.of_nat (length scores) ≤ INT_MAX)%Z →
  ∃ (results : gmap string double) (roc_events : list event)
    (tp fp tn fn : Z),
    let used := resolved_threshold scores labels threshold in
    evaluateAlgorithm file_ok scores labels algorithm_name dataset_name
      threshold = Some (results, roc_events ++ [CoutResults results true])
    ∧ calculateConfusionMatrix scores labels used = Some (tp, fp, tn, fn)
    ∧ printEvaluationResults results true =
      Some ([Str results_header; Str "Threshold: "; Dbl used; Endl;
             Str confusion_header;
             Str "TP: "; Num tp; Str tab; Str "FP: "; Num fp; Str nl;
             Str "FN: "; Num fn; Str tab; Str "TN: "; Num tn; Str nl;
             Str metrics_header]
            ++ flat_map (λ metric,
                           [Str metric; Str ": ";
                            Dbl (map_at results metric * of_int 100)%D;
                            Str "%"; Endl]) metricsToShow
            ++ [Str results_footer]).
Proof.
  intros Hlen Hne Hmax.
  destruct (evaluateAlgorithm_valid file_ok scores labels algorithm_name
              dataset_name threshold Hlen Hne Hmax)
    as (tp & fp & tn & fn & auc & roc_events & Hconf & _ & Heval).
  destruct (confusion_matrix_counts_total scores labels
              (resolved_threshold scores labels threshold) Hlen Hmax)
    as (tp' & fp' & tn' & fn' & Hconf' & Htp & Hfp & Htn & Hfn & Hsum).
  cbv zeta in Hconf, Heval. rewrite Hconf in Hconf'. simplify_eq.
  eexists _, roc_events, tp', fp', tn', fn'. cbv zeta.
  split; [exact Heval|]. split; [done|].
  apply printEvaluationResults_record; unfold INT_MIN, INT_MAX in *; lia.
Qed.

End Summary.

(** ** normalizeFeature *)

Lemma finite_list (l : list double) :
  Forall (λ x, is_finite x = true) l → ∃ qs : list Qc, l = Fin <$> qs.
Proof.
  induction 1 as [|x l Hx _ [qs ->]]; [by exists []|].
  destruct x as [q| | |]; try done. by exists (q :: qs).
Qed.

Lemma min_fold_finite (a : Qc) (qs : list Qc) :
  ∃ m : Qc,
    foldl (λ smallest val, if dlt val smallest then val else smallest)
      (Fin a) (Fin <$> qs) = Fin m
    ∧ m ∈ a :: qs ∧ (m ≤ a)%Qc ∧ Forall (λ x, (m ≤ x)%Qc) qs.
Proof.
  revert a. induction qs as [|q qs IH]; intros a.
  - exists a. split_and!; [done|by left|apply Qcle_refl|done].
  - cbn [fmap list_fmap foldl dlt].
    destruct (Qc_ltb q a) eqn:Hlt.
    + apply Qc_ltb_lt in Hlt. destruct (IH q) as (m & Hm & Hin & Hle & Hall).
      exists m. split_and!; [done|by right| |].
      * apply Qclt_le_weak. by eapply Qcle_lt_trans.
      * by constructor.
    + assert (a ≤ q)%Qc as Haq.
      { apply Qcnot_lt_le. intros H%Qc_ltb_lt. congruence. }
      destruct (IH a) as (m & Hm & Hin & Hle & Hall).
      exists m. split_and!; [done| |done|].
      * apply elem_of_cons in Hin as [->|Hin]; [by left|by do 2 right].
      * constructor; [by eapply Qcle_trans|done].
Qed.

Lemma max_fold_finite (a : Qc) (qs : list Qc) :
  ∃ M : Qc,
    foldl (λ largest val, if dlt largest val then val else largest)
      (Fin a) (Fin <$> qs) = Fin M
    ∧ M ∈ a :: qs ∧ (a ≤ M)%Qc ∧ Forall (λ x, (x ≤ M)%Qc) qs.
Proof.
  revert a. induction qs as [|q qs IH]; intros a.
  - exists a. split_and!; [done|by left|apply Qcle_refl|done].
  - cbn [fmap list_fmap foldl dlt].
    destruct (Qc_ltb a q) eqn:Hlt.
    + apply Qc_ltb_lt in Hlt. destruct (IH q) as (M & HM & Hin & Hle & Hall).
      exists M. split_and!; [done|by right| |].
      * apply Qclt_le_weak. by eapply Qclt_le_trans.
      * by constructor.
    + assert (q ≤ a)%Qc as Haq.
      { apply Qcnot_lt_le. intros H%Qc_ltb_lt. congruence. }
      destruct (IH a) as (M & HM & Hin & Hle & Hall).
      exists M. split_and!; [done| |done|].
      * apply elem_of_cons in Hin as [->|Hin]; [by left|by do 2 right].
      * constructor; [by eapply Qcle_trans|done].
Qed.

Lemma foldl_snoc_map {A B : Type} (f : A → B) (acc : list B) (l : list A) :
  foldl (λ acc x, acc ++ [f x]) acc l = acc ++ (f <$> l).
Proof.
  revert acc. induction l as [|x l IH]; intros acc; cbn [foldl].
  - by rewrite app_nil_r.
  - rewrite IH, <- app_assoc. done.
Qed.

Lemma Qc_sub_pos (m M : Qc) : (0 < M - m)%Qc ↔ (m < M)%Qc.
Proof. symmetry. apply Qclt_minus_iff. Qed.

Lemma Qc_sub_nonneg (m v : Qc) : (0 ≤ v - m)%Qc ↔ (m ≤ v)%Qc.
Proof. symmetry. apply Qcle_minus_iff. Qed.

Lemma normalizeFeature_finite (qs : list Qc) :
  qs ≠ [] →
  ∃ m M : Qc,
    m ∈ qs ∧ M ∈ qs ∧ Forall (λ x, (m ≤ x)%Qc ∧ (x ≤ M)%Qc) qs
    ∧ normalizeFeature (Fin <$> qs) = Some (Fin ∘ scaled m M <$> qs).
Proof.
  destruct qs as [|a qs]; [done|]. intros _.
  destruct (min_fold_finite a qs) as (m & Hm & Hmin & Hma & Hmall).
  destruct (max_fold_finite a qs) as (M & HM & HMin & HMa & HMall).
  exists m, M. split_and!; [done|done| |].
  - constructor; [done|]. apply Forall_forall. intros x Hx.
    rewrite Forall_forall in Hmall, HMall. split; [by apply Hmall|by apply HMall].
  - unfold normalizeFeature, min_element, max_element.
    rewrite fmap_cons, Hm, HM. cbn [mbind option_bind]. f_equal.
    rewrite (foldl_snoc_map _ []). cbn [app].
    rewrite <- fmap_cons, <- list_fmap_compose. apply list_fmap_ext.
    intros _ v _. unfold compose. rewrite !dsub_Fin. unfold dgt, d_zero, scaled.
    cbn [dlt ddiv]. case_bool_decide as Hlt.
    + rewrite (proj2 (Qc_ltb_lt _ _)) by (by apply Qc_sub_pos).
      destruct (Qc_eqb (M - m) 0) eqn:Heq; [|done].
      apply Qc_eqb_eq in Heq. apply Qc_sub_pos in Hlt. rewrite Heq in Hlt.
      apply Qc_ltb_lt in Hlt. by rewrite Qc_ltb_irrefl in Hlt.
    + destruct (Qc_ltb 0 (M - m)) eqn:Hlt'; [|done].
      destruct Hlt. by apply Qc_sub_pos, Qc_ltb_lt.
Qed.

Lemma scaled_range (m M v : Qc) :
  (m ≤ v)%Qc → (v ≤ M)%Qc → (0 ≤ scaled m M v)%Qc ∧ (scaled m M v ≤ 1)%Qc.
Proof.
  intros Hm HM. unfold scaled. case_bool_decide as Hlt; [|done].
  apply Qc_div_unit.
  - by apply Qc_sub_nonneg.
  - by apply Qcplus_le_mono_r.
  - by apply Qc_sub_pos.
Qed.

Lemma scaled_min (m M : Qc) : scaled m M m = 0%Qc.
Proof.
  unfold scaled. case_bool_decide; [|done].
  replace (m - m)%Qc with 0%Qc by ring. unfold Qcdiv. ring.
Qed.

Lemma scaled_max (m M : Qc) : (m < M)%Qc → scaled m M M = 1%Qc.
Proof.
  intros Hlt. unfold scaled. rewrite bool_decide_eq_true_2 by done.
  unfold Qcdiv. apply Qcmult_inv_r. intros Heq.
  apply Qc_sub_pos in Hlt. rewrite Heq in Hlt.
  apply Qc_ltb_lt in Hlt. by rewrite Qc_ltb_irrefl in Hlt.
Qed.

Lemma scaled_mono (m M v w : Qc) :
  (v ≤ w)%Qc → (scaled m M v ≤ scaled m M w)%Qc.
Proof.
  intros Hvw. unfold scaled. case_bool_decide as Hlt; [|done].
  unfold Qcdiv. apply Qcmult_le_mono_nonneg_r.
  - apply Qclt_le_weak, Qcinv_pos. by apply Qc_sub_pos.
  - by apply Qcplus_le_mono_r.
Qed.

Lemma scaled_unit (u : Qc) : scaled 0 1 u = u.
Proof.
  unfold scaled. rewrite bool_decide_eq_true_2 by done. field. done.
Qed.





(** ** calculateConfusionMatrix: bounds and the effect of the threshold *)

Lemma for_range_fail {A : Type} (body : nat → A → option A) (lo n k : nat)
    (acc : A) :
  (lo ≤ k < lo + n)%nat → (∀ a, body k a = None) →
  for_range lo n body acc = None.
Proof.
  revert lo acc. induction n as [|n IH]; intros lo acc Hk Hfail; [lia|].
  cbn [for_range]. destruct (decide (k = lo)) as [->|Hne].
  - by rewrite Hfail.
  - destruct (body lo acc) as [acc'|]; [|done]. cbn [mbind option_bind].
    apply IH; [lia|done].
Qed.

(** X13: calculateConfusionMatrix does not check the lengths: labels past
    the last score are not read, and a missing label is a read out of
    bounds. *)
Theorem confusion_matrix_label_bounds (scores : list double)
    (labels : list bool) (threshold : double) :
  ((length labels < length scores)%nat →
   calculateConfusionMatrix scores labels threshold = None)
  ∧ ((length scores ≤ length labels)%nat →
     calculateConfusionMatrix scores labels threshold =
     calculateConfusionMatrix scores (take (length scores) labels) threshold).
Proof.
  unfold calculateConfusionMatrix. split; intros Hlen.
  - apply (for_range_fail _ 0 _ (length labels)); [lia|].
    intros counts. unfold confusion_step.
    rewrite (lookup_ge_None_2 labels) by lia.
    by destruct (scores !! length labels).
  - apply for_range_ext. intros i counts Hi. unfold confusion_step.
    by rewrite lookup_take_lt by lia.
Qed.

Lemma dle_dlt_trans (x y z : double) :
  dle x y = true → dlt y z = true → dlt x z = true.
Proof.
  unfold dle. intros [Hxy|Hxy%deq_true_eq]%orb_true_iff Hyz; [|by subst].
  destruct x as [a| | |], y as [b| | |], z as [c| | |]; try done.
  cbn [dlt] in *. apply Qc_ltb_lt. apply Qc_ltb_lt in Hxy, Hyz.
  by eapply Qclt_trans.
Qed.

Lemma tally_mono (P Q : double → bool → bool) (scores : list double)
    (labels : list bool) :
  (∀ s l, P s l = true → Q s l = true) →
  (tally P scores labels ≤ tally Q scores labels)%Z.
Proof.
  intros HPQ. unfold tally. apply inj_le.
  induction (zip scores labels) as [|p l IH]; [done|].
  rewrite !filter_cons.
  destruct (decide (P p.1 p.2 = true)) as [HP|HP].
  - rewrite decide_True by by apply HPQ. simpl. lia.
  - destruct (decide (Q p.1 p.2 = true)); simpl; lia.
Qed.

(** X14: raising the threshold moves samples from the predicted positives
    to the predicted negatives, never the other way. *)
Theorem confusion_matrix_threshold_monotone (scores : list double)
    (labels : list bool) (low high : double) :
  length scores = length labels →
  (Z.of_nat (length scores) ≤ INT_MAX)%Z →
  dle low high = true →
  ∃ tp fp tn fn tp' fp' tn' fn' : Z,
    calculateConfusionMatrix scores labels low = Some (tp, fp, tn, fn)
    ∧ calculateConfusionMatrix scores labels high = Some (tp', fp', tn', fn')
    ∧ (tp' ≤ tp)%Z ∧ (fp' ≤ fp)%Z ∧ (tn ≤ tn')%Z ∧ (fn ≤ fn')%Z.
Proof.
  intros Hlen Hmax Hle.
  rewrite !calculateConfusionMatrix_counts by done.
  eexists _, _, _, _, _, _, _, _. split; [done|]. split; [done|].
  assert (∀ s, dgt s high = true → dgt s low = true) as Hgt.
  { intros s Hs. unfold dgt in *. by eapply dle_dlt_trans. }
  split_and!; apply tally_mono; intros s l; destruct l; cbn; try done.
  - apply Hgt.
  - apply Hgt.
  - destruct (dgt s low) eqn:Hlow; [done|]. intros _.
    destruct (dgt s high) eqn:Hhigh; [|done].
    apply Hgt in Hhigh. congruence.
  - destruct (dgt s low) eqn:Hlow; [done|]. intros _.
    destruct (dgt s high) eqn:Hhigh; [|done].
    apply Hgt in Hhigh. congruence.
Qed.

(** ** The rows of the ROC table as counts of scores *)

Lemma dle_refl (x : double) : is_nan x = false → dle x x = true.
Proof. intros Hx. unfold dle. by rewrite deq_refl, orb_true_r. Qed.

Lemma dle_trans (x y z : double) :
  dle x y = true → dle y z = true → dle x z = true.
Proof.
  intros Hxy Hyz. unfold dle in Hyz.
  apply orb_true_iff in Hyz as [Hyz|Hyz%deq_true_eq]; [|by subst].
  unfold dle. by rewrite (dle_dlt_trans x y z).
Qed.

Lemma dlt_not_dle (x y : double) : dlt x y = true → dle y x = false.
Proof.
  intros Hlt. unfold dle. rewrite (dlt_asymm _ _ Hlt). cbn.
  apply not_true_is_false. intros ->%deq_true_eq.
  by rewrite dlt_irrefl in Hlt.
Qed.

Lemma dle_ne_dlt (x y : double) : dle x y = true → x ≠ y → dlt x y = true.
Proof.
  unfold dle. intros [Hlt|Heq%deq_true_eq]%orb_true_iff Hne; done.
Qed.

Lemma count_label_snoc (label : bool) (l : list (double * bool))
    (p : double * bool) :
  count_label label (l ++ [p]) =
  (count_label label l + (if decide (p.2 = label) then 1 else 0))%Z.
Proof.
  unfold count_label. rewrite filter_app, length_app, filter_cons.
  destruct (decide (p.2 = label)); simpl; lia.
Qed.

Lemma count_at_least_split (label : bool) (t : double)
    (seen rest : list (double * bool)) :
  Forall (λ p, dle t p.1 = true) seen →
  Forall (λ p, dle t p.1 = false) rest →
  count_at_least label t (seen ++ rest) = count_label label seen.
Proof.
  intros Hseen Hrest. unfold count_at_least, count_label.
  rewrite filter_app, length_app.
  replace (filter (λ p, p.2 = label ∧ dle t p.1 = true) rest) with
    (@nil (double * bool)).
  - rewrite Nat.add_0_r. do 2 f_equal. clear Hrest.
    induction Hseen as [|p l Hp _ IH]; [done|].
    rewrite !filter_cons, IH.
    destruct (decide (p.2 = label)).
    + by rewrite decide_True.
    + by rewrite decide_False by (by intros []).
  - induction Hrest as [|p l Hp _ IH]; [done|].
    rewrite filter_cons, <- IH. rewrite decide_False; [done|].
    intros [_ ?]. congruence.
Qed.

(** The points of the walk count the samples whose score is at least the
    threshold of the point. *)
Lemma walk_at_least (seen rest : list (double * bool)) (prev : double) :
  no_nan (seen ++ rest) → is_nan prev = false →
  StronglySorted (λ a b, by_score_desc b a = false) rest →
  Forall (λ p, dle prev p.1 = true) seen →
  Forall (λ p, dle p.1 prev = true) rest →
  Forall (λ c : double * Z * Z,
            c.1.2 = count_at_least false c.1.1 (seen ++ rest)
            ∧ c.2 = count_at_least true c.1.1 (seen ++ rest))
    (walk prev (count_label true seen) (count_label false seen) rest).
Proof.
  revert seen prev.
  induction rest as [|[s b] rest IH]; intros seen prev Hnan Hprev Hsorted Hseen Hrest.
  - cbn [walk]. constructor; [|done]. cbn [fst snd].
    by rewrite !count_at_least_split.
  - apply StronglySorted_inv in Hsorted as [Hsorted Hhead].
    apply Forall_cons in Hrest as [Hs Hrest]. cbn [fst] in Hs.
    assert (is_nan s = false) as Hsnan.
    { unfold no_nan in Hnan. rewrite Forall_app, Forall_cons in Hnan.
      by destruct Hnan as (_ & ? & _). }
    assert (no_nan rest) as Hrnan.
    { unfold no_nan in *. rewrite Forall_app, Forall_cons in Hnan.
      by destruct Hnan as (_ & _ & ?). }
    assert (Forall (λ p : double * bool, dle p.1 s = true) rest) as Hbelow.
    { unfold no_nan in Hrnan. rewrite Forall_forall in Hhead, Hrnan.
      apply Forall_forall. intros p Hp. apply dle_of_not_dlt; [by apply Hrnan|done|].
      by apply (Hhead p). }
    assert (count_label true (seen ++ [(s, b)]) =
            (if b then count_label true seen + 1 else count_label true seen)%Z
            ∧ count_label false (seen ++ [(s, b)]) =
              (if b then count_label false seen
               else count_label false seen + 1)%Z) as [Htp Hfp].
    { rewrite !count_label_snoc. cbn [snd].
      destruct b; repeat case_decide; try done; split; lia. }
    replace (seen ++ (s, b) :: rest) with ((seen ++ [(s, b)]) ++ rest) in *
      by (by rewrite <- app_assoc).
    cbn [walk]. rewrite <- Htp, <- Hfp.
    destruct (dne s prev) eqn:Hne.
    + apply dne_true_iff in Hne; [|done].
      assert (dlt s prev = true) as Hlt by (by apply dle_ne_dlt).
      constructor.
      * cbn [fst snd]. rewrite <- !app_assoc. cbn [app].
        rewrite !count_at_least_split; [done|done| |done|].
        -- constructor; [by apply dlt_not_dle|].
           eapply Forall_impl; [exact Hbelow|]. intros p Hp. cbn in Hp.
           apply dlt_not_dle. by eapply dle_dlt_trans.
        -- constructor; [by apply dlt_not_dle|].
           eapply Forall_impl; [exact Hbelow|]. intros p Hp. cbn in Hp.
           apply dlt_not_dle. by eapply dle_dlt_trans.
      * apply IH; [done|done|done| |done].
        apply Forall_app. split.
        -- eapply Forall_impl; [exact Hseen|]. intros p Hp. cbn in Hp.
           by eapply dle_trans.
        -- constructor; [|done]. by apply dle_refl.
    + apply dne_false_eq in Hne as ->.
      apply IH; [done|done|done| |done].
      apply Forall_app. split; [done|]. constructor; [|done]. by apply dle_refl.
Qed.

Lemma count_at_least_perm (label : bool) (t : double)
    (l k : list (double * bool)) :
  l ≡ₚ k → count_at_least label t l = count_at_least label t k.
Proof. intros Hperm. unfold count_at_least. by rewrite Hperm. Qed.

Section RocRows.
Context `{Sort : StdSort}.

(** X15: every row (t, fpr, tpr) of the ROC table gives the rates of the
    rule that predicts positive when the score is at least t: fpr is the
    share of the negatives with such a score, tpr that of the positives. *)
Theorem roc_rows_count_scores_at_least (scores : list double)
    (labels : list bool) (algorithm_name dataset_name : string) :
  length scores = length labels →
  Forall (λ s, dlt s DBL_MAX = true) scores →
  true ∈ labels → false ∈ labels →
  ∃ (rows : list roc_point) (auc : double),
    saveRocDataToCSV true scores labels algorithm_name dataset_name =
      Some (auc, [CsvFile (roc_filename algorithm_name dataset_name) rows;
                  CoutRocSaved (roc_filename algorithm_name dataset_name);
                  CoutAuc auc])
    ∧ Forall (λ row,
                fpr row =
                  rate (count_at_least false (threshold row) (zip scores labels))
                       (count_label false (zip scores labels))
                ∧ tpr row =
                    rate (count_at_least true (threshold row) (zip scores labels))
                         (count_label true (zip scores labels))) rows.
Proof.
  intros Hlen Hmax Hpos Hneg.
  assert (Forall (λ s, is_nan s = false) scores) as Hnan.
  { eapply Forall_impl; [exact Hmax|]. intros s Hs.
    by apply dlt_true_not_nan in Hs as [? _]. }
  destruct (sorted_input scores labels Hlen Hnan Hpos Hneg)
    as (HP & HN & Hperm & Hnans & Hsorted).
  pose proof (std_sort_perm (zip scores labels) (no_nan_zip _ _ Hnan)) as Hp.
  set (sorted := std_sort (zip scores labels)) in *.
  exists (curve sorted), (trapezoid_sum (curve sorted)).
  split; [apply (saveRocDataToCSV_mixed true); auto using no_nan_zip|].
  assert (Forall (λ p : double * bool, dle p.1 DBL_MAX = true) sorted) as Hbelow.
  { apply Forall_forall. intros p Hin. unfold dle.
    rewrite Forall_forall in Hmax. rewrite (Hmax p.1); [done|].
    rewrite <- Hperm. by apply list_elem_of_fmap_2. }
  pose proof (walk_at_least [] sorted DBL_MAX Hnans eq_refl Hsorted
                (Forall_nil_2 _) Hbelow) as Hwalk.
  cbn [app] in Hwalk.
  change (count_label true []) with 0%Z in Hwalk.
  change (count_label false []) with 0%Z in Hwalk.
  unfold curve. constructor.
  - cbn [fpr tpr threshold].
    rewrite <- !(count_at_least_perm _ _ _ _ Hp).
    rewrite <- (app_nil_l sorted).
    assert (Forall (λ p : double * bool, dle DBL_MAX p.1 = false) sorted)
      as Habove.
    { apply Forall_forall. intros p Hin. apply dlt_not_dle.
      rewrite Forall_forall in Hmax. apply Hmax.
      rewrite <- Hperm. by apply list_elem_of_fmap_2. }
    rewrite !count_at_least_split by done. by rewrite !rate_0.
  - apply Forall_fmap. eapply Forall_impl; [exact Hwalk|].
    intros c [Hf Ht]. cbn. unfold to_point. cbn [fpr tpr threshold].
    rewrite Hf, Ht.
    by rewrite !(count_at_least_perm _ _ _ _ Hp), !(count_label_perm _ _ _ Hp).
Qed.

End RocRows.

(** ** The ROC table does not depend on the order of the samples *)

Lemma dle_antisym (x y : double) : dle x y = true → dle y x = true → x = y.
Proof.
  unfold dle. intros [Hxy|Hxy%deq_true_eq]%orb_true_iff; [|done].
  intros [Hyx|Hyx%deq_true_eq]%orb_true_iff; [|done].
  by rewrite (dlt_asymm _ _ Hxy) in Hyx.
Qed.

(** Samples with the score the sweep holds push no point. *)
Lemma walk_same (s : double) (tp fp : Z) (g rest : list (double * bool)) :
  is_nan s = false → Forall (λ p, p.1 = s) g →
  walk s tp fp (g ++ rest) =
  walk s (tp + count_label true g) (fp + count_label false g) rest.
Proof.
  intros Hs Hg. revert tp fp.
  induction Hg as [|[s' b] g Hp _ IH]; intros tp fp.
  - change (count_label true []) with 0%Z.
    change (count_label false []) with 0%Z. by rewrite !Z.add_0_r.
  - cbn [fst] in Hp. subst s'. cbn [app walk].
    unfold dne. rewrite deq_refl by done. cbn [negb].
    rewrite IH, !count_label_cons. cbn [snd].
    destruct b; repeat case_decide; try done; f_equal; lia.
Qed.

(** A group of samples with the same score pushes at most one point, when
    the sweep reaches it. *)
Lemma walk_group (s prev : double) (tp fp : Z) (g rest : list (double * bool)) :
  is_nan s = false → Forall (λ p, p.1 = s) g → g ≠ [] →
  walk prev tp fp (g ++ rest) =
  (if dne s prev then [(prev, fp, tp)] else [])
  ++ walk s (tp + count_label true g) (fp + count_label false g) rest.
Proof.
  intros Hs Hg Hne. destruct g as [|[s' b] g]; [done|].
  apply Forall_cons in Hg as [Hp Hg]. cbn [fst] in Hp. subst s'.
  cbn [app walk]. rewrite !count_label_cons. cbn [snd].
  destruct (dne s prev) eqn:Hd.
  - cbn [app]. f_equal. rewrite walk_same by done.
    destruct b; repeat case_decide; try done; f_equal; lia.
  - apply dne_false_eq in Hd as <-. cbn [app]. rewrite walk_same by done.
    destruct b; repeat case_decide; try done; f_equal; lia.
Qed.

(** In a sorted list the samples with the greatest score come first. *)
Lemma sorted_group_first (s : double) (l : list (double * bool)) :
  no_nan l → is_nan s = false →
  StronglySorted (λ a b, by_score_desc b a = false) l →
  Forall (λ p, dle p.1 s = true) l →
  l = filter (λ p, p.1 = s) l ++ filter (λ p, p.1 ≠ s) l.
Proof.
  intros Hnan Hs Hsorted Hle.
  induction l as [|p l IH]; [done|].
  apply StronglySorted_inv in Hsorted as [Hsorted Hhead].
  apply Forall_cons in Hle as [Hp Hle].
  apply Forall_cons in Hnan as [Hpnan Hnan].
  rewrite !filter_cons. destruct (decide (p.1 = s)) as [Heq|Hne].
  - rewrite decide_False by (by intros ?). cbn [app]. f_equal. by apply IH.
  - rewrite decide_True by done.
    assert (Forall (λ q : double * bool, q.1 ≠ s) l) as Hall.
    { rewrite Forall_forall in Hhead, Hnan. apply Forall_forall.
      intros q Hq Heq. apply Hne. apply dle_antisym; [done|].
      rewrite <- Heq. apply dle_of_not_dlt; [by apply Hnan|done|].
      by apply (Hhead q). }
    replace (filter (λ q : double * bool, q.1 = s) l)
      with (@nil (double * bool)).
    + cbn [app]. f_equal. clear -Hall.
      induction Hall as [|q l Hq _ IHl]; [done|].
      by rewrite filter_cons, decide_True, <- IHl.
    + clear -Hall. induction Hall as [|q l Hq _ IHl]; [done|].
      by rewrite filter_cons, decide_False.
Qed.

Lemma sorted_head_greatest (p : double * bool) (l : list (double * bool)) :
  no_nan (p :: l) →
  StronglySorted (λ a b, by_score_desc b a = false) (p :: l) →
  Forall (λ q, dle q.1 p.1 = true) (p :: l).
Proof.
  intros [Hp Hnan]%Forall_cons [_ Hhead]%StronglySorted_inv.
  constructor; [by apply dle_refl|].
  rewrite Forall_forall in Hhead, Hnan. apply Forall_forall. intros q Hq.
  apply dle_of_not_dlt; [by apply Hnan|done|]. by apply (Hhead q).
Qed.

(** Two sorted arrangements of the same samples give the same points. *)
Lemma walk_perm (n : nat) (l1 l2 : list (double * bool))
    (prev : double) (tp fp : Z) :
  (length l1 ≤ n)%nat → l1 ≡ₚ l2 → no_nan l1 →
  StronglySorted (λ a b, by_score_desc b a = false) l1 →
  StronglySorted (λ a b, by_score_desc b a = false) l2 →
  walk prev tp fp l1 = walk prev tp fp l2.
Proof.
  revert l1 l2 prev tp fp.
  induction n as [|n IH]; intros l1 l2 prev tp fp Hlen Hperm Hnan H1 H2.
  { destruct l1; [|simpl in Hlen; lia].
    by apply Permutation_nil_l in Hperm as ->. }
  destruct l1 as [|p1 l1'] eqn:El1.
  { by apply Permutation_nil_l in Hperm as ->. }
  destruct l2 as [|p2 l2'] eqn:El2.
  { by apply Permutation_nil_r in Hperm. }
  rewrite <- El1, <- El2 in *.
  assert (no_nan l2) as Hnan2 by (unfold no_nan; by rewrite <- Hperm).
  assert (p1.1 = p2.1) as Hhead.
  { pose proof Hnan as Hn1. pose proof Hnan2 as Hn2.
    rewrite El1 in H1, Hn1. rewrite El2 in H2, Hn2.
    pose proof (sorted_head_greatest p1 l1' Hn1 H1) as Hg1.
    pose proof (sorted_head_greatest p2 l2' Hn2 H2) as Hg2.
    rewrite <- El1 in Hg1. rewrite <- El2 in Hg2.
    rewrite Forall_forall in Hg1, Hg2. apply dle_antisym.
    - apply Hg2. rewrite <- Hperm, El1. by left.
    - apply Hg1. rewrite Hperm, El2. by left. }
  set (s := p1.1) in *.
  assert (is_nan s = false) as Hs.
  { unfold no_nan in Hnan. rewrite El1 in Hnan.
    by apply Forall_cons in Hnan as [? _]. }
  assert (Forall (λ q : double * bool, dle q.1 s = true) l1) as Hle1.
  { rewrite El1. apply sorted_head_greatest; by rewrite <- El1. }
  assert (Forall (λ q : double * bool, dle q.1 s = true) l2) as Hle2.
  { rewrite Hhead, El2. apply sorted_head_greatest; by rewrite <- El2. }
  pose proof (sorted_group_first s l1 Hnan Hs H1 Hle1) as Hsplit1.
  pose proof (sorted_group_first s l2 Hnan2 Hs H2 Hle2) as Hsplit2.
  set (g1 := filter (λ q : double * bool, q.1 = s) l1) in *.
  set (r1 := filter (λ q : double * bool, q.1 ≠ s) l1) in *.
  set (g2 := filter (λ q : double * bool, q.1 = s) l2) in *.
  set (r2 := filter (λ q : double * bool, q.1 ≠ s) l2) in *.
  assert (g1 ≡ₚ g2) as Hg by (unfold g1, g2; by rewrite Hperm).
  assert (r1 ≡ₚ r2) as Hr by (unfold r1, r2; by rewrite Hperm).
  assert (g1 ≠ []) as Hg1ne.
  { unfold g1. rewrite El1, filter_cons, decide_True by done. done. }
  assert (g2 ≠ []) as Hg2ne.
  { intros Hnil. rewrite Hnil in Hg. by apply Permutation_nil_r in Hg. }
  assert (Forall (λ q : double * bool, q.1 = s) g1) as Hall1.
  { apply Forall_forall. by intros q [? _]%list_elem_of_filter. }
  assert (Forall (λ q : double * bool, q.1 = s) g2) as Hall2.
  { apply Forall_forall. by intros q [? _]%list_elem_of_filter. }
  rewrite Hsplit1, Hsplit2.
  rewrite (walk_group s prev tp fp g1 r1), (walk_group s prev tp fp g2 r2)
    by done.
  rewrite (count_label_perm true g1 g2 Hg), (count_label_perm false g1 g2 Hg).
  f_equal. apply IH; [|done| | |].
  - rewrite Hsplit1, length_app in Hlen.
    destruct g1; [done|]. simpl in Hlen. lia.
  - unfold no_nan in *. rewrite Hsplit1, Forall_app in Hnan. by destruct Hnan.
  - rewrite Hsplit1 in H1. by apply StronglySorted_app_1_r in H1.
  - rewrite Hsplit2 in H2. by apply StronglySorted_app_1_r in H2.
Qed.

Lemma curve_perm (l1 l2 : list (double * bool)) :
  l1 ≡ₚ l2 → no_nan l1 →
  StronglySorted (λ a b, by_score_desc b a = false) l1 →
  StronglySorted (λ a b, by_score_desc b a = false) l2 →
  curve l1 = curve l2.
Proof.
  intros Hperm Hnan H1 H2. unfold curve.
  rewrite (count_label_perm true l1 l2 Hperm),
    (count_label_perm false l1 l2 Hperm).
  by rewrite (walk_perm (length l1) l1 l2).
Qed.

Lemma zip_perm_parts (scores scores' : list double) (labels labels' : list bool) :
  length scores = length labels → length scores' = length labels' →
  zip scores labels ≡ₚ zip scores' labels' →
  scores ≡ₚ scores' ∧ labels ≡ₚ labels'.
Proof.
  intros Hlen Hlen' Hperm. split.
  - rewrite <- (fst_zip scores labels), <- (fst_zip scores' labels') by lia.
    by rewrite Hperm.
  - rewrite <- (snd_zip scores labels), <- (snd_zip scores' labels') by lia.
    by rewrite Hperm.
Qed.

(** The ROC stage on two arrangements of the same samples, with two sorts. *)
Lemma saveRocDataToCSV_perm (S1 S2 : StdSort) (file_ok : bool)
    (scores scores' : list double) (labels labels' : list bool)
    (algorithm_name dataset_name : string) :
  length scores = length labels → length scores' = length labels' →
  Forall (λ s, is_nan s = false) scores →
  zip scores labels ≡ₚ zip scores' labels' →
  saveRocDataToCSV (Sort := S1) file_ok scores labels
    algorithm_name dataset_name =
  saveRocDataToCSV (Sort := S2) file_ok scores' labels'
    algorithm_name dataset_name.
Proof.
  intros Hlen Hlen' Hnan Hperm.
  destruct (zip_perm_parts _ _ _ _ Hlen Hlen' Hperm) as [Hs Hl].
  assert (Forall (λ s, is_nan s = false) scores') as Hnan'
    by (by rewrite <- Hs).
  destruct (decide (scores = [])) as [->|Hne].
  { apply Permutation_nil_l in Hs as <-.
    destruct labels; [|done]. destruct labels'; [reflexivity|done]. }
  assert (scores' ≠ []) as Hne'.
  { intros ->. by apply Permutation_nil_r in Hs. }
  destruct (decide (true ∈ labels)) as [Hpos|Hpos];
    [destruct (decide (false ∈ labels)) as [Hneg|Hneg]|].
  - pose proof (saveRocDataToCSV_mixed (Sort := S1) file_ok scores labels
                  algorithm_name dataset_name Hlen (no_nan_zip _ _ Hnan)
                  Hpos Hneg) as E1.
    assert (true ∈ labels') as Hpos' by (by rewrite <- Hl).
    assert (false ∈ labels') as Hneg' by (by rewrite <- Hl).
    pose proof (saveRocDataToCSV_mixed (Sort := S2) file_ok scores' labels'
                  algorithm_name dataset_name Hlen' (no_nan_zip _ _ Hnan')
                  Hpos' Hneg') as E2.
    cbv zeta in E1, E2. rewrite E1, E2.
    rewrite (curve_perm (std_sort (StdSort := S1) (zip scores labels))
               (std_sort (StdSort := S2) (zip scores' labels'))); [done|..].
    + rewrite !std_sort_perm by auto using no_nan_zip. done.
    + unfold no_nan. rewrite std_sort_perm by auto using no_nan_zip.
      by apply no_nan_zip.
    + apply std_sort_sorted. by apply no_nan_zip.
    + apply std_sort_sorted. by apply no_nan_zip.
  - assert (Forall (λ l, l = true) labels) as Hall.
    { apply Forall_forall. intros [] Hin; done. }
    rewrite (saveRocDataToCSV_degenerate (Sort := S1) file_ok scores labels _ _ true)
      by done.
    rewrite (saveRocDataToCSV_degenerate (Sort := S2) file_ok scores' labels' _ _ true);
      [done..|]. by rewrite <- Hl.
  - assert (Forall (λ l, l = false) labels) as Hall.
    { apply Forall_forall. intros [] Hin; done. }
    rewrite (saveRocDataToCSV_degenerate (Sort := S1) file_ok scores labels _ _ false)
      by done.
    rewrite (saveRocDataToCSV_degenerate (Sort := S2) file_ok scores' labels' _ _ false);
      [done..|]. by rewrite <- Hl.
Qed.


Lemma tally_perm (P : double → bool → bool) (scores scores' : list double)
    (labels labels' : list bool) :
  zip scores labels ≡ₚ zip scores' labels' →
  tally P scores labels = tally P scores' labels'.
Proof. intros Hperm. unfold tally. by rewrite Hperm. Qed.


(** ** Constant scores, the keys of the result, the F1 score *)

Section Further.
Context `{Sort : StdSort}.

(** X18: when all samples have the same score and both classes occur, the
    AUC returned is 0.5. *)
Theorem constant_score_auc_half (file_ok : bool) (scores : list double)
    (labels : list bool) (algorithm_name dataset_name : string) (s : double) :
  length scores = length labels → is_nan s = false →
  Forall (λ x, x = s) scores → true ∈ labels → false ∈ labels →
  ∃ events,
    saveRocDataToCSV file_ok scores labels algorithm_name dataset_name =
    Some (half, events).
Proof.
  intros Hlen Hs Hall Hpos Hneg.
  assert (Forall (λ x, is_nan x = false) scores) as Hnan.
  { eapply Forall_impl; [exact Hall|]. by intros x ->. }
  destruct (sorted_input scores labels Hlen Hnan Hpos Hneg)
    as (HP & HN & Hperm & Hnans & Hsorted).
  pose proof (saveRocDataToCSV_mixed file_ok scores labels algorithm_name
                dataset_name Hlen (no_nan_zip _ _ Hnan) Hpos Hneg) as Hroc.
  cbv zeta in Hroc. set (sorted := std_sort (zip scores labels)) in *.
  assert (Forall (λ p : double * bool, p.1 = s) sorted) as Hsame.
  { apply (Forall_fmap fst (λ x, x = s)). by rewrite Hperm. }
  assert (sorted ≠ []) as Hne.
  { intros Hnil. rewrite Hnil in HP. by vm_compute in HP. }
  assert (trapezoid_sum (curve sorted) = half) as Harea.
  { unfold curve.
    rewrite <- (app_nil_r sorted) at 3.
    rewrite (walk_group s DBL_MAX 0 0 sorted []) by done.
    cbn [walk]. rewrite !Z.add_0_l.
    destruct (dne s DBL_MAX); cbn [app map]; unfold to_point; cbn [fst snd];
      rewrite ?rate_0, !rate_self by lia; cbn [trapezoid_sum fpr tpr];
      compute_done. }
  rewrite Hroc, Harea. by eexists.
Qed.

(** X19: the keys of the map evaluateAlgorithm returns: the eleven entries
    of an evaluation for a valid input, and only [error] otherwise. *)
Theorem evaluateAlgorithm_keys (file_ok : bool) (scores : list double)
    (labels : list bool) (algorithm_name dataset_name : string)
    (threshold : double) :
  (Z.of_nat (length scores) ≤ INT_MAX)%Z →
  ∃ results events,
    evaluateAlgorithm file_ok scores labels algorithm_name dataset_name
      threshold = Some (results, events)
    ∧ dom results =
      if bool_decide (length scores = length labels ∧ scores ≠ [])
      then list_to_set
             ["true_positives"; "false_positives"; "true_negatives";
              "false_negatives"; "accuracy"; "precision"; "recall";
              "specificity"; "f1_score"; "threshold"; "auc"]
      else ({["error"]} : gset string).
Proof.
  intros Hmax. case_bool_decide as Hvalid.
  - destruct Hvalid as [Hlen Hne].
    destruct (evaluateAlgorithm_valid file_ok scores labels algorithm_name
                dataset_name threshold Hlen Hne Hmax)
      as (tp & fp & tn & fn & auc & roc_events & _ & _ & Heval).
    cbv zeta in Heval. eexists _, _. split; [exact Heval|].
    unfold metrics_record. rewrite !dom_insert_L, dom_empty_L.
    cbn [list_to_set foldr]. set_solver.
  - eexists _, _. unfold evaluateAlgorithm.
    assert (bool_decide (length scores ≠ length labels)
            || bool_decide (length scores = 0%nat) = true) as ->.
    { apply orb_true_iff.
      destruct (decide (length scores = length labels)) as [Hlen|Hlen].
      - right. apply bool_decide_eq_true_2.
        destruct scores; [done|]. destruct Hvalid. by split.
      - left. by apply bool_decide_eq_true_2. }
    split; [done|]. by rewrite dom_singleton_L.
Qed.

End Further.

Lemma ratio_0 (den : Z) : ratio 0 den = 0%Qc.
Proof.
  unfold ratio. case_bool_decide; [|done].
  rewrite Z2Qc_inj_0. unfold Qcdiv. ring.
Qed.

Lemma Qc_of_Z_ne_0 (z : Z) : (0 < z)%Z → Qc_of_Z z ≠ 0%Qc.
Proof.
  intros Hz Heq. rewrite <- Z2Qc_inj_0 in Heq. apply Z2Qc_inj in Heq. lia.
Qed.

Lemma f1_of_counts (tp fp fn : Z) :
  (0 ≤ tp)%Z → (0 ≤ fp)%Z → (0 ≤ fn)%Z →
  f1_of (ratio tp (tp + fp)) (ratio tp (tp + fn)) =
  ratio (2 * tp) (2 * tp + fp + fn).
Proof.
  intros Htp Hfp Hfn. destruct (decide (tp = 0%Z)) as [->|Hne].
  - change (2 * 0)%Z with 0%Z. rewrite !ratio_0.
    unfold f1_of. by rewrite bool_decide_eq_false_2.
  - assert (0 < tp)%Z as Hpos by lia.
    unfold ratio. rewrite !bool_decide_eq_true_2 by lia.
    pose proof (Qc_of_Z_ne_0 tp Hpos) as Ha.
    pose proof (Qc_of_Z_ne_0 (tp + fp) ltac:(lia)) as Hx.
    pose proof (Qc_of_Z_ne_0 (tp + fn) ltac:(lia)) as Hy.
    pose proof (Qc_of_Z_ne_0 (2 * tp + fp + fn) ltac:(lia)) as Hz.
    unfold f1_of. rewrite bool_decide_eq_true_2.
    + replace (Qc_of_Z (2 * tp + fp + fn))
        with (Qc_of_Z (tp + fp) + Qc_of_Z (tp + fn))%Qc in *
        by (rewrite <- Z2Qc_inj_add; f_equal; lia).
      replace (Qc_of_Z (2 * tp)) with (2 * Qc_of_Z tp)%Qc
        by (by rewrite Z2Qc_inj_mul).
      field. split_and!; try done.
      replace (Qc_of_Z tp * Qc_of_Z (tp + fn) + Qc_of_Z tp * Qc_of_Z (tp + fp))%Qc
        with (Qc_of_Z tp * (Qc_of_Z (tp + fp) + Qc_of_Z (tp + fn)))%Qc by ring.
      by intros [?|?]%Qcmult_integral.
    + apply Qcplus_pos_pos; unfold Qcdiv; apply Qcmult_pos_pos;
        try apply Qcinv_pos; by apply Qc_of_Z_pos; lia.
Qed.

(** X20: the F1 score stored by calculateMetrics is 2·TP / (2·TP + FP + FN),
    and 0.0 when that denominator is 0. *)
Theorem calculateMetrics_f1_counts (tp fp tn fn : Z) :
  (0 ≤ tp)%Z → (0 ≤ fp)%Z → (0 ≤ tn)%Z → (0 ≤ fn)%Z →
  (tp + fp + tn + fn ≤ INT_MAX)%Z →
  ∃ metrics,
    calculateMetrics (tp, fp, tn, fn) = Some metrics
    ∧ metrics !! "f1_score" = Some (Fin (ratio (2 * tp) (2 * tp + fp + fn))).
Proof.
  intros Htp Hfp Htn Hfn Hsum. eexists.
  split; [by apply calculateMetrics_record|].
  unfold metrics_record. rewrite lookup_insert_eq.
  by rewrite f1_of_counts.
Qed.

(** ** A perfect ranking *)

Lemma separated_elem_of (pairs : list (double * bool)) (p q : double * bool) :
  separated pairs → p ∈ pairs → q ∈ pairs → p.2 = true → q.2 = false →
  dlt q.1 p.1 = true.
Proof.
  unfold separated. rewrite Forall_forall. intros Hsep Hp Hq.
  specialize (Hsep p Hp). rewrite Forall_forall in Hsep. by apply Hsep.
Qed.

Lemma separated_perm (l k : list (double * bool)) :
  l ≡ₚ k → separated l → separated k.
Proof.
  intros Hperm Hsep. unfold separated.
  apply Forall_forall. intros p Hp. apply Forall_forall. intros q Hq.
  apply (separated_elem_of l); [done|by rewrite Hperm..].
Qed.

(** In a sorted separated list the positive samples come first. *)
Lemma separated_positives_first (l : list (double * bool)) :
  separated l →
  StronglySorted (λ a b, by_score_desc b a = false) l →
  l = filter (λ p, p.2 = true) l ++ filter (λ p, p.2 = false) l.
Proof.
  intros Hsep Hsorted. induction l as [|p l IH]; [done|].
  apply StronglySorted_inv in Hsorted as [Hsorted Hhead].
  assert (separated l) as Hsep'.
  { unfold separated. apply Forall_forall. intros a Ha.
    apply Forall_forall. intros b Hb.
    apply (separated_elem_of (p :: l)); [done|by right..]. }
  rewrite !filter_cons. destruct (decide (p.2 = true)) as [Ht|Hf].
  - rewrite decide_False by (by rewrite Ht). cbn [app]. f_equal. by apply IH.
  - apply not_true_is_false in Hf. rewrite decide_True by done.
    assert (Forall (λ q : double * bool, q.2 = false) l) as Hall.
    { rewrite Forall_forall in Hhead. apply Forall_forall. intros q Hq.
      destruct (q.2) eqn:Hq2; [|done].
      pose proof (separated_elem_of (p :: l) q p Hsep) as Hlt.
      specialize (Hhead q Hq). unfold by_score_desc, dgt in Hhead.
      rewrite Hhead in Hlt. symmetry. apply Hlt; [by right|by left|done..]. }
    replace (filter (λ q : double * bool, q.2 = true) l)
      with (@nil (double * bool)).
    + cbn [app]. f_equal. clear -Hall.
      induction Hall as [|q l Hq _ IHl]; [done|].
      by rewrite filter_cons, decide_True, <- IHl.
    + clear -Hall. induction Hall as [|q l Hq _ IHl]; [done|].
      rewrite filter_cons, decide_False; [done|]. by rewrite Hq.
Qed.

(** The area under points that all lie on the line tpr = 1. *)
Lemma trapezoid_Qc_top (p : Qc * Qc) (points : list (Qc * Qc)) :
  Forall (λ q, q.2 = 1%Qc) (p :: points) →
  ∃ q, last (p :: points) = Some q
       ∧ trapezoid_Qc (p :: points) = (q.1 - p.1)%Qc.
Proof.
  revert p. induction points as [|q points IH]; intros p Hall.
  - exists p. split; [done|]. cbn. ring.
  - apply Forall_cons in Hall as [Hp Hall].
    destruct (IH q Hall) as (r & Hlast & Harea).
    exists r. split; [by rewrite last_cons_cons|].
    change (trapezoid_Qc (p :: q :: points))
      with ((q.1 - p.1) * (q.2 + p.2) / 2 + trapezoid_Qc (q :: points))%Qc.
    apply Forall_cons in Hall as [Hq _]. rewrite Harea, Hp, Hq. field. done.
Qed.

(** While the sweep walks the positives of a separated list the curve stays
    on the line fpr = 0. *)
Lemma trapezoid_Qc_positives (P N : Z) (pos neg : list (double * bool))
    (prev : double) (tp : Z) (q0 : double * Z * Z) (s1 : double) :
  q0.1.2 = 0%Z → Forall (λ p, p.2 = true) pos →
  head neg.*1 = Some s1 → dne s1 (last_prev prev pos) = true →
  trapezoid_Qc (map (rates P N) (q0 :: walk prev tp 0 (pos ++ neg))) =
  trapezoid_Qc
    (map (rates P N)
       (walk (last_prev prev pos) (tp + count_label true pos) 0 neg)).
Proof.
  intros Hq0 Hpos Hneg. revert prev tp q0 Hq0.
  induction Hpos as [|[s b] pos Hb _ IH]; intros prev tp q0 Hq0 Hne.
  - cbn [app last_prev foldl] in *.
    change (count_label true []) with 0%Z. rewrite Z.add_0_r.
    destruct neg as [|[s' b'] neg]; [done|]. cbn in Hneg. simplify_eq.
    cbn [walk]. rewrite Hne. cbn [map].
    change (trapezoid_Qc (rates P N q0 :: rates P N (prev, 0%Z, tp) :: ?l))
      with (((rates P N (prev, 0%Z, tp)).1 - (rates P N q0).1)
            * ((rates P N (prev, 0%Z, tp)).2 + (rates P N q0).2) / 2
            + trapezoid_Qc (rates P N (prev, 0%Z, tp) :: l))%Qc.
    unfold rates at 1 2 3 4. cbn [fst snd]. rewrite Hq0.
    unfold Qcdiv. ring.
  - cbn [snd] in Hb. subst b. cbn [app walk].
    change (last_prev prev ((s, true) :: pos))
      with (last_prev (if dne s prev then s else prev) pos) in *.
    rewrite count_label_cons. cbn [snd]. rewrite decide_True by done.
    replace (tp + (1 + count_label true pos))%Z
      with (tp + 1 + count_label true pos)%Z by lia.
    destruct (dne s prev).
    + rewrite <- (IH s (tp + 1)%Z (prev, 0%Z, tp)) by done.
      cbn [map].
      change (trapezoid_Qc (rates P N q0 :: rates P N (prev, 0%Z, tp) :: ?l))
        with (((rates P N (prev, 0%Z, tp)).1 - (rates P N q0).1)
              * ((rates P N (prev, 0%Z, tp)).2 + (rates P N q0).2) / 2
              + trapezoid_Qc (rates P N (prev, 0%Z, tp) :: l))%Qc.
      unfold rates at 1 2 3 4. cbn [fst snd]. rewrite Hq0.
      unfold Qcdiv. ring.
    + by apply IH.
Qed.

Lemma count_label_app (label : bool) (l k : list (double * bool)) :
  count_label label (l ++ k) = (count_label label l + count_label label k)%Z.
Proof. unfold count_label. rewrite filter_app, length_app. lia. Qed.

Section Perfect.
Context `{Sort : StdSort}.


End Perfect.

(** ** The AUC when the classes are swapped *)

Lemma walk_flip (prev : double) (tp fp : Z) (l : list (double * bool)) :
  walk prev fp tp (flip_label <$> l) =
  (λ c : double * Z * Z, (c.1.1, c.2, c.1.2)) <$> walk prev tp fp l.
Proof.
  revert prev tp fp. induction l as [|[s b] l IH]; intros prev tp fp; [done|].
  rewrite fmap_cons. unfold flip_label at 1. cbn [fst snd walk].
  destruct (dne s prev), b; cbn [negb]; rewrite ?fmap_cons, IH; done.
Qed.

Lemma count_label_flip (label : bool) (l : list (double * bool)) :
  count_label label (flip_label <$> l) = count_label (negb label) l.
Proof.
  induction l as [|[s b] l IH]; [done|].
  rewrite fmap_cons, !count_label_cons, IH. unfold flip_label. cbn [fst snd].
  destruct b, label; repeat case_decide; done.
Qed.

(** The areas under a list of points and under its mirror image add up to
    the difference of the products of the coordinates at the two ends. *)
Lemma trapezoid_Qc_mirror (p : Qc * Qc) (points : list (Qc * Qc)) :
  ∃ q, last (p :: points) = Some q
       ∧ (trapezoid_Qc (p :: points)
          + trapezoid_Qc ((λ r : Qc * Qc, (r.2, r.1)) <$> p :: points)
          = q.1 * q.2 - p.1 * p.2)%Qc.
Proof.
  revert p. induction points as [|q points IH]; intros p.
  - exists p. split; [done|]. cbn. ring.
  - destruct (IH q) as (r & Hlast & Harea).
    exists r. split; [by rewrite last_cons_cons|].
    rewrite !fmap_cons in *.
    change (trapezoid_Qc (p :: q :: points))
      with ((q.1 - p.1) * (q.2 + p.2) / 2 + trapezoid_Qc (q :: points))%Qc.
    change (trapezoid_Qc ((p.2, p.1) :: (q.2, q.1) :: ?l))
      with ((q.2 - p.2) * (q.1 + p.1) / 2
            + trapezoid_Qc ((q.2, q.1) :: l))%Qc.
    set (X := trapezoid_Qc (q :: points)) in *.
    set (Y := trapezoid_Qc ((q.2, q.1) :: ((λ r : Qc * Qc, (r.2, r.1)) <$> points)))
      in *.
    replace ((q.1 - p.1) * (q.2 + p.2) / 2 + X
             + ((q.2 - p.2) * (q.1 + p.1) / 2 + Y))%Qc
      with ((q.1 - p.1) * (q.2 + p.2) / 2 + (q.2 - p.2) * (q.1 + p.1) / 2
            + (X + Y))%Qc by ring.
    rewrite Harea. field. done.
Qed.

Lemma zip_flip (scores : list double) (labels : list bool) :
  zip scores (negb <$> labels) = flip_label <$> zip scores labels.
Proof.
  revert labels. induction scores as [|s scores IH]; intros [|b labels]; try done.
  cbn. by rewrite <- IH.
Qed.

Lemma flip_sorted (l : list (double * bool)) :
  StronglySorted (λ a b, by_score_desc b a = false) l →
  StronglySorted (λ a b, by_score_desc b a = false) (flip_label <$> l).
Proof.
  induction 1 as [|p l _ IH Hhead]; [constructor|].
  rewrite fmap_cons. constructor; [done|].
  apply Forall_fmap. eapply Forall_impl; [exact Hhead|]. done.
Qed.

Lemma flip_no_nan (l : list (double * bool)) :
  no_nan l → no_nan (flip_label <$> l).
Proof.
  unfold no_nan. intros Hnan. apply Forall_fmap.
  eapply Forall_impl; [exact Hnan|]. done.
Qed.

Section Swapped.
Context `{Sort : StdSort}.

(** X22: when the labels of the two classes are swapped, the AUC returned
    becomes one minus the AUC. *)
Theorem auc_of_swapped_classes (file_ok : bool) (scores : list double)
    (labels : list bool) (algorithm_name dataset_name : string) :
  length scores = length labels →
  Forall (λ s, is_nan s = false) scores →
  true ∈ labels → false ∈ labels →
  ∃ auc auc' events events',
    saveRocDataToCSV file_ok scores labels algorithm_name dataset_name =
      Some (auc, events)
    ∧ saveRocDataToCSV file_ok scores (negb <$> labels) algorithm_name
        dataset_name = Some (auc', events')
    ∧ (auc + auc')%D = d_one.
Proof.
  intros Hlen Hnan Hpos Hneg.
  assert (length scores = length (negb <$> labels)) as Hlen'
    by (by rewrite length_fmap).
  assert (true ∈ negb <$> labels) as Hpos'.
  { apply list_elem_of_fmap. by exists false. }
  assert (false ∈ negb <$> labels) as Hneg'.
  { apply list_elem_of_fmap. by exists true. }
  destruct (sorted_input scores labels Hlen Hnan Hpos Hneg)
    as (HP & HN & _ & Hnans & Hsorted).
  destruct (sorted_input scores (negb <$> labels) Hlen' Hnan Hpos' Hneg')
    as (_ & _ & _ & Hnans' & Hsorted').
  pose proof (saveRocDataToCSV_mixed file_ok scores labels algorithm_name
                dataset_name Hlen (no_nan_zip _ _ Hnan) Hpos Hneg) as Hroc.
  pose proof (saveRocDataToCSV_mixed file_ok scores (negb <$> labels)
                algorithm_name dataset_name Hlen' (no_nan_zip _ _ Hnan)
                Hpos' Hneg') as Hroc'.
  pose proof (std_sort_perm (zip scores labels) (no_nan_zip _ _ Hnan)) as Hp.
  pose proof (std_sort_perm (zip scores (negb <$> labels))
                (no_nan_zip _ _ Hnan)) as Hp'.
  cbv zeta in *.
  set (sorted := std_sort (zip scores labels)) in *.
  set (sorted' := std_sort (zip scores (negb <$> labels))) in *.
  clearbody sorted sorted'.
  eexists _, _, _, _. split; [exact Hroc|]. split; [exact Hroc'|].
  rewrite (curve_perm sorted' (flip_label <$> sorted)); [|
    by rewrite Hp', zip_flip, Hp | done | done | by apply flip_sorted].
  rewrite !curve_finite, !trapezoid_sum_finite, !curve_Qc_counts.
  cbn [dadd]. unfold d_one. f_equal.
  rewrite !count_label_flip. cbn [negb].
  set (P := count_label true sorted) in *.
  set (N := count_label false sorted) in *.
  assert (map (rates N P) (counts (flip_label <$> sorted)) =
          (λ r : Qc * Qc, (r.2, r.1)) <$> map (rates P N) (counts sorted))
    as ->.
  { unfold counts. rewrite walk_flip. cbn [map fmap list_fmap].
    f_equal. rewrite <- !list_fmap_compose. by apply list_fmap_ext. }
  destruct (trapezoid_Qc_mirror (rates P N (DBL_MAX, 0%Z, 0%Z))
              (map (rates P N) (walk DBL_MAX 0 0 sorted)))
    as (q & Hlast & Harea).
  change (rates P N (DBL_MAX, 0%Z, 0%Z) :: map (rates P N) (walk DBL_MAX 0 0 sorted))
    with (rates P N <$> counts sorted) in *.
  change (map (rates P N) (counts sorted)) with (rates P N <$> counts sorted).
  rewrite Harea.
  rewrite fmap_last, counts_last in Hlast.
  cbn [fmap option_fmap option_map] in Hlast. injection Hlast as Hq. subst q.
  unfold rates. cbn [fst snd].
  rewrite !Qc_of_Z_div_0, !Qc_of_Z_div_self by lia. ring.
Qed.

End Swapped.

(** ** The AUC when the scores are rescaled *)

Lemma dne_dlt (x y : double) :
  is_nan x = false → is_nan y = false → dne x y = dlt x y || dlt y x.
Proof.
  intros Hx Hy. destruct (dlt x y) eqn:Hxy; [|destruct (dlt y x) eqn:Hyx].
  - apply dne_true_iff; [done|]. by apply dlt_true_ne.
  - apply dne_true_iff; [done|]. intros ->. by apply dlt_true_ne in Hyx.
  - rewrite (dlt_total x y) by done. unfold dne. by rewrite deq_refl.
Qed.

(** The counts of the points do not change when the scores are replaced by
    scores that differ where the old ones do. *)
Lemma walk_rescale (f : double → double) (l : list (double * bool))
    (prev prev' : double) (tp fp : Z) :
  Forall (λ p, dne (f p.1) prev' = dne p.1 prev) l →
  Forall (λ p, Forall (λ q, dne (f q.1) (f p.1) = dne q.1 p.1) l) l →
  (λ c : double * Z * Z, (c.1.2, c.2)) <$> walk prev' tp fp (rescale f <$> l) =
  (λ c : double * Z * Z, (c.1.2, c.2)) <$> walk prev tp fp l.
Proof.
  revert prev prev' tp fp.
  induction l as [|[s b] l IH]; intros prev prev' tp fp Hprev Hpair; [done|].
  apply Forall_cons in Hprev as [Hs Hprev]. cbn [fst] in Hs.
  apply Forall_cons in Hpair as [Hhead Hpair].
  apply Forall_cons in Hhead as [_ Hhead]. cbn [fst] in Hhead.
  assert (Forall (λ p : double * bool,
                    Forall (λ q : double * bool,
                              dne (f q.1) (f p.1) = dne q.1 p.1) l) l) as Hpair'.
  { eapply Forall_impl; [exact Hpair|]. by intros p [_ ?]%Forall_cons. }
  rewrite fmap_cons. unfold rescale at 1. cbn [fst snd walk]. rewrite Hs.
  destruct (dne s prev).
  - rewrite !fmap_cons. cbn [fst snd]. f_equal. by apply IH.
  - by apply IH.
Qed.

Lemma count_label_rescale (f : double → double) (label : bool)
    (l : list (double * bool)) :
  count_label label (rescale f <$> l) = count_label label l.
Proof.
  induction l as [|[s b] l IH]; [done|].
  by rewrite fmap_cons, !count_label_cons, IH.
Qed.

Lemma zip_rescale (f : double → double) (scores : list double)
    (labels : list bool) :
  zip (f <$> scores) labels = rescale f <$> zip scores labels.
Proof.
  revert labels. induction scores as [|s scores IH]; intros [|b labels]; try done.
  cbn. by rewrite <- IH.
Qed.

Lemma rescale_sorted (f : double → double) (l : list (double * bool)) :
  Forall (λ p, Forall (λ q, dlt (f p.1) (f q.1) = dlt p.1 q.1) l) l →
  StronglySorted (λ a b, by_score_desc b a = false) l →
  StronglySorted (λ a b, by_score_desc b a = false) (rescale f <$> l).
Proof.
  intros Hmono Hsorted.
  induction Hsorted as [|p l _ IH Hhead]; [constructor|].
  apply Forall_cons in Hmono as [Hp Hmono].
  apply Forall_cons in Hp as [_ Hp].
  rewrite fmap_cons. constructor.
  - apply IH. eapply Forall_impl; [exact Hmono|]. by intros q [_ ?]%Forall_cons.
  - apply Forall_fmap. rewrite Forall_forall in Hp, Hhead.
    apply Forall_forall. intros q Hq. specialize (Hp q Hq).
    specialize (Hhead q Hq). unfold compose, by_score_desc, dgt, rescale in *.
    cbn [fst] in *. congruence.
Qed.

Lemma rates_of_counts (P N : Z) (l k : list (double * Z * Z)) :
  (λ c : double * Z * Z, (c.1.2, c.2)) <$> l =
  (λ c : double * Z * Z, (c.1.2, c.2)) <$> k →
  map (rates P N) l = map (rates P N) k.
Proof.
  intros Heq.
  apply (f_equal (fmap (λ ab : Z * Z, rates P N (DBL_MAX, ab.1, ab.2)))) in Heq.
  by rewrite <- !list_fmap_compose in Heq.
Qed.

Section Rescaled.
Context `{Sort : StdSort}.

(** X23: the AUC returned depends on the scores only through their order:
    it is the same after the scores are replaced by their images under a
    strictly increasing function. *)
Theorem auc_invariant_under_rescaling (f : double → double) (file_ok : bool)
    (scores : list double) (labels : list bool)
    (algorithm_name dataset_name : string) :
  length scores = length labels →
  Forall (λ s, dlt s DBL_MAX = true ∧ dlt (f s) DBL_MAX = true) scores →
  Forall (λ x, Forall (λ y, dlt (f x) (f y) = dlt x y) scores) scores →
  ∃ auc events events',
    saveRocDataToCSV file_ok scores labels algorithm_name dataset_name =
      Some (auc, events)
    ∧ saveRocDataToCSV file_ok (f <$> scores) labels algorithm_name
        dataset_name = Some (auc, events').
Proof.
  intros Hlen Hbelow Hmono.
  assert (Forall (λ s, is_nan s = false) scores) as Hnan.
  { eapply Forall_impl; [exact Hbelow|]. intros s [Hs _].
    by apply dlt_true_not_nan in Hs as [? _]. }
  assert (Forall (λ s, is_nan s = false) (f <$> scores)) as Hnan'.
  { apply Forall_fmap. eapply Forall_impl; [exact Hbelow|]. intros s [_ Hs].
    by apply dlt_true_not_nan in Hs as [? _]. }
  assert (length (f <$> scores) = length labels) as Hlen'
    by (by rewrite length_fmap).
  destruct (decide (scores = [])) as [->|Hne].
  { destruct labels; [|done]. by eexists _, _, _. }
  assert (f <$> scores ≠ []) as Hne' by (by destruct scores).
  destruct (decide (true ∈ labels)) as [Hpos|Hpos];
    [destruct (decide (false ∈ labels)) as [Hneg|Hneg]|].
  2:{ assert (Forall (λ l, l = true) labels) as Hall.
      { apply Forall_forall. intros [] Hin; done. }
      eexists _, _, _. split; by apply (saveRocDataToCSV_degenerate _ _ _ _ _ true). }
  2:{ assert (Forall (λ l, l = false) labels) as Hall.
      { apply Forall_forall. intros [] Hin; done. }
      eexists _, _, _. split; by apply (saveRocDataToCSV_degenerate _ _ _ _ _ false). }
  destruct (sorted_input scores labels Hlen Hnan Hpos Hneg)
    as (HP & HN & Hperm & Hnans & Hsorted).
  destruct (sorted_input (f <$> scores) labels Hlen' Hnan' Hpos Hneg)
    as (_ & _ & _ & Hnans' & Hsorted').
  pose proof (saveRocDataToCSV_mixed file_ok scores labels algorithm_name
                dataset_name Hlen (no_nan_zip _ _ Hnan) Hpos Hneg) as Hroc.
  pose proof (saveRocDataToCSV_mixed file_ok (f <$> scores) labels
                algorithm_name dataset_name Hlen' (no_nan_zip _ _ Hnan')
                Hpos Hneg) as Hroc'.
  pose proof (std_sort_perm (zip scores labels) (no_nan_zip _ _ Hnan)) as Hp.
  pose proof (std_sort_perm (zip (f <$> scores) labels)
                (no_nan_zip _ _ Hnan')) as Hp'.
  cbv zeta in *.
  set (sorted := std_sort (zip scores labels)) in *.
  set (sorted' := std_sort (zip (f <$> scores) labels)) in *.
  clearbody sorted sorted'.
  assert (∀ p, p ∈ sorted → p.1 ∈ scores) as Hin.
  { intros p Hp0. rewrite <- Hperm. by apply list_elem_of_fmap_2. }
  assert (∀ x y, x ∈ scores → y ∈ scores → dlt (f x) (f y) = dlt x y) as Hm.
  { intros x y Hx Hy. rewrite Forall_forall in Hmono.
    specialize (Hmono x Hx). rewrite Forall_forall in Hmono. by apply Hmono. }
  assert (∀ x, x ∈ scores →
            is_nan x = false ∧ is_nan (f x) = false
            ∧ dne x DBL_MAX = true ∧ dne (f x) DBL_MAX = true) as Hb.
  { intros x Hx. rewrite Forall_forall in Hbelow.
    destruct (Hbelow x Hx) as [H1 H2].
    pose proof (dlt_true_not_nan _ _ H1) as [? _].
    pose proof (dlt_true_not_nan _ _ H2) as [? _].
    split_and!; [done|done| |]; apply dne_true_iff; try done;
      by apply dlt_true_ne. }
  assert (trapezoid_sum (curve sorted') = trapezoid_sum (curve sorted)) as Harea.
  { rewrite (curve_perm sorted' (rescale f <$> sorted)); [| |done|done|].
    - rewrite !curve_finite, !trapezoid_sum_finite, !curve_Qc_counts.
      rewrite !count_label_rescale. do 2 f_equal.
      apply rates_of_counts. unfold counts. rewrite !fmap_cons. f_equal.
      apply walk_rescale.
      + apply Forall_forall. intros p Hp0.
        destruct (Hb p.1 (Hin p Hp0)) as (_ & _ & -> & ->). done.
      + apply Forall_forall. intros p Hp0. apply Forall_forall. intros q Hq0.
        destruct (Hb p.1 (Hin p Hp0)) as (? & ? & _ & _).
        destruct (Hb q.1 (Hin q Hq0)) as (? & ? & _ & _).
        rewrite !dne_dlt by done. by rewrite !Hm by auto.
    - by rewrite Hp', zip_rescale, Hp.
    - apply rescale_sorted; [|done].
      apply Forall_forall. intros p Hp0. apply Forall_forall. intros q Hq0.
      apply Hm; auto. }
  eexists _, _, _. split; [exact Hroc|]. by rewrite Hroc', Harea.
Qed.

End Rescaled.

(** * The further properties at concrete inputs *)

(** X1 at a file with a header line and a closing newline. *)
Lemma readCSV_round_trip_witness :
  readCSV (example_fs example_csv) true "data.csv" =
    (example_table,
     [(StdOut, [Str "Successfully read ";
                Num (Z.of_nat (length example_table));
                Str " samples from "; Str "data.csv"; Endl])]).
Proof.
  apply (readCSV_round_trip (example_fs example_csv) "data.csv" "id,score"
           true true example_table); compute_done.
Defined.

(** X2 at the first row of the same file. *)
Lemma readCSV_rows_well_formed_witness :
  ["1"; "0.5"] ≠ []
  ∧ Forall (λ cell, occurs comma cell = false ∧ occurs newline cell = false)
      ["1"; "0.5"].
Proof.
  apply (readCSV_rows_well_formed (example_fs example_csv) true "data.csv"
           ["1"; "0.5"]); compute_done.
Defined.

(** X3 at the same file, with and without its header line. *)
Lemma readCSV_header_skipped_witness :
  readCSV (example_fs example_csv) true "data.csv" =
  readCSV (example_fs (csv_text example_table +:+ String newline EmptyString))
    false "data.csv".
Proof.
  apply (readCSV_header_skipped _ _ "data.csv" "id,score"
           (csv_text example_table +:+ String newline EmptyString));
    compute_done.
Defined.


(** X5 at the line [a,b,]. *)
Lemma readCSV_trailing_empty_cell_dropped_witness :
  (readCSV (example_fs "a,b,") false "data.csv").1 = [["a"; "b"]].
Proof.
  apply (readCSV_trailing_empty_cell_dropped (example_fs "a,b,") "data.csv"
           ["a"; "b"]); compute_done.
Defined.

(** X6 at the key [auc]. *)
Lemma printEvaluationResults_ignores_other_keys_witness :
  printEvaluationResults (<["auc" := half]> (metrics_record 2 1 1 0)) true =
  printEvaluationResults (metrics_record 2 1 1 0) true.
Proof.
  apply (printEvaluationResults_ignores_other_keys (metrics_record 2 1 1 0)
           true "auc" half); compute_done.
Defined.

(** X7 at the usage example of the source, with the threshold 0.5. *)
Lemma evaluateAlgorithm_summary_printed_witness :
  ∃ (results : gmap string double) (roc_events : list event)
    (tp fp tn fn : Z),
    let used := resolved_threshold example1_scores example1_labels half in
    evaluateAlgorithm true example1_scores example1_labels "MyAlgorithm"
      "TestDataset" half =
      Some (results, roc_events ++ [CoutResults results true])
    ∧ calculateConfusionMatrix example1_scores example1_labels used =
        Some (tp, fp, tn, fn)
    ∧ printEvaluationResults results true =
      Some ([Str results_header; Str "Threshold: "; Dbl used; Endl;
             Str confusion_header;
             Str "TP: "; Num tp; Str tab; Str "FP: "; Num fp; Str nl;
             Str "FN: "; Num fn; Str tab; Str "TN: "; Num tn; Str nl;
             Str metrics_header]
            ++ flat_map (λ metric,
                           [Str metric; Str ": ";
                            Dbl (map_at results metric * of_int 100)%D;
                            Str "%"; Endl]) metricsToShow
            ++ [Str results_footer]).
Proof.
  apply (evaluateAlgorithm_summary_printed true example1_scores
           example1_labels "MyAlgorithm" "TestDataset" half); compute_done.
Defined.

(** X8 at the map evaluateAlgorithm returns for an invalid input. *)
Lemma printEvaluationResults_no_known_key_witness :
  printEvaluationResults {["error" := d_one]} true =
  Some [Str results_header; Str metrics_header; Str results_footer].
Proof.
  apply (printEvaluationResults_no_known_key {["error" := d_one]} true);
    compute_done.
Defined.





(** X14 at the usage example, with the thresholds 0.5 and 0.6. *)
Lemma confusion_matrix_threshold_monotone_witness :
  ∃ tp fp tn fn tp' fp' tn' fn' : Z,
    calculateConfusionMatrix example1_scores example1_labels half =
      Some (tp, fp, tn, fn)
    ∧ calculateConfusionMatrix example1_scores example1_labels
        (Fin (Q2Qc (6 # 10))) = Some (tp', fp', tn', fn')
    ∧ (tp' ≤ tp)%Z ∧ (fp' ≤ fp)%Z ∧ (tn ≤ tn')%Z ∧ (fn ≤ fn')%Z.
Proof.
  apply (confusion_matrix_threshold_monotone example1_scores example1_labels
           half (Fin (Q2Qc (6 # 10)))); compute_done.
Defined.

(** X15 at the usage example. *)
Lemma roc_rows_count_scores_at_least_witness :
  ∃ (rows : list roc_point) (auc : double),
    saveRocDataToCSV true example1_scores example1_labels "MyAlgorithm"
      "TestDataset" =
      Some (auc, [CsvFile (roc_filename "MyAlgorithm" "TestDataset") rows;
                  CoutRocSaved (roc_filename "MyAlgorithm" "TestDataset");
                  CoutAuc auc])
    ∧ Forall (λ row,
                fpr row =
                  rate (count_at_least false (threshold row)
                          (zip example1_scores example1_labels))
                       (count_label false (zip example1_scores example1_labels))
                ∧ tpr row =
                    rate (count_at_least true (threshold row)
                            (zip example1_scores example1_labels))
                         (count_label true
                            (zip example1_scores example1_labels))) rows.
Proof.
  apply (roc_rows_count_scores_at_least example1_scores example1_labels);
    compute_done.
Defined.



(** X18 at three samples with the score 1.0. *)
Lemma constant_score_auc_half_witness :
  ∃ events,
    saveRocDataToCSV true example2_scores example2_labels "alg" "data" =
    Some (half, events).
Proof.
  apply (constant_score_auc_half true example2_scores example2_labels
           "alg" "data" d_one); compute_done.
Defined.

(** X19 at the usage example. *)
Lemma evaluateAlgorithm_keys_witness :
  ∃ results events,
    evaluateAlgorithm true example1_scores example1_labels "MyAlgorithm"
      "TestDataset" half = Some (results, events)
    ∧ dom results =
      if bool_decide (length example1_scores = length example1_labels
                      ∧ example1_scores ≠ [])
      then list_to_set
             ["true_positives"; "false_positives"; "true_negatives";
              "false_negatives"; "accuracy"; "precision"; "recall";
              "specificity"; "f1_score"; "threshold"; "auc"]
      else ({["error"]} : gset string).
Proof.
  apply (evaluateAlgorithm_keys true example1_scores example1_labels
           "MyAlgorithm" "TestDataset" half); compute_done.
Defined.

(** X20 at the counts TP = 2, FP = 1, TN = 1, FN = 0. *)
Lemma calculateMetrics_f1_counts_witness :
  ∃ metrics,
    calculateMetrics (2, 1, 1, 0)%Z = Some metrics
    ∧ metrics !! "f1_score" =
        Some (Fin (ratio (2 * 2) (2 * 2 + 1 + 0))).
Proof.
  apply (calculateMetrics_f1_counts 2 1 1 0); compute_done.
Defined.


(** X22 at the usage example. *)
Lemma auc_of_swapped_classes_witness :
  ∃ auc auc' events events',
    saveRocDataToCSV true example1_scores example1_labels "MyAlgorithm"
      "TestDataset" = Some (auc, events)
    ∧ saveRocDataToCSV true example1_scores (negb <$> example1_labels)
        "MyAlgorithm" "TestDataset" = Some (auc', events')
    ∧ (auc + auc')%D = d_one.
Proof.
  apply (auc_of_swapped_classes true example1_scores example1_labels);
    compute_done.
Defined.

(** X23 at the usage example, with its scores rescaled to [0, 1]. *)
Lemma auc_invariant_under_rescaling_witness :
  ∃ auc events events',
    saveRocDataToCSV true example1_scores example1_labels "MyAlgorithm"
      "TestDataset" = Some (auc, events)
    ∧ saveRocDataToCSV true (example_rescale <$> example1_scores)
        example1_labels "MyAlgorithm" "TestDataset" = Some (auc, events').
Proof.
  apply (auc_invariant_under_rescaling example_rescale true example1_scores
           example1_labels); compute_done.
Defined.
